(** * cv-matcher: keyword presence, highlighting and scores

    A shallow embedding of the matching, highlighting and scoring code of
    [app.py], [src/utils/keyword_matcher.py] and [src/utils/priority_skills.py],
    of the text normalisation of [src/processing/resume_processor.py] and
    of the normalisation of the analysis in [src/analysis/gemini_analysis.py],
    with the properties that the specification states about it and further
    properties of the code.

    - Strings are lists of ASCII characters; sets and dictionaries are
      stdpp's [gset] and [gmap].
    - The patterns are built as text, as the program builds them, and read by
      a model of [re.compile] for the syntax that occurs.
    - A function that can raise [re.error] returns an option.
    - Floats are exact rationals. *)

From Stdlib Require Import QArith Qround Qminmax Lqa.
From Stdlib Require Import Ascii String NArith DecimalString Sorted.
From stdpp Require Import gmap strings list fin_maps.
Close Scope Q_scope.
Local Open Scope char_scope.

(** * Python strings

    Text is ASCII: a string is a list of characters, and the classes of
    characters ([str.isspace], [\w], the letters that [str.lower] changes)
    are those of Python on the code points below 128. *)

Module PyStr.

Abbreviation pystr := (list ascii).

Definition str (s : string) : pystr := list_ascii_of_string s.

Definition code (c : ascii) : N := N_of_ascii c.

Definition in_range (lo hi : N) (c : ascii) : bool :=
  (lo <=? code c)%N && (code c <=? hi)%N.

Definition is_upper (c : ascii) : bool := in_range 65 90 c.
Definition is_lower (c : ascii) : bool := in_range 97 122 c.
Definition is_digit (c : ascii) : bool := in_range 48 57 c.
Definition is_alnum (c : ascii) : bool := is_upper c || is_lower c || is_digit c.

(** [\w] on ASCII text: letters, digits and the underscore. *)
Definition is_word (c : ascii) : bool := is_alnum c || Ascii.eqb c "_".

(** [str.isspace] and [\s] on ASCII text: TAB..CR, FS..US and the blank. *)
Definition is_space (c : ascii) : bool :=
  in_range 9 13 c || in_range 28 32 c.

Definition lower_char (c : ascii) : ascii :=
  if is_upper c then ascii_of_N (code c + 32) else c.

Definition py_lower (s : pystr) : pystr := map lower_char s.

Fixpoint lstrip (s : pystr) : pystr :=
  match s with
  | c :: s' => if is_space c then lstrip s' else s
  | [] => []
  end.

Definition rstrip (s : pystr) : pystr := rev (lstrip (rev s)).

Definition py_strip (s : pystr) : pystr := rstrip (lstrip s).

Fixpoint startswith (p s : pystr) : bool :=
  match p, s with
  | [], _ => true
  | c :: p', d :: s' => Ascii.eqb c d && startswith p' s'
  | _ :: _, [] => false
  end.

(** [sub in s] *)
Fixpoint py_contains (sub s : pystr) : bool :=
  startswith sub s ||
  match s with
  | [] => false
  | _ :: s' => py_contains sub s'
  end.

(** [s.replace(old, new)] for a non-empty [old]: occurrences are taken left
    to right and do not overlap; [skip] counts the characters of an
    occurrence that is being passed over. *)
Fixpoint replace_from (old new : pystr) (skip : nat) (s : pystr) : pystr :=
  match s with
  | [] => []
  | c :: s' =>
      match skip with
      | S k => replace_from old new k s'
      | O => if startswith old s
             then new ++ replace_from old new (length old - 1) s'
             else c :: replace_from old new 0 s'
      end
  end.

Definition py_replace (old new s : pystr) : pystr := replace_from old new 0 s.

(** [sep.join(parts)] *)
Fixpoint py_join (sep : pystr) (parts : list pystr) : pystr :=
  match parts with
  | [] => []
  | [p] => p
  | p :: ps => p ++ sep ++ py_join sep ps
  end.

(** [str(n)] for a natural number, as an f-string prints it. *)
Definition str_of_nat (n : nat) : pystr :=
  str (NilZero.string_of_uint (Nat.to_uint n)).

Definition dquote : ascii := ascii_of_N 34.
Definition backslash : ascii := ascii_of_N 92.

(** [a <= b] on strings: the first code point that differs decides, and a
    prefix comes before its extensions. *)
Fixpoint str_le (a b : pystr) : bool :=
  match a, b with
  | [], _ => true
  | _ :: _, [] => false
  | c :: a', d :: b' =>
      if (code c <? code d)%N then true
      else if (code d <? code c)%N then false
      else str_le a' b'
  end.

(** [sorted(l)] on strings: a stable sort.  An element goes before the first
    one that is not smaller than it. *)
Fixpoint insert_sorted (x : pystr) (l : list pystr) : list pystr :=
  match l with
  | [] => [x]
  | y :: l' => if str_le x y then x :: l else y :: insert_sorted x l'
  end.

Definition py_sorted (l : list pystr) : list pystr := foldr insert_sorted [] l.

(** [list(dict.fromkeys(l))]: the first occurrence of each element, in the
    order of the list. *)
Fixpoint fromkeys (l : list pystr) (seen : gset pystr) : list pystr :=
  match l with
  | [] => []
  | x :: l' =>
      if bool_decide (x ∈ seen) then fromkeys l' seen
      else x :: fromkeys l' ({[ x ]} ∪ seen)
  end.

End PyStr.
Export PyStr.

(** * The fragment of the [re] library that the program uses

    Patterns are built by the program as text and compiled; [re_compile]
    reads the syntax that these texts use, and [match_items] is the
    backtracking matcher: greedy repetition, ordered alternatives. *)

Module Re.

(** Elements of a character set: a literal, [\s] or [\w]. *)
Inductive celt : Type :=
| CLit (c : ascii)
| CSpace
| CWord.

Abbreviation charset := (list celt).

(** Pattern items.  A pattern is a sequence of items; an alternation group
    holds alternatives that are sequences of single characters. *)
Inductive item : Type :=
| Chr (cs : charset)                  (* one character of the set *)
| Star (cs : charset)                 (* greedy [*] over the set *)
| Plus (cs : charset)                 (* greedy [+] over the set *)
| NotBehindWord                       (* (?<!\w) *)
| NotAheadWord                        (* (?!\w) *)
| Alt (alts : list (list charset)).   (* (?:a|b|...) *)

Record pattern : Type := Pattern { ignorecase : bool; items : list item }.

Definition celt_match (ic : bool) (c : ascii) (e : celt) : bool :=
  match e with
  | CLit d => if ic then Ascii.eqb (lower_char c) (lower_char d)
              else Ascii.eqb c d
  | CSpace => is_space c
  | CWord => is_word c
  end.

Definition cs_match (ic : bool) (cs : charset) (c : ascii) : bool :=
  existsb (celt_match ic c) cs.

Definition word_opt (o : option ascii) : bool :=
  match o with
  | Some c => is_word c
  | None => false
  end.

(** Continuations of the backtracking matcher: previous character, rest of
    the subject, and the result is the number of characters consumed. *)
Definition cont : Type := option ascii -> pystr -> option nat.

(** Greedy repetition: take as many characters as possible, give back one
    at a time while the continuation fails. *)
Fixpoint greedy (ic : bool) (cs : charset) (k : cont)
    (prev : option ascii) (s : pystr) : option nat :=
  match s with
  | c :: s' =>
      if cs_match ic cs c then
        match greedy ic cs k (Some c) s' with
        | Some n => Some (S n)
        | None => k prev s
        end
      else k prev s
  | [] => k prev []
  end.

(** One alternative, a sequence of single characters, then the continuation. *)
Fixpoint match_chars (ic : bool) (a : list charset) (k : cont)
    (prev : option ascii) (s : pystr) : option nat :=
  match a with
  | [] => k prev s
  | cs :: a' =>
      match s with
      | c :: s' => if cs_match ic cs c
                   then S <$> match_chars ic a' k (Some c) s'
                   else None
      | [] => None
      end
  end.

(** Ordered choice: the first alternative after which the rest succeeds. *)
Fixpoint first_alt (ic : bool) (alts : list (list charset)) (k : cont)
    (prev : option ascii) (s : pystr) : option nat :=
  match alts with
  | [] => None
  | a :: alts' =>
      match match_chars ic a k prev s with
      | Some n => Some n
      | None => first_alt ic alts' k prev s
      end
  end.

(** [match_items ic its prev s]: length of the match of [its] at the head of
    [s], where [prev] is the character before it. *)
Fixpoint match_items (ic : bool) (its : list item)
    (prev : option ascii) (s : pystr) {struct its} : option nat :=
  match its with
  | [] => Some 0
  | Chr cs :: k =>
      match s with
      | c :: s' => if cs_match ic cs c
                   then S <$> match_items ic k (Some c) s'
                   else None
      | [] => None
      end
  | Star cs :: k => greedy ic cs (match_items ic k) prev s
  | Plus cs :: k =>
      match s with
      | c :: s' => if cs_match ic cs c
                   then S <$> greedy ic cs (match_items ic k) (Some c) s'
                   else None
      | [] => None
      end
  | NotBehindWord :: k =>
      if word_opt prev then None else match_items ic k prev s
  | NotAheadWord :: k =>
      if word_opt (head s) then None else match_items ic k prev s
  | Alt alts :: k => first_alt ic alts (match_items ic k) prev s
  end.

(** [p.search(text)]: the leftmost start at which the pattern matches, and
    the length of the match there. *)
Fixpoint search_from (ic : bool) (its : list item) (prev : option ascii)
    (s : pystr) (i : nat) : option (nat * nat) :=
  match match_items ic its prev s with
  | Some n => Some (i, n)
  | None =>
      match s with
      | [] => None
      | c :: s' => search_from ic its (Some c) s' (S i)
      end
  end.

Definition re_search (p : pattern) (text : pystr) : option (nat * nat) :=
  search_from (ignorecase p) (items p) None text 0.

(** [m.group(0)] *)
Definition group0 (text : pystr) (m : nat * nat) : pystr :=
  take (snd m) (drop (fst m) text).

(** [p.sub(f, text)] with a callback that reads and updates a state: the
    matches are taken left to right on the original text and do not overlap.
    [skip] counts the characters of the current match still to pass over.
    After an empty match the character at that position is copied and the
    scan moves on. *)
Fixpoint sub_from {St : Type} (ic : bool) (its : list item)
    (f : pystr -> St -> pystr * St) (prev : option ascii) (s : pystr)
    (skip : nat) (st : St) : pystr * St :=
  match skip with
  | S k =>
      match s with
      | c :: s' => sub_from ic its f (Some c) s' k st
      | [] => ([], st)
      end
  | O =>
      match match_items ic its prev s with
      | Some n =>
          let '(r, st1) := f (take n s) st in
          match s with
          | [] => (r, st1)
          | c :: s' =>
              match n with
              | O => let '(out, st2) := sub_from ic its f (Some c) s' 0 st1 in
                     (r ++ c :: out, st2)
              | S n' => let '(out, st2) := sub_from ic its f (Some c) s' n' st1 in
                        (r ++ out, st2)
              end
          end
      | None =>
          match s with
          | [] => ([], st)
          | c :: s' => let '(out, st1) := sub_from ic its f (Some c) s' 0 st in
                       (c :: out, st1)
          end
      end
  end.

Definition re_sub {St : Type} (p : pattern) (f : pystr -> St -> pystr * St)
    (text : pystr) (st : St) : pystr * St :=
  sub_from (ignorecase p) (items p) f None text 0 st.

Definition one_of (chars : pystr) (c : ascii) : bool :=
  existsb (Ascii.eqb c) chars.

(** [re.escape], as of Python 3.7: a backslash before each of the special
    characters [()[]{}?*+-|^$\.&~#], the blank and TAB..CR. *)
Definition escape_special (c : ascii) : bool :=
  one_of (str "()[]{}?*+-|^$\.&~# ") c || in_range 9 13 c.

Definition re_escape (s : pystr) : pystr :=
  flat_map (fun c => if escape_special c then [backslash; c] else [c]) s.

(** Characters that are not literals when they stand unescaped in a pattern. *)
Definition meta (c : ascii) : bool := one_of (str ".^$*+?{}[]\|()") c.

(** What [\c] stands for: [\s], [\w], or the literal [c] when [c] is not
    alphanumeric.  The other escapes are outside the fragment. *)
Definition escape_elt (c : ascii) : option celt :=
  if Ascii.eqb c "s" then Some CSpace
  else if Ascii.eqb c "w" then Some CWord
  else if is_alnum c then None
  else Some (CLit c).

(** The body of a character set, after the opening bracket: its elements
    and the number of characters up to and including the closing bracket. *)
Fixpoint class_at (s : pystr) (esc : bool) : option (charset * nat) :=
  match s with
  | [] => None
  | c :: s' =>
      if esc then
        e ← escape_elt c; '(cs, n) ← class_at s' false; Some (e :: cs, S n)
      else if Ascii.eqb c "]" then Some ([], 1)
      else if Ascii.eqb c backslash then
        '(cs, n) ← class_at s' true; Some (cs, S n)
      else if one_of (str "[-^") c then None
      else '(cs, n) ← class_at s' false; Some (CLit c :: cs, S n)
  end.

Definition push (e : charset) (alts : list (list charset)) : list (list charset) :=
  match alts with
  | a :: rest => (e :: a) :: rest
  | [] => [[e]]
  end.

(** The body of a group [(?:...)], after [?:]: its alternatives and the
    number of characters up to and including the closing parenthesis. *)
Fixpoint group_at (s : pystr) (esc : bool) : option (list (list charset) * nat) :=
  match s with
  | [] => None
  | c :: s' =>
      if esc then
        e ← escape_elt c; '(alts, n) ← group_at s' false;
        Some (push [e] alts, S n)
      else if Ascii.eqb c ")" then Some ([[]], 1)
      else if Ascii.eqb c "|" then
        '(alts, n) ← group_at s' false; Some ([] :: alts, S n)
      else if Ascii.eqb c backslash then
        '(alts, n) ← group_at s' true; Some (alts, S n)
      else if meta c then None
      else '(alts, n) ← group_at s' false; Some (push [CLit c] alts, S n)
  end.

(** An atom followed by its quantifier, if any. *)
Definition quantified (cs : charset) (n : nat) (rest : pystr) : option (item * nat) :=
  match rest with
  | q :: _ =>
      if Ascii.eqb q "*" then Some (Star cs, S n)
      else if Ascii.eqb q "+" then Some (Plus cs, S n)
      else if one_of (str "?{") q then None
      else Some (Chr cs, n)
  | [] => Some (Chr cs, n)
  end.

(** The item at the head of a pattern text and the number of characters it
    spans; [None] when the text there is outside the fragment. *)
Definition atom_at (s : pystr) : option (item * nat) :=
  match s with
  | [] => None
  | c :: rest =>
      if Ascii.eqb c backslash then
        match rest with
        | d :: rest' => e ← escape_elt d; quantified [e] 2 rest'
        | [] => None
        end
      else if Ascii.eqb c "[" then
        '(cs, n) ← class_at rest false;
        match cs with
        | [] => None
        | _ => quantified cs (S n) (drop n rest)
        end
      else if Ascii.eqb c "(" then
        if startswith (str "?<!\w)") rest then Some (NotBehindWord, 7)
        else if startswith (str "?!\w)") rest then Some (NotAheadWord, 6)
        else if startswith (str "?:") rest then
          '(alts, n) ← group_at (drop 2 rest) false; Some (Alt alts, 3 + n)
        else None
      else if meta c then None
      else quantified [CLit c] 1 rest
  end.

Fixpoint parse_items (skip : nat) (s : pystr) : option (list item) :=
  match s with
  | [] => Some []
  | _ :: rest =>
      match skip with
      | S k => parse_items k rest
      | O => '(it, n) ← atom_at s; its ← parse_items (n - 1) rest; Some (it :: its)
      end
  end.

(** [re.compile(text, flags)]: [None] stands for a text outside the fragment,
    where Python raises [re.error] or builds a pattern that this development
    does not cover.  [(?i)] is accepted at the start only. *)
Definition re_compile (flag_i : bool) (s : pystr) : option pattern :=
  if startswith (str "(?i)") s
  then Pattern true <$> parse_items 0 (drop 4 s)
  else Pattern flag_i <$> parse_items 0 s.

End Re.
Export Re.

(** * src/utils/keyword_matcher.py *)

Module KeywordMatcher.

(** Separators between the tokens of a term: the set [[\s\-/_.]]. *)
Definition is_sep (c : ascii) : bool := is_space c || one_of (str "-/_.") c.

(** [re.search(r'[\s\-/_.]', s)] as a truth value *)
Definition has_sep (s : pystr) : bool := existsb is_sep s.

(** [re.split(r'[\s\-/_.]+', s)]: the pieces between maximal runs of
    separators, the empty pieces at the two ends included.  [cur] is the
    current piece, reversed; [in_run] tells that a run is being passed. *)
Fixpoint split_from (s : pystr) (cur : pystr) (in_run : bool) : list pystr :=
  match s with
  | [] => [rev cur]
  | c :: s' =>
      if is_sep c then
        if in_run then split_from s' [] true
        else rev cur :: split_from s' [] true
      else split_from s' (c :: cur) false
  end.

Definition split_seps (s : pystr) : list pystr := split_from s [] false.

Definition SEP : pystr := str "[\s\-/_.]*".

Definition SYNONYMS_items : list (pystr * list pystr) :=
  [ (str "gcp", [str "google cloud"; str "google cloud platform"]);
    (str "aws", [str "amazon web services"]);
    (str "azure devops", [str "azure boards"; str "ado"]);
    (str "node.js", [str "nodejs"; str "node js"]);
    (str ".net", [str "dotnet"; str "dot net"]);
    (str "power bi", [str "powerbi"; str "pbi"]);
    (str "ms office", [str "microsoft office"; str "office 365"; str "office365"]);
    (str "postgresql", [str "postgres"]);
    (str "ci/cd", [str "cicd"; str "ci cd"]);
    (str "google bigquery", [str "bigquery"; str "gcp bigquery"]);
    (str "etl", [str "extract transform load"]);
    (str "pix4d", [str "pix 4d"; str "pix-4d"]);
    (str "arcgis", [str "arc gis"; str "arc-gis"]);
    (str "qgis", [str "q gis"; str "q-gis"]);
    (str "iam", [str "identity and access management"]) ].

Definition SYNONYMS : gmap pystr (list pystr) := list_to_map SYNONYMS_items.

Definition canonical (term : pystr) : pystr := py_lower (py_strip term).

Definition _token_sep_variant (t : pystr) : pystr :=
  py_join SEP (map re_escape (split_seps t)).

(** The loop that removes duplicates, keeping the first of each. *)
Fixpoint dedup (variants : list pystr) (seen : gset pystr) : list pystr :=
  match variants with
  | [] => []
  | v :: rest =>
      let v2 := py_lower v in
      if bool_decide (v2 ∈ seen) then dedup rest seen
      else v :: dedup rest ({[ v2 ]} ∪ seen)
  end.

Definition term_variants (term : pystr) : list pystr :=
  let t := canonical term in
  let variants := t :: default [] (SYNONYMS !! t) in
  let flexible :=
    flat_map (fun base =>
      if has_sep base
      then [ _token_sep_variant base;
             py_join (str "\s+") (map re_escape (split_seps base)) ]
      else []) variants in
  dedup (variants ++ flexible) ∅.

(** The test that tells a ready pattern from a literal variant. *)
Definition looks_like_pattern (v : pystr) : bool :=
  py_contains [backslash] v &&
  (py_contains (str "\s") v || py_contains (str "\-") v || py_contains (str "\.") v).

Definition pattern_text (v : pystr) : pystr :=
  if looks_like_pattern v
  then str "(?i)(?<!\w)" ++ v ++ str "(?!\w)"
  else str "(?i)(?<!\w)" ++ re_escape v ++ str "(?!\w)".

Definition compile_patterns_for_term (term : pystr) : option (list pattern) :=
  mapM (fun v => re_compile false (pattern_text v)) (term_variants term).

Fixpoint any_match_with_surface (text : pystr) (patterns : list pattern) : pystr :=
  match patterns with
  | [] => []
  | p :: rest =>
      match re_search p text with
      | Some m => group0 text m
      | None => any_match_with_surface text rest
      end
  end.

(** The three results: present set, missing set, surfaces. *)
Record presence : Type := Presence {
  present : gset pystr;
  missing : gset pystr;
  surfaces : gmap pystr pystr
}.

Definition truthy (s : pystr) : bool :=
  match s with
  | [] => false
  | _ => true
  end.

(** The body of the loop over the terms, on the state of the three results;
    [None] when a pattern does not compile. *)
Definition pmws_step (text : pystr) (st : presence) (raw : pystr) : option presence :=
  let t := canonical raw in
  if truthy t then
    patterns ← compile_patterns_for_term t;
    let surface := any_match_with_surface text patterns in
    if truthy surface
    then Some (Presence ({[ t ]} ∪ present st) (missing st) (<[ t := surface ]> (surfaces st)))
    else Some (Presence (present st) ({[ t ]} ∪ missing st) (surfaces st))
  else Some st.

Fixpoint pmws_loop (text : pystr) (terms : list pystr) (st : presence) : option presence :=
  match terms with
  | [] => Some st
  | raw :: rest => st' ← pmws_step text st raw; pmws_loop text rest st'
  end.

Definition present_missing_with_surface (text : pystr) (terms : list pystr)
    (synonyms : option (gmap pystr (list pystr))) : option presence :=
  pmws_loop text terms (Presence ∅ ∅ ∅).

(** The wrapper that drops the surfaces. *)
Definition present_missing (text : pystr) (terms : list pystr)
    : option (gset pystr * gset pystr) :=
  r ← present_missing_with_surface text terms None;
  Some (present r, missing r).

End KeywordMatcher.
Export KeywordMatcher.

(** * src/utils/priority_skills.py *)

Module PrioritySkills.

Definition HIGH_PRIORITY_SKILLS : gset pystr :=
  list_to_set (map str
    [ "python"; "java"; "c++"; "c#"; ".net"; "node.js"; "javascript";
      "typescript"; "go"; "rust"; "sql"; "mysql"; "postgresql"; "oracle";
      "mongodb"; "spark"; "hadoop";
      "aws"; "azure"; "gcp"; "google cloud"; "kubernetes"; "docker";
      "terraform"; "ansible";
      "pandas"; "numpy"; "scikit-learn"; "tensorflow"; "pytorch"; "mlops";
      "linux"; "git"; "ci/cd"; "jenkins"; "kafka"; "elastic"; "elasticsearch";
      "snowflake";
      "power bi"; "tableau"; "looker"; "excel";
      "siem"; "soc"; "iam"; "okta"; "splunk" ])%string.

Definition get_priority_skills : gset pystr := HIGH_PRIORITY_SKILLS.

End PrioritySkills.
Export PrioritySkills.

(** * app.py *)

Module App.

Definition _escape (text : pystr) : pystr :=
  py_replace (str ">") (str "&gt;")
    (py_replace (str "<") (str "&lt;")
      (py_replace (str "&") (str "&amp;") text)).

(** [sorted(..., key=len, reverse=True)]: a stable sort, longest first.  An
    element goes before the first one that is not longer than it. *)
Fixpoint insert_by_len (x : pystr) (l : list pystr) : list pystr :=
  match l with
  | [] => [x]
  | y :: l' => if (length y <=? length x)%nat then x :: l
               else y :: insert_by_len x l'
  end.

Definition sorted_by_len_desc (l : list pystr) : list pystr :=
  foldr insert_by_len [] l.

(** The outer [None] is a pattern that does not compile; the inner one is
    the [None] that the function returns when no term is left.  Python does
    not fix the order in which [set(terms)] is listed; here it is the order
    of [elements], and [compile_terms_any_order] shows that any other order
    gives the same matches. *)
Definition _compile_terms (terms : option (list pystr)) : option (option pattern) :=
  let terms := filter (fun t => truthy t) (default [] terms) in
  match terms with
  | [] => Some None
  | _ =>
      let terms := map re_escape
                     (sorted_by_len_desc (elements (list_to_set terms : gset pystr))) in
      Some <$> re_compile false
                 (str "(?i)(?<!\w)(?:" ++ py_join (str "|") terms ++ str ")(?!\w)")
  end.

Definition span (cls inner : pystr) : pystr :=
  str "<span class=" ++ [dquote] ++ str "hl " ++ cls ++ [dquote] ++ str ">"
    ++ inner ++ str "</span>".

(** The list [repl] of [_highlight]: placeholders and their markup. *)
Abbreviation repl_list := (list (pystr * pystr)).

Definition _sub (cls : pystr) (token : pystr) (repl : repl_list) : pystr * repl_list :=
  let ph := str "@@H" ++ str_of_nat (length repl) ++ str "@@" in
  (ph, repl ++ [(ph, span cls (_escape token))]).

(** [wrap] works on the two variables that it shares with [_highlight]. *)
Definition wrap (regex : option pattern) (cls : pystr) (st : pystr * repl_list)
    : pystr * repl_list :=
  match regex with
  | None => st
  | Some p => re_sub p (_sub cls) st.1 st.2
  end.

Definition _highlight (text : pystr) (good critical medium low : option (list pystr))
    : option pystr :=
  let st := (_escape text, []) in
  rc ← _compile_terms critical; let st := wrap rc (str "hl-critical") st in
  rm ← _compile_terms medium; let st := wrap rm (str "hl-medium") st in
  rl ← _compile_terms low; let st := wrap rl (str "hl-low") st in
  rg ← _compile_terms good; let st := wrap rg (str "hl-good") st in
  Some (fold_left (fun html '(ph, markup) => py_replace ph markup html) st.2 st.1).

Definition _ats_level (score : Z) : pystr :=
  if (80 <=? score)%Z then str "ats-great"
  else if (60 <=? score)%Z then str "ats-good"
  else if (40 <=? score)%Z then str "ats-fair"
  else str "ats-poor".

(** ** Scores.  Python's floats are taken as exact rationals. *)

Definition Qnat (n : nat) : Q := inject_Z (Z.of_nat n).

(** [int(x)] on a float: truncation towards zero. *)
Definition py_int (x : Q) : Z :=
  if Qle_bool 0 x then Qfloor x else Qceiling x.

(** [round(x)] on a float: the nearest integer, a tie going to the even one. *)
Definition py_round (x : Q) : Z :=
  let f := Qfloor x in
  match (x - inject_Z f ?= 1 # 2)%Q with
  | Lt => f
  | Gt => (f + 1)%Z
  | Eq => if Z.even f then f else (f + 1)%Z
  end.

(** The keys of the analysis that the scores read; [None] is an absent key. *)
Record analysis : Type := Analysis {
  jd_required_keywords : option (list pystr);
  jd_optional_keywords : option (list pystr);
  technical_skills : option (list pystr);
  soft_skills : option (list pystr);
  weak_language_phrases : option (list pystr);
  low_context_phrases : option (list pystr)
}.

(** The score that [compute_metrics] stores, and its three coverage ratios
    (its variables [req_coverage], [opt_coverage] and [tech_coverage]). *)
Record metrics : Type := Metrics {
  ats_score : Z;
  req_coverage : Q;
  opt_coverage : Q;
  tech_coverage : Q
}.

(** The arithmetic of [compute_metrics] from the eight sets and the two
    phrase lists. *)
Definition weighted_metrics (pr mr po mo pt mt ps ms : gset pystr)
    (weak low : list pystr) : metrics :=
  let req_total := max 1 (size pr + size mr) in
  let opt_total := max 1 (size po + size mo) in
  let tech_total := max 1 (size pt + size mt) in
  let req_coverage := (Qnat (size pr) / Qnat req_total)%Q in
  let opt_coverage := (Qnat (size po) / Qnat opt_total)%Q in
  let tech_coverage := (Qnat (size pt) / Qnat tech_total)%Q in
  let base_score :=
    (100 * (0.50 * req_coverage
            + 0.25 * opt_coverage
            + 0.20 * tech_coverage
            + 0.05 * Qmin 1 (Qnat (size ps) / Qnat (max 1 (size ps + size ms)))))%Q in
  let critical_penalty := size mr * 8 in
  let weak_language_penalty := length weak * 3 in
  let low_context_penalty := length low * 2 in
  let total_penalty := critical_penalty + weak_language_penalty + low_context_penalty in
  let total_penalty := Qmin (Qnat total_penalty) (base_score * 0.7)%Q in
  let ats_score := Z.max 0 (Z.min 100 (py_int (base_score - total_penalty)%Q)) in
  Metrics ats_score req_coverage opt_coverage tech_coverage.

(** [compute_metrics], on the path where [test_models] is not importable:
    the keywords are those of the analysis.  [role_syns] is the result of
    [get_role_synonyms]. *)
Definition compute_metrics (resume_text : pystr) (a : analysis)
    (role_syns : gmap pystr (list pystr)) : option metrics :=
  r ← present_missing_with_surface resume_text
         (default [] (jd_required_keywords a)) (Some role_syns);
  o ← present_missing_with_surface resume_text
         (default [] (jd_optional_keywords a)) (Some role_syns);
  t ← present_missing_with_surface resume_text
         (default [] (technical_skills a)) (Some role_syns);
  s ← present_missing_with_surface resume_text
         (default [] (soft_skills a)) (Some role_syns);
  Some (weighted_metrics (present r) (missing r) (present o) (missing o)
          (present t) (missing t) (present s) (missing s)
          (default [] (weak_language_phrases a))
          (default [] (low_context_phrases a))).

(** [occurs_any] of [process_jd_route]: the phrases, trimmed and in lower
    case, that occur in the resume text of the session. *)
Definition occurs_step (resume_text : pystr) (matched : gset pystr) (p : pystr)
    : option (gset pystr) :=
  let p2 := py_strip p in
  if truthy p2 then
    pat ← re_compile true (re_escape p2);
    match re_search pat resume_text with
    | Some _ => Some ({[ py_lower p2 ]} ∪ matched)
    | None => Some matched
    end
  else Some matched.

Fixpoint occurs_loop (resume_text : pystr) (phrases : list pystr)
    (matched : gset pystr) : option (gset pystr) :=
  match phrases with
  | [] => Some matched
  | p :: rest => m ← occurs_step resume_text matched p;
                 occurs_loop resume_text rest m
  end.

Definition occurs_any (resume_text : pystr) (phrases : option (list pystr))
    : option (gset pystr) :=
  occurs_loop resume_text (default [] phrases) ∅.

(** The arithmetic of the score of [process_jd_route]. *)
Definition simple_score (pr mr po mo : gset pystr)
    (critical_count improvements_count low_count : nat) : Z :=
  let req_total := max 1 (size pr + size mr) in
  let opt_total := max 1 (size po + size mo) in
  let req_coverage := (Qnat (size pr) / Qnat req_total)%Q in
  let opt_coverage := (Qnat (size po) / Qnat opt_total)%Q in
  let base := (100 * (0.65 * req_coverage + 0.25 * opt_coverage))%Q in
  let penalty := (5 * Z.of_nat critical_count
                  + 2 * Z.max 0 (Z.of_nat improvements_count - 3)
                  + 1 * Z.of_nat low_count)%Z in
  Z.max 0 (Z.min 100 (py_round (base - inject_Z penalty)%Q)).


(** What [process_jd_route] stores: the two highlighted texts, the lists
    and counts that it adds to the analysis, the score and its level. *)
Record jd_report : Type := JdReport {
  jd_hl : pystr;
  resume_hl : pystr;
  present_required : list pystr;
  missing_required : list pystr;
  present_optional : list pystr;
  missing_optional : list pystr;
  present_technical : list pystr;
  missing_technical : list pystr;
  present_soft : list pystr;
  missing_soft : list pystr;
  keywords_found_all : list pystr;
  missing_skills_all : list pystr;
  critical_missing_required : list pystr;
  non_critical_missing_required : list pystr;
  critical_issues : nat;
  improvements : nat;
  missing_skills : nat;
  keywords_found : nat;
  jd_ats_score : Z;
  ats_level : pystr
}.

(** [list(d.values())]; the order is that of the dictionary, which
    [_compile_terms] forgets. *)
Definition values (d : gmap pystr pystr) : list pystr := (map_to_list d).*2.

(** [process_jd_route] from the analysis on, for a resume text in the
    session and a job description that is not empty. *)
Definition process_jd_report (resume_text jd_text : pystr) (a : analysis)
    : option jd_report :=
  r ← present_missing_with_surface resume_text
         (default [] (jd_required_keywords a)) None;
  o ← present_missing_with_surface resume_text
         (default [] (jd_optional_keywords a)) None;
  t ← present_missing_with_surface resume_text
         (default [] (technical_skills a)) None;
  s ← present_missing_with_surface resume_text
         (default [] (soft_skills a)) None;
  jd_hl ← _highlight jd_text
            (Some (py_sorted (elements (present r ∪ present o))))
            (Some (py_sorted (elements (missing r))))
            None
            (Some (py_sorted (elements (missing o))));
  let resume_good_terms :=
    values (surfaces r) ++ values (surfaces o)
    ++ values (surfaces t) ++ values (surfaces s) in
  resume_hl ← _highlight resume_text
                (Some resume_good_terms)
                None
                (Some (map py_lower (default [] (weak_language_phrases a))))
                (Some (map py_lower (default [] (low_context_phrases a))));
  let keywords_found_all := py_sorted (elements (present r ∪ present o)) in
  let missing_skills_all := py_sorted (elements (missing r ∪ missing o)) in
  weak_matched ← occurs_any resume_text (weak_language_phrases a);
  low_matched ← occurs_any resume_text (low_context_phrases a);
  let improvements_count := size weak_matched in
  let missing_skills_count := length missing_skills_all in
  let keywords_found_count := length keywords_found_all in
  let PRIORITY := get_priority_skills in
  let critical_missing :=
    filter (fun k => k ∈ PRIORITY) (elements (missing r)) in
  let critical_count := length critical_missing in
  let ats_score := simple_score (present r) (missing r) (present o) (missing o)
                     critical_count improvements_count (size low_matched) in
  Some (JdReport jd_hl resume_hl
          (py_sorted (elements (present r))) (py_sorted (elements (missing r)))
          (py_sorted (elements (present o))) (py_sorted (elements (missing o)))
          (py_sorted (elements (present t))) (py_sorted (elements (missing t)))
          (py_sorted (elements (present s))) (py_sorted (elements (missing s)))
          keywords_found_all missing_skills_all
          (py_sorted (elements (missing r ∩ PRIORITY)))
          (py_sorted (elements (missing r ∖ PRIORITY)))
          critical_count improvements_count missing_skills_count
          keywords_found_count ats_score (_ats_level ats_score)).

End App.
Export App.

(** * src/processing/resume_processor.py *)

Module ResumeProcessor.

Definition TAB : ascii := ascii_of_N 9.
Definition LF : ascii := ascii_of_N 10.
Definition CR : ascii := ascii_of_N 13.
Definition NBSP : ascii := ascii_of_N 160.

(** [re.sub(pattern, new, text)] with a replacement text. *)
Definition re_sub_text (p : pattern) (new text : pystr) : pystr :=
  (re_sub p (fun _ (st : unit) => (new, st)) text tt).1.

(** The two patterns of [normalize_display]: [[ \t]+], and [\n{3,}], which
    is three line feeds and then any number of them. *)
Definition blanks_run : pattern := Pattern false [Plus [CLit " "; CLit TAB]].

Definition line_feeds_run : pattern :=
  Pattern false [Chr [CLit LF]; Chr [CLit LF]; Chr [CLit LF]; Star [CLit LF]].

Definition normalize_display (text : pystr) : pystr :=
  let text := py_replace [CR] [LF] (py_replace [CR; LF] [LF] text) in
  let text := py_replace [NBSP] (str " ") text in
  let text := re_sub_text blanks_run (str " ") text in
  let text := re_sub_text line_feeds_run [LF; LF] text in
  py_strip text.

End ResumeProcessor.
Export ResumeProcessor.

(** * src/analysis/gemini_analysis.py *)

Module GeminiAnalysis.

(** The keys of [DEFAULT] that the scores read. *)
Definition DEFAULT : analysis :=
  Analysis (Some []) (Some []) (Some []) (Some []) (Some []) (Some []).

(** The loop over the keyword lists: trimmed, in lower case, without the
    blank entries and the duplicates, sorted. *)
Definition normalize_keywords (arr : list pystr) : list pystr :=
  py_sorted
    (elements
       (list_to_set
          (map (fun x => py_lower (py_strip x))
             (filter (fun x => truthy (py_strip x)) arr)) : gset pystr)).

(** The loop over the phrase lists: trimmed, the letter case kept, without
    the blank entries and the duplicates. *)
Definition normalize_phrases (arr : list pystr) : list pystr :=
  fromkeys (map py_strip (filter (fun x => truthy (py_strip x)) arr)) ∅.

(** [analyze_with_gemini], from the object [data] that is read from the
    answer of the model on; [None] is the case where no model is available.
    The entries of the lists are strings. *)
Definition analyze_with_gemini (data : option analysis) : analysis :=
  match data with
  | None => DEFAULT
  | Some data =>
      let get (key : analysis -> option (list pystr)) : list pystr :=
        default (default [] (key DEFAULT)) (key data) in
      Analysis (Some (normalize_keywords (get jd_required_keywords)))
               (Some (normalize_keywords (get jd_optional_keywords)))
               (Some (normalize_keywords (get technical_skills)))
               (Some (normalize_keywords (get soft_skills)))
               (Some (normalize_phrases (get weak_language_phrases)))
               (Some (normalize_phrases (get low_context_phrases)))
  end.

End GeminiAnalysis.
Export GeminiAnalysis.

(** * The statements of the specification

    What the specification says in its own words: the two formulas on the
    counts, the phrases that occur in a text, and the variants of a term
    with their occurrences. *)

Definition clamp (z : Z) : Z := Z.max 0 (Z.min 100 z).

(** The weighted score before rounding. *)
Definition weighted_formula (rp rm op om tp tm sp sm w l : nat) : Q :=
  let required := (Qnat rp / Qnat (max 1 (rp + rm)))%Q in
  let optional := (Qnat op / Qnat (max 1 (op + om)))%Q in
  let technical := (Qnat tp / Qnat (max 1 (tp + tm)))%Q in
  let soft := Qmin 1 (Qnat sp / Qnat (max 1 (sp + sm)))%Q in
  let base := (100 * (0.50 * required + 0.25 * optional + 0.20 * technical
                      + 0.05 * soft))%Q in
  (base - Qmin (0.7 * base) (Qnat (8 * rm + 3 * w + 2 * l)))%Q.

(** The simplified score before rounding. *)
Definition simple_formula (rp rm op om c w l : nat) : Q :=
  let required := (Qnat rp / Qnat (max 1 (rp + rm)))%Q in
  let optional := (Qnat op / Qnat (max 1 (op + om)))%Q in
  (100 * (0.65 * required + 0.25 * optional)
   - inject_Z (5 * Z.of_nat c + 2 * Z.max 0 (Z.of_nat w - 3) + Z.of_nat l))%Q.

(** What escaping makes of one character. *)
Definition escape_char (c : ascii) : pystr :=
  if Ascii.eqb c "&" then str "&amp;"
  else if Ascii.eqb c "<" then str "&lt;"
  else if Ascii.eqb c ">" then str "&gt;"
  else [c].

(** Escaped text: no angle bracket, and each ampersand starts one of the
    three entities. *)
Fixpoint escaped (s : pystr) : bool :=
  match s with
  | [] => true
  | c :: s' =>
      negb (one_of (str "<>") c)
      && (if Ascii.eqb c "&"
          then startswith (str "amp;") s' || startswith (str "lt;") s'
               || startswith (str "gt;") s'
          else true)
      && escaped s'
  end.

(** The text outside the spans: what is left when each span, from its
    opening tag to its closing tag, is taken out. *)
Fixpoint outside_from (s : pystr) (inside : bool) (skip : nat) : pystr :=
  match s with
  | [] => []
  | c :: s' =>
      match skip with
      | S k => outside_from s' inside k
      | O =>
          if inside then
            if startswith (str "</span>") s then outside_from s' false 6
            else outside_from s' true 0
          else if startswith (str "<span ") s then outside_from s' true 0
          else c :: outside_from s' false 0
      end
  end.

Definition outside_spans (s : pystr) : pystr := outside_from s false 0.

(** The text starts with the phrase, letter case apart. *)
Fixpoint ci_prefix (p s : pystr) : bool :=
  match p, s with
  | [], _ => true
  | c :: p', d :: s' => Ascii.eqb (lower_char c) (lower_char d) && ci_prefix p' s'
  | _ :: _, [] => false
  end.

(** The phrase occurs in the text, letter case apart. *)
Fixpoint ci_contains (p s : pystr) : bool :=
  ci_prefix p s ||
  match s with
  | [] => false
  | _ :: s' => ci_contains p s'
  end.

(** The phrases of a list that occur in the text, trimmed and in lower
    case; blank phrases left out. *)
Definition matched_phrases (text : pystr) (phrases : list pystr) : gset pystr :=
  list_to_set
    (map (fun p => py_lower (py_strip p))
       (filter (fun p => py_strip p <> [] /\ ci_contains (py_strip p) text = true)
          phrases)).

(** ** The variants of a term *)

(** A variant is the term or one of its synonyms as written, or the tokens
    of one of these joined by any run of separators, or joined by blanks. *)
Inductive variant : Type :=
| Literal (s : pystr)
| Flexible (tokens : list pystr)
| Spaced (tokens : list pystr).

Definition declared_variants (t : pystr) : list variant :=
  let bases := t :: default [] (SYNONYMS !! t) in
  map Literal bases
  ++ flat_map (fun b => if has_sep b
                        then [Flexible (split_seps b); Spaced (split_seps b)]
                        else []) bases.

(** Equal, letter case apart. *)
Definition same_letters (a b : pystr) : Prop := py_lower a = py_lower b.

(** The tokens, each up to letter case, with a run that satisfies [gap]
    between two neighbours. *)
Fixpoint joined (gap : pystr -> Prop) (tokens : list pystr) (m : pystr) : Prop :=
  match tokens with
  | [] => m = []
  | tok :: rest =>
      match rest with
      | [] => same_letters tok m
      | _ => exists a run b, m = a ++ run ++ b
               /\ same_letters tok a /\ gap run /\ joined gap rest b
      end
  end.

Definition separators (run : pystr) : Prop :=
  Forall (fun c => is_sep c = true) run.

Definition blanks (run : pystr) : Prop :=
  run <> [] /\ Forall (fun c => is_space c = true) run.

(** [m] is a surface form of the variant. *)
Definition surface_of (v : variant) (m : pystr) : Prop :=
  match v with
  | Literal s => same_letters s m
  | Flexible tokens => joined separators tokens m
  | Spaced tokens => joined blanks tokens m
  end.

(** An occurrence of the variant in the text: a surface form of it that has
    no word character just before it and none just after it. *)
Definition occurs_at (v : variant) (text pre m post : pystr) : Prop :=
  text = pre ++ m ++ post /\ surface_of v m
  /\ word_opt (last pre) = false /\ word_opt (head post) = false.

Definition occurs (v : variant) (text : pystr) : Prop :=
  exists pre m post, occurs_at v text pre m post.

(** The surface that is recorded: an occurrence of the first variant that
    occurs at all, and of its occurrences one that starts leftmost. *)
Definition first_surface (t text s : pystr) : Prop :=
  exists before v after pre post,
    declared_variants t = before ++ v :: after
    /\ (forall v', v' ∈ before -> ~ occurs v' text)
    /\ occurs_at v text pre s post
    /\ (forall pre' m' post', occurs_at v text pre' m' post' ->
          length pre <= length pre').

(** A term that has a character other than a separator and that the code
    does not take for a ready pattern. *)
Definition plain_term (t : pystr) : bool :=
  negb (looks_like_pattern t) && existsb (fun c => negb (is_sep c)) t.

(** * Definitions for the proofs *)

(** ** The loop over the terms *)

(** What one term does to the three results: nothing, an entry in the
    present set with its surface, or an entry in the missing set. *)
Inductive outcome : Type :=
| Skipped
| Found (t surface : pystr)
| NotFound (t : pystr).

Definition term_outcome (text raw : pystr) : option outcome :=
  let t := canonical raw in
  if truthy t then
    patterns ← compile_patterns_for_term t;
    let surface := any_match_with_surface text patterns in
    Some (if truthy surface then Found t surface else NotFound t)
  else Some Skipped.

Definition record_outcome (st : presence) (o : outcome) : presence :=
  match o with
  | Skipped => st
  | Found t surface =>
      Presence ({[ t ]} ∪ present st) (missing st) (<[ t := surface ]> (surfaces st))
  | NotFound t => Presence (present st) ({[ t ]} ∪ missing st) (surfaces st)
  end.


(** ** The language of a pattern *)

(** The character before the position reached after [m]. *)
Definition prev_after (prev : option ascii) (m : pystr) : option ascii :=
  fold_left (fun _ c => Some c) m prev.

(** Items without look-around. *)
Definition pure (it : item) : bool :=
  match it with
  | NotBehindWord | NotAheadWord => false
  | _ => true
  end.

(** The language of a sequence of items without look-around. *)
Fixpoint lang (ic : bool) (its : list item) (m : pystr) : Prop :=
  match its with
  | [] => m = []
  | Chr cs :: k =>
      exists c m', m = c :: m' /\ cs_match ic cs c = true /\ lang ic k m'
  | Star cs :: k =>
      exists run m', m = run ++ m'
        /\ Forall (fun c => cs_match ic cs c = true) run /\ lang ic k m'
  | Plus cs :: k =>
      exists run m', m = run ++ m' /\ run <> []
        /\ Forall (fun c => cs_match ic cs c = true) run /\ lang ic k m'
  | Alt alts :: k =>
      exists a run m', a ∈ alts /\ m = run ++ m'
        /\ Forall2 (fun cs c => cs_match ic cs c = true) a run /\ lang ic k m'
  | NotBehindWord :: _ | NotAheadWord :: _ => False
  end.

(** ** Pattern texts and the items that they compile to *)

(** The item of a literal character, and of a literal text. *)
Definition lit (c : ascii) : item := Chr [CLit c].
Definition lits (s : pystr) : list item := map lit s.

Definition escaped_char (c : ascii) : pystr :=
  if escape_special c then [backslash; c] else [c].

(** A text that does not start with a quantifier. *)
Definition no_quant (rest : pystr) : bool :=
  match rest with
  | q :: _ => negb (one_of (str "*+?{") q)
  | [] => true
  end.

(** Pieces with a separator item between them. *)
Fixpoint joined_items (sep : item) (tokens : list pystr) : list item :=
  match tokens with
  | [] => []
  | tok :: rest =>
      match rest with
      | [] => lits tok
      | _ => lits tok ++ sep :: joined_items sep rest
      end
  end.

Definition sep_set : charset := [CSpace; CLit "-"; CLit "/"; CLit "_"; CLit "."].

(** The text that [term_variants] holds for a variant, and the pattern that
    [compile_patterns_for_term] builds from it. *)
Definition text_of (v : variant) : pystr :=
  match v with
  | Literal s => s
  | Flexible tokens => py_join SEP (map re_escape tokens)
  | Spaced tokens => py_join (str "\s+") (map re_escape tokens)
  end.

Definition core_of (v : variant) : list item :=
  match v with
  | Literal s => lits s
  | Flexible tokens => joined_items (Star sep_set) tokens
  | Spaced tokens => joined_items (Plus [CSpace]) tokens
  end.

Definition pattern_of (v : variant) : pattern :=
  Pattern true (NotBehindWord :: core_of v ++ [NotAheadWord]).

(** The pattern that is compiled for a variant text; the empty pattern
    stands for a text that does not compile. *)
Definition pattern_for (s : pystr) : pattern :=
  default (Pattern true []) (re_compile false (pattern_text s)).

(** The alternative that a literal term makes in a group, and a group under
    construction with a literal put in front of it. *)
Definition chars (t : pystr) : list charset := map (fun c => [CLit c]) t.

Definition prepend (t : pystr) (alts : list (list charset)) : list (list charset) :=
  match alts with
  | a :: rest => (chars t ++ a) :: rest
  | [] => [chars t]
  end.

(** Longest first. *)
Definition longest_first (l : list pystr) : Prop :=
  StronglySorted (fun x y => length y <= length x) l.

(** ** The results of the loop *)

(** A state of the loop whose entries are what [term_outcome] tells of
    them: the present terms are those with a surface, which is the surface
    found for the term, and a missing term is one that is not found. *)
Definition classified (text : pystr) (st : presence) : Prop :=
  forall k,
    (k ∈ present st <-> is_Some (surfaces st !! k))
    /\ (forall s, surfaces st !! k = Some s -> term_outcome text k = Some (Found k s))
    /\ (k ∈ missing st -> term_outcome text k = Some (NotFound k)).

(** The results of a second loop added to those of a first one. *)
Definition merge (st r : presence) : presence :=
  Presence (present st ∪ present r) (missing st ∪ missing r)
    (surfaces r ∪ surfaces st).

(** The results with the surfaces in lower case. *)
Definition lower_surfaces (r : presence) : presence :=
  Presence (present r) (missing r) (py_lower <$> surfaces r).

(** ** The passes of [normalize_display] *)

Definition blank (c : ascii) : bool := Ascii.eqb c " " || Ascii.eqb c TAB.

Definition line_feed (c : ascii) : bool := Ascii.eqb c LF.


(** The length of the run of characters of a class at the head of a text. *)
Fixpoint run (p : ascii -> bool) (s : pystr) : nat :=
  match s with
  | c :: s' => if p c then S (run p s') else 0
  | [] => 0
  end.

(** One blank for each run of blanks and tabs; [in_run] tells that the
    blank of the current run is written. *)
Fixpoint squeeze (s : pystr) (in_run : bool) : pystr :=
  match s with
  | [] => []
  | c :: s' =>
      if blank c then if in_run then squeeze s' true else " "%char :: squeeze s' true
      else c :: squeeze s' false
  end.

(** At most two line feeds of each run; [seen] counts the line feeds of
    the current run that are passed. *)
Fixpoint limit (s : pystr) (seen : nat) : pystr :=
  match s with
  | [] => []
  | c :: s' =>
      if line_feed c
      then if (seen <? 2)%nat then c :: limit s' (S seen) else limit s' (S seen)
      else c :: limit s' 0
  end.

(** No two blanks in a row; [after_blank] tells that a blank comes just
    before the text. *)
Fixpoint single_blanks (s : pystr) (after_blank : bool) : bool :=
  match s with
  | [] => true
  | c :: s' =>
      if Ascii.eqb c " " then negb after_blank && single_blanks s' true
      else single_blanks s' false
  end.

(** No three line feeds in a row; [seen] line feeds come just before the
    text. *)
Fixpoint short_runs (s : pystr) (seen : nat) : bool :=
  match s with
  | [] => true
  | c :: s' =>
      if line_feed c then (seen <? 2)%nat && short_runs s' (S seen)
      else short_runs s' 0
  end.

(** * Strings *)

(** A fact about a character is checked on each of the 256 characters. *)
Ltac each_char c :=
  destruct c as [[] [] [] [] [] [] [] []]; vm_compute;
  try reflexivity; try discriminate; intros; try discriminate; auto.

Lemma lower_char_idem c : lower_char (lower_char c) = lower_char c.
Proof. each_char c. Qed.

Lemma is_space_lower c : is_space (lower_char c) = is_space c.
Proof. each_char c. Qed.

Lemma is_word_lower c : is_word (lower_char c) = is_word c.
Proof. each_char c. Qed.

Lemma is_sep_lower c : is_sep (lower_char c) = is_sep c.
Proof. each_char c. Qed.

Lemma py_lower_idem s : py_lower (py_lower s) = py_lower s.
Proof.
  unfold py_lower. rewrite map_map. apply map_ext. intros; apply lower_char_idem.
Qed.

Lemma lstrip_lower s : lstrip (py_lower s) = py_lower (lstrip s).
Proof.
  induction s as [|c s IH]; [reflexivity|]. cbn.
  rewrite is_space_lower. destruct (is_space c); [exact IH | reflexivity].
Qed.

Lemma rstrip_lower s : rstrip (py_lower s) = py_lower (rstrip s).
Proof.
  unfold rstrip, py_lower. rewrite <- map_rev.
  fold (py_lower (rev s)). rewrite lstrip_lower. unfold py_lower. by rewrite map_rev.
Qed.

Lemma py_strip_lower s : py_strip (py_lower s) = py_lower (py_strip s).
Proof. unfold py_strip. by rewrite lstrip_lower, rstrip_lower. Qed.

Lemma lstrip_head s : forall c, head (lstrip s) = Some c -> is_space c = false.
Proof.
  induction s as [|d s IH]; intros c; cbn; [done|].
  destruct (is_space d) eqn:E; [apply IH|]. cbn. congruence.
Qed.

Lemma lstrip_fix s : (forall c, head s = Some c -> is_space c = false) -> lstrip s = s.
Proof.
  destruct s as [|d s]; [done|]. intros H. cbn. by rewrite (H d).
Qed.

Lemma lstrip_idem s : lstrip (lstrip s) = lstrip s.
Proof. apply lstrip_fix, lstrip_head. Qed.

Lemma rstrip_idem s : rstrip (rstrip s) = rstrip s.
Proof. unfold rstrip. by rewrite rev_involutive, lstrip_idem. Qed.

Lemma lstrip_app_nonspace s c t : is_space c = false -> exists u, lstrip (s ++ c :: t) = u ++ c :: t /\ forall c', head (u ++ [c]) = Some c' -> is_space c' = false.
Proof.
  intros Hc. induction s as [|d s IH]; cbn.
  - rewrite Hc. exists []. split; [done|]. cbn. congruence.
  - destruct (is_space d) eqn:E; [exact IH|].
    exists (d :: s). split; [done|]. cbn. congruence.
Qed.

(** Trimming on the right leaves the first character, when it is not a blank. *)
Lemma rstrip_head s : (forall c, head s = Some c -> is_space c = false) ->
  forall c, head (rstrip s) = Some c -> is_space c = false.
Proof.
  intros H c. destruct s as [|d s]; [done|].
  specialize (H d eq_refl). unfold rstrip. cbn [rev].
  destruct (lstrip_app_nonspace (rev s) d [] H) as (u & -> & _).
  rewrite rev_app_distr. cbn. congruence.
Qed.

Lemma py_strip_idem s : py_strip (py_strip s) = py_strip s.
Proof.
  unfold py_strip. rewrite (lstrip_fix (rstrip (lstrip s))).
  - apply rstrip_idem.
  - apply rstrip_head, lstrip_head.
Qed.

Lemma canonical_idem s : canonical (canonical s) = canonical s.
Proof.
  unfold canonical. by rewrite py_strip_lower, py_strip_idem, py_lower_idem.
Qed.

Lemma truthy_nil (s : pystr) : truthy s = false <-> s = [].
Proof. destruct s; cbn; split; congruence. Qed.

(** * Rounding *)

Lemma clamp_range z : (0 <= clamp z <= 100)%Z.
Proof. unfold clamp. lia. Qed.

Lemma py_int_proper x y : (x == y)%Q -> py_int x = py_int y.
Proof.
  intros H. unfold py_int.
  rewrite (Qfloor_comp _ _ H), (Qceiling_comp _ _ H).
  destruct (Qle_bool 0 x) eqn:Hx, (Qle_bool 0 y) eqn:Hy; try reflexivity.
  - apply Qle_bool_iff in Hx. rewrite H in Hx. apply Qle_bool_iff in Hx. congruence.
  - apply Qle_bool_iff in Hy. rewrite <- H in Hy. apply Qle_bool_iff in Hy. congruence.
Qed.

Lemma py_round_proper x y : (x == y)%Q -> py_round x = py_round y.
Proof.
  intros H. unfold py_round.
  rewrite (Qfloor_comp _ _ H).
  assert (E : (x - inject_Z (Qfloor y) ?= 1 # 2)%Q
              = (y - inject_Z (Qfloor y) ?= 1 # 2)%Q).
  { apply Qcompare_comp; [rewrite H|]; reflexivity. }
  rewrite E. reflexivity.
Qed.

Lemma py_round_integer z : py_round (inject_Z z) = z.
Proof.
  unfold py_round. rewrite Qfloor_Z.
  assert (E : (inject_Z z - inject_Z z ?= 1 # 2)%Q = Lt).
  { apply Qlt_alt. unfold Qminus. rewrite Qplus_opp_r. reflexivity. }
  by rewrite E.
Qed.

Lemma Qnat_nonneg n : (0 <= Qnat n)%Q.
Proof. unfold Qnat. change 0%Q with (inject_Z 0). rewrite <- Zle_Qle. lia. Qed.

(** The arithmetic of [compute_metrics] and the weighted formula. *)
Lemma weighted_score_eq (pr mr po mo pt mt ps ms : gset pystr) (weak low : list pystr) :
  ats_score (weighted_metrics pr mr po mo pt mt ps ms weak low)
  = clamp (py_int (weighted_formula (size pr) (size mr) (size po) (size mo)
                     (size pt) (size mt) (size ps) (size ms)
                     (length weak) (length low))).
Proof.
  unfold weighted_metrics, weighted_formula, clamp. cbn [ats_score].
  do 2 f_equal. apply py_int_proper.
  apply Qplus_comp; [reflexivity|]. apply Qopp_comp.
  rewrite Q.min_comm.
  apply Q.min_compat.
  - apply Qmult_comm.
  - unfold Qnat. apply inject_Z_injective. lia.
Qed.



(** * The loop over the terms *)

Lemma pmws_step_outcome text st raw :
  pmws_step text st raw = record_outcome st <$> term_outcome text raw.
Proof.
  unfold pmws_step, term_outcome.
  destruct (truthy (canonical raw)); [|by destruct st].
  destruct (compile_patterns_for_term (canonical raw)) as [ps|]; [|done]. cbn.
  by destruct (truthy (any_match_with_surface text ps)).
Qed.

Lemma term_outcome_canonical text raw o :
  term_outcome text raw = Some o ->
  match o with
  | Skipped => canonical raw = []
  | Found t s => t = canonical raw /\ t <> [] /\ s <> []
  | NotFound t => t = canonical raw /\ t <> []
  end.
Proof.
  unfold term_outcome. destruct (truthy (canonical raw)) eqn:E.
  - assert (canonical raw <> []) by (intros E'; rewrite E' in E; discriminate).
    destruct (compile_patterns_for_term _) as [ps|]; [|done]. cbn.
    destruct (truthy (any_match_with_surface text ps)) eqn:E2; intros [= <-]; [|done].
    split; [done|split; [done|]]. intros E'. rewrite E' in E2. discriminate.
  - intros [= <-]. by apply truthy_nil.
Qed.





(** Two terms can be handled in either order. *)
Lemma record_outcome_comm text r1 r2 o1 o2 st :
  term_outcome text r1 = Some o1 -> term_outcome text r2 = Some o2 ->
  record_outcome (record_outcome st o1) o2 = record_outcome (record_outcome st o2) o1.
Proof.
  intros H1 H2.
  assert (Hsame : canonical r1 = canonical r2 -> o1 = o2).
  { intros E. unfold term_outcome in H1, H2. rewrite E in H1. congruence. }
  pose proof (term_outcome_canonical _ _ _ H1) as C1.
  pose proof (term_outcome_canonical _ _ _ H2) as C2.
  destruct o1 as [|t1 s1|t1], o2 as [|t2 s2|t2]; cbn; try done.
  - destruct C1 as (-> & _), C2 as (-> & _).
    destruct (decide (canonical r1 = canonical r2)) as [E|NE].
    + injection (Hsame E) as _ ->. by rewrite E.
    + f_equal; [set_solver|]. by apply insert_insert_ne.
  - f_equal. set_solver.
Qed.

Lemma pmws_step_comm text st r1 r2 :
  (st1 ← pmws_step text st r1; pmws_step text st1 r2)
  = (st2 ← pmws_step text st r2; pmws_step text st2 r1).
Proof.
  rewrite !pmws_step_outcome.
  destruct (term_outcome text r1) as [o1|] eqn:H1,
           (term_outcome text r2) as [o2|] eqn:H2; cbn;
    rewrite ?pmws_step_outcome, ?H1, ?H2; cbn; try done.
  f_equal. eapply record_outcome_comm; eauto.
Qed.

Lemma pmws_loop_perm text terms1 terms2 :
  terms1 ≡ₚ terms2 -> forall st, pmws_loop text terms1 st = pmws_loop text terms2 st.
Proof.
  induction 1 as [|r l1 l2 _ IH|r1 r2 l|l1 l2 l3 _ IH1 _ IH2]; intros st.
  - done.
  - cbn. destruct (pmws_step text st r); cbn; [apply IH|done].
  - cbn. pose proof (pmws_step_comm text st r2 r1) as E.
    destruct (pmws_step text st r2) as [sa|], (pmws_step text st r1) as [sb|];
      cbn in *; try done.
    + destruct (pmws_step text sa r1), (pmws_step text sb r2); cbn; congruence.
    + by destruct (pmws_step text sa r1).
    + by destruct (pmws_step text sb r2).
  - by rewrite IH1.
Qed.


(** * The matcher and the language of a pattern *)

Section Matcher.

Variable ic : bool.

Lemma prev_after_app prev a b :
  prev_after prev (a ++ b) = prev_after (prev_after prev a) b.
Proof. apply fold_left_app. Qed.

Lemma prev_after_last prev m : prev_after prev m = from_option Some prev (last m).
Proof.
  revert prev. induction m as [|c m IH]; intros prev; [done|].
  change (prev_after prev (c :: m)) with (prev_after (Some c) m).
  rewrite IH, last_cons. by destruct (last m).
Qed.

Lemma greedy_sound cs (k : cont) : forall s prev n,
  greedy ic cs k prev s = Some n ->
  exists run s' n', s = run ++ s'
    /\ Forall (fun c => cs_match ic cs c = true) run
    /\ k (prev_after prev run) s' = Some n' /\ n = length run + n'.
Proof.
  induction s as [|c s IH]; intros prev n; cbn.
  - intros H. exists [], [], n. by repeat split.
  - destruct (cs_match ic cs c) eqn:Ec.
    + destruct (greedy ic cs k (Some c) s) as [n1|] eqn:E.
      * intros [= <-]. destruct (IH _ _ E) as (run & s' & n' & -> & Hr & Hk & ->).
        exists (c :: run), s', n'. repeat split; [by constructor|done].
      * intros H. exists [], (c :: s), n. by repeat split.
    + intros H. exists [], (c :: s), n. by repeat split.
Qed.

Lemma greedy_complete cs (k : cont) run : forall prev s',
  Forall (fun c => cs_match ic cs c = true) run ->
  is_Some (k (prev_after prev run) s') ->
  is_Some (greedy ic cs k prev (run ++ s')).
Proof.
  induction run as [|c run IH]; intros prev s' Hr Hk.
  - cbn in *. destruct s' as [|c s']; cbn; [done|].
    destruct (cs_match ic cs c); [|done].
    by destruct (greedy ic cs k (Some c) s').
  - inversion Hr as [|? ? Hc Hr']; subst. cbn. rewrite Hc.
    destruct (IH (Some c) s' Hr' Hk) as [n ->]. done.
Qed.

Lemma match_chars_sound a (k : cont) : forall s prev n,
  match_chars ic a k prev s = Some n ->
  exists run s' n', s = run ++ s'
    /\ Forall2 (fun cs c => cs_match ic cs c = true) a run
    /\ k (prev_after prev run) s' = Some n' /\ n = length run + n'.
Proof.
  induction a as [|cs a IH]; intros s prev n; cbn.
  - intros H. exists [], s, n. by repeat split.
  - destruct s as [|c s]; [done|].
    destruct (cs_match ic cs c) eqn:Ec; [|done].
    destruct (match_chars ic a k (Some c) s) as [n1|] eqn:E; [|done].
    intros [= <-]. destruct (IH _ _ _ E) as (run & s' & n' & -> & Hr & Hk & ->).
    exists (c :: run), s', n'. repeat split; [by constructor|done].
Qed.

Lemma match_chars_complete a (k : cont) : forall run prev s',
  Forall2 (fun cs c => cs_match ic cs c = true) a run ->
  match_chars ic a k prev (run ++ s')
  = (fun n => length run + n) <$> k (prev_after prev run) s'.
Proof.
  induction a as [|cs a IH]; intros run prev s' H; inversion H; subst; cbn.
  - by destruct (k prev s').
  - rewrite H2, IH by done. by destruct (k _ s').
Qed.

Lemma first_alt_sound alts (k : cont) prev s n :
  first_alt ic alts k prev s = Some n ->
  exists a run s' n', a ∈ alts /\ s = run ++ s'
    /\ Forall2 (fun cs c => cs_match ic cs c = true) a run
    /\ k (prev_after prev run) s' = Some n' /\ n = length run + n'.
Proof.
  induction alts as [|a alts IH]; cbn; [done|].
  destruct (match_chars ic a k prev s) as [n1|] eqn:E.
  - intros [= <-]. destruct (match_chars_sound _ _ _ _ _ E) as (run & s' & n' & ?).
    exists a, run, s', n'. split; [left|done].
  - intros H. destruct (IH H) as (a' & run & s' & n' & ? & ?).
    exists a', run, s', n'. split; [by right|done].
Qed.

Lemma first_alt_complete alts (k : cont) a run prev s' :
  a ∈ alts ->
  Forall2 (fun cs c => cs_match ic cs c = true) a run ->
  is_Some (k (prev_after prev run) s') ->
  is_Some (first_alt ic alts k prev (run ++ s')).
Proof.
  intros Ha Hr Hk. induction alts as [|a' alts IH]; [by inversion Ha|]. cbn.
  destruct (match_chars ic a' k prev (run ++ s')) eqn:E; [done|].
  apply IH. inversion Ha; subst; [|done].
  rewrite (match_chars_complete _ _ _ _ _ Hr) in E.
  destruct Hk as [n Hn]. by rewrite Hn in E.
Qed.

(** A match of pure items followed by [tail] splits into a word of the
    language of the items and a match of [tail]. *)
Lemma match_items_sound core tail : forallb pure core = true ->
  forall prev s n,
  match_items ic (core ++ tail) prev s = Some n ->
  exists m s' n', s = m ++ s' /\ lang ic core m
    /\ match_items ic tail (prev_after prev m) s' = Some n' /\ n = length m + n'.
Proof.
  induction core as [|it core IH]; intros Hp prev s n.
  - cbn. intros H. exists [], s, n. by repeat split.
  - cbn in Hp. apply andb_true_iff in Hp as [Hit Hp]. specialize (IH Hp).
    destruct it as [cs|cs|cs| | |alts]; try discriminate; cbn [app match_items].
    + destruct s as [|c s]; [done|].
      destruct (cs_match ic cs c) eqn:Ec; [|done].
      destruct (match_items ic (core ++ tail) (Some c) s) as [n1|] eqn:E; [|done].
      intros [= <-]. destruct (IH _ _ _ E) as (m & s' & n' & -> & Hm & Hk & ->).
      exists (c :: m), s', n'. repeat split; [|done]. cbn. by exists c, m.
    + intros H. apply greedy_sound in H as (run & s1 & n1 & -> & Hr & Hk & ->).
      destruct (IH _ _ _ Hk) as (m & s' & n' & -> & Hm & Hk' & ->).
      exists (run ++ m), s', n'. rewrite prev_after_app, length_app.
      repeat split; [by rewrite List.app_assoc| |done|lia]. cbn. by exists run, m.
    + destruct s as [|c s]; [done|].
      destruct (cs_match ic cs c) eqn:Ec; [|done].
      destruct (greedy ic cs _ (Some c) s) as [n0|] eqn:E; [|done].
      intros [= <-]. apply greedy_sound in E as (run & s1 & n1 & -> & Hr & Hk & ->).
      destruct (IH _ _ _ Hk) as (m & s' & n' & -> & Hm & Hk' & ->).
      exists (c :: run ++ m), s', n'.
      change (prev_after prev (c :: run ++ m)) with (prev_after (Some c) (run ++ m)).
      rewrite prev_after_app. cbn [length]. rewrite length_app.
      repeat split; [cbn; by rewrite List.app_assoc| |done|lia].
      cbn. exists (c :: run), m. repeat split; [done|by constructor|done].
    + intros H. apply first_alt_sound in H
        as (a & run & s1 & n1 & Ha & -> & Hr & Hk & ->).
      destruct (IH _ _ _ Hk) as (m & s' & n' & -> & Hm & Hk' & ->).
      exists (run ++ m), s', n'. rewrite prev_after_app, length_app.
      repeat split; [by rewrite List.app_assoc| |done|lia]. cbn. by exists a, run, m.
Qed.

Lemma match_items_complete core tail : forallb pure core = true ->
  forall prev m s',
  lang ic core m ->
  is_Some (match_items ic tail (prev_after prev m) s') ->
  is_Some (match_items ic (core ++ tail) prev (m ++ s')).
Proof.
  induction core as [|it core IH]; intros Hp prev m s' Hm Hk.
  - cbn in Hm. subst. done.
  - cbn in Hp. apply andb_true_iff in Hp as [Hit Hp]. specialize (IH Hp).
    destruct it as [cs|cs|cs| | |alts]; try discriminate; cbn [app match_items].
    + destruct Hm as (c & m' & -> & Hc & Hm). cbn. rewrite Hc.
      destruct (IH (Some c) m' s' Hm Hk) as [n ->]. done.
    + destruct Hm as (run & m' & -> & Hr & Hm). rewrite <- List.app_assoc.
      apply greedy_complete; [done|]. apply IH; [done|]. by rewrite <- prev_after_app.
    + destruct Hm as (run & m' & -> & Hne & Hr & Hm).
      destruct run as [|c run]; [done|]. inversion Hr as [|? ? Hc Hr']; subst.
      cbn. rewrite Hc.
      assert (is_Some (greedy ic cs (match_items ic (core ++ tail)) (Some c)
                         (run ++ m' ++ s'))) as [n Hn].
      { apply greedy_complete; [done|]. apply IH; [done|].
        by rewrite <- prev_after_app. }
      rewrite <- List.app_assoc, Hn. done.
    + destruct Hm as (a & run & m' & Ha & -> & Hr & Hm). rewrite <- List.app_assoc.
      eapply first_alt_complete; [done..|]. apply IH; [done|].
      by rewrite <- prev_after_app.
Qed.

(** The search returns the leftmost position at which the items match. *)
Lemma search_from_sound its : forall s prev i j n,
  search_from ic its prev s i = Some (j, n) ->
  exists pre s', s = pre ++ s' /\ j = i + length pre
    /\ match_items ic its (prev_after prev pre) s' = Some n
    /\ forall pre' s'', s = pre' ++ s'' -> length pre' < length pre ->
         match_items ic its (prev_after prev pre') s'' = None.
Proof.
  induction s as [|c s IH]; intros prev i j n; cbn.
  - destruct (match_items ic its prev []) as [n0|] eqn:E; [|done].
    intros [= <- <-]. exists [], []. repeat split; [cbn; lia|done|].
    intros ? ? _ Hl. cbn in Hl. lia.
  - destruct (match_items ic its prev (c :: s)) as [n0|] eqn:E.
    + intros [= <- <-]. exists [], (c :: s). repeat split; [cbn; lia|done|].
      intros ? ? _ Hl. cbn in Hl. lia.
    + intros H. destruct (IH _ _ _ _ H) as (pre & s' & -> & -> & Hm & Hmin).
      exists (c :: pre), s'. repeat split; [cbn; lia|done|].
      intros pre' s'' Hs Hl. destruct pre' as [|c' pre'].
      * cbn in Hs. subst s''. exact E.
      * cbn in Hs. injection Hs as <- Hs. cbn. apply (Hmin _ _ Hs). cbn in Hl. lia.
Qed.

Lemma search_from_complete its pre : forall prev s' i,
  is_Some (match_items ic its (prev_after prev pre) s') ->
  is_Some (search_from ic its prev (pre ++ s') i).
Proof.
  induction pre as [|c pre IH]; intros prev s' i H.
  - cbn in H. destruct H as [n Hn]. destruct s'; cbn; rewrite Hn; done.
  - cbn. destruct (match_items ic its prev (c :: pre ++ s')); [done|].
    by apply IH.
Qed.

End Matcher.

(** * Reading the pattern texts *)

Section Parser.

Lemma re_escape_cons c v : re_escape (c :: v) = escaped_char c ++ re_escape v.
Proof. reflexivity. Qed.

Lemma parse_items_skip p rest :
  parse_items (length p) (p ++ rest) = parse_items 0 rest.
Proof. induction p as [|c p IH]; [done|]. exact IH. Qed.

Lemma parse_items_atom a rest it :
  a <> [] -> atom_at (a ++ rest) = Some (it, length a) ->
  parse_items 0 (a ++ rest) = (cons it) <$> parse_items 0 rest.
Proof.
  destruct a as [|c a]; [done|]. intros _ H.
  cbn [app parse_items]. cbn [app] in H. rewrite H. cbn [mbind option_bind length].
  replace (S (length a) - 1) with (length a) by lia.
  rewrite parse_items_skip. by destruct (parse_items 0 rest).
Qed.

Lemma quantified_plain cs n rest :
  no_quant rest = true -> quantified cs n rest = Some (Chr cs, n).
Proof.
  destruct rest as [|q rest]; [done|]. unfold quantified, no_quant.
  each_char q.
Qed.

Lemma escape_elt_special c :
  escape_special c = true -> escape_elt c = Some (CLit c).
Proof. each_char c. Qed.

Lemma plain_char c :
  escape_special c = false ->
  Ascii.eqb c backslash = false /\ Ascii.eqb c "[" = false
  /\ Ascii.eqb c "(" = false /\ meta c = false /\ one_of (str "*+?{") c = false.
Proof.
  each_char c.
Qed.

Lemma atom_at_escaped c rest :
  no_quant rest = true ->
  atom_at (escaped_char c ++ rest) = Some (lit c, length (escaped_char c)).
Proof.
  intros H. unfold escaped_char. destruct (escape_special c) eqn:E.
  - cbn [app]. unfold atom_at.
    replace (Ascii.eqb backslash backslash) with true by reflexivity.
    rewrite (escape_elt_special _ E). cbn [mbind option_bind].
    by rewrite quantified_plain.
  - destruct (plain_char _ E) as (E1 & E2 & E3 & E4 & _).
    cbn [app]. unfold atom_at. rewrite E1, E2, E3, E4.
    by rewrite quantified_plain.
Qed.

Lemma escaped_char_no_quant c rest : no_quant (escaped_char c ++ rest) = true.
Proof.
  unfold escaped_char. destruct (escape_special c) eqn:E; [done|].
  destruct (plain_char _ E) as (_ & _ & _ & _ & E5).
  cbn [app]. unfold no_quant. by rewrite E5.
Qed.

Lemma re_escape_no_quant v rest :
  no_quant rest = true -> no_quant (re_escape v ++ rest) = true.
Proof.
  destruct v as [|c v]; [done|]. intros _.
  rewrite re_escape_cons, <- List.app_assoc. apply escaped_char_no_quant.
Qed.

Lemma escaped_char_nonempty c : escaped_char c <> [].
Proof. unfold escaped_char. by destruct (escape_special c). Qed.

(** An escaped text is read back as the literal text. *)
Lemma parse_escaped v rest :
  no_quant rest = true ->
  parse_items 0 (re_escape v ++ rest) = (app (lits v)) <$> parse_items 0 rest.
Proof.
  intros H. induction v as [|c v IH].
  - cbn. by destruct (parse_items 0 rest).
  - rewrite re_escape_cons, <- List.app_assoc.
    rewrite (parse_items_atom _ _ (lit c)).
    + rewrite IH. by destruct (parse_items 0 rest).
    + apply escaped_char_nonempty.
    + apply atom_at_escaped. by apply re_escape_no_quant.
Qed.

Lemma atom_at_SEP rest : atom_at (SEP ++ rest) = Some (Star sep_set, length SEP).
Proof. reflexivity. Qed.

Lemma atom_at_spaces rest :
  atom_at (str "\s+" ++ rest) = Some (Plus [CSpace], length (str "\s+")).
Proof. reflexivity. Qed.

Lemma atom_at_not_behind rest :
  atom_at (str "(?<!\w)" ++ rest) = Some (NotBehindWord, length (str "(?<!\w)")).
Proof. reflexivity. Qed.

Lemma atom_at_not_ahead rest :
  atom_at (str "(?!\w)" ++ rest) = Some (NotAheadWord, length (str "(?!\w)")).
Proof. reflexivity. Qed.

(** Escaped pieces joined by the text of a separator item. *)
Lemma parse_joined sep_text sep tokens rest :
  sep_text <> [] -> no_quant sep_text = true ->
  (forall r, atom_at (sep_text ++ r) = Some (sep, length sep_text)) ->
  no_quant rest = true ->
  parse_items 0 (py_join sep_text (map re_escape tokens) ++ rest)
  = (app (joined_items sep tokens)) <$> parse_items 0 rest.
Proof.
  intros Hne Hq Hat Hrest.
  assert (Hq' : forall r, no_quant (sep_text ++ r) = true).
  { intros r. destruct sep_text; [done|exact Hq]. }
  induction tokens as [|tok tokens IH].
  - cbn. by destruct (parse_items 0 rest).
  - destruct tokens as [|tok' tokens].
    + cbn [map py_join joined_items]. by apply parse_escaped.
    + change (py_join sep_text (map re_escape (tok :: tok' :: tokens)))
        with (re_escape tok ++ sep_text
              ++ py_join sep_text (map re_escape (tok' :: tokens))).
      change (joined_items sep (tok :: tok' :: tokens))
        with (lits tok ++ sep :: joined_items sep (tok' :: tokens)).
      rewrite <- !List.app_assoc.
      rewrite parse_escaped by apply Hq'.
      rewrite (parse_items_atom _ _ sep) by auto.
      rewrite IH. destruct (parse_items 0 rest); cbn; [|done].
      by rewrite <- List.app_assoc.
Qed.

Lemma re_escape_starts v : startswith (str "(?i)") (re_escape v) = false.
Proof.
  destruct v as [|c v]; [done|]. rewrite re_escape_cons. unfold escaped_char.
  destruct (escape_special c) eqn:E; [done|].
  destruct (plain_char _ E) as (_ & _ & E3 & _).
  change (str "(?i)") with ("(" :: str "?i)"). cbn [app startswith].
  by rewrite Ascii.eqb_sym, E3.
Qed.

(** [re.compile] on an escaped text, as [occurs_any] calls it. *)
Lemma re_compile_escaped flag v :
  re_compile flag (re_escape v) = Some (Pattern flag (lits v)).
Proof.
  unfold re_compile. rewrite re_escape_starts.
  rewrite <- (app_nil_r (re_escape v)), parse_escaped by done.
  cbn. by rewrite app_nil_r.
Qed.

(** [re.compile] on the text of a guarded pattern. *)
Lemma re_compile_guarded body core :
  (forall rest, no_quant rest = true ->
     parse_items 0 (body ++ rest) = (app core) <$> parse_items 0 rest) ->
  re_compile false (str "(?i)(?<!\w)" ++ body ++ str "(?!\w)")
  = Some (Pattern true (NotBehindWord :: core ++ [NotAheadWord])).
Proof.
  intros H. unfold re_compile.
  change (str "(?i)(?<!\w)" ++ body ++ str "(?!\w)")
    with (str "(?i)" ++ str "(?<!\w)" ++ body ++ str "(?!\w)").
  replace (startswith (str "(?i)") (str "(?i)" ++ str "(?<!\w)" ++ body ++ str "(?!\w)"))
    with true by reflexivity.
  replace (drop 4 (str "(?i)" ++ str "(?<!\w)" ++ body ++ str "(?!\w)"))
    with (str "(?<!\w)" ++ body ++ str "(?!\w)") by reflexivity.
  rewrite (parse_items_atom _ _ NotBehindWord) by (done || apply atom_at_not_behind).
  rewrite H by done.
  rewrite <- (app_nil_r (str "(?!\w)")).
  rewrite (parse_items_atom _ _ NotAheadWord) by (done || apply atom_at_not_ahead).
  reflexivity.
Qed.

End Parser.

(** * Phrases that occur in the text *)

Lemma match_lits v : forall prev s,
  match_items true (lits v) prev s
  = if ci_prefix v s then Some (length v) else None.
Proof.
  induction v as [|c v IH]; intros prev s; [done|].
  destruct s as [|d s]; [done|]. cbn [lits map lit match_items ci_prefix].
  unfold cs_match. cbn [existsb celt_match]. rewrite orb_false_r.
  rewrite (Ascii.eqb_sym (lower_char d)).
  destruct (Ascii.eqb (lower_char c) (lower_char d)); [|done]. cbn [andb].
  fold (lit) (lits v). rewrite IH. by destruct (ci_prefix v s).
Qed.

Lemma search_lits v : forall s prev i,
  is_Some (search_from true (lits v) prev s i) <-> ci_contains v s = true.
Proof.
  induction s as [|d s IH]; intros prev i; cbn [search_from ci_contains];
    rewrite match_lits.
  - destruct (ci_prefix v []); cbn; [by split|]. split; [by intros [? ?]|done].
  - destruct (ci_prefix v (d :: s)); cbn [orb]; [by split|]. apply IH.
Qed.

Lemma occurs_step_spec text matched p :
  occurs_step text matched p
  = Some (matched_phrases text [p] ∪ matched).
Proof.
  unfold occurs_step, matched_phrases. rewrite filter_cons, filter_nil.
  destruct (py_strip p) as [|c p2] eqn:E; cbn [truthy].
  - rewrite decide_False by (intros [? _]; done). cbn. f_equal. set_solver.
  - rewrite <- E. rewrite re_compile_escaped. cbn [mbind option_bind].
    unfold re_search. cbn [ignorecase items].
    pose proof (search_lits (py_strip p) text None 0) as Hs.
    destruct (search_from true (lits (py_strip p)) None text 0) as [m|].
    + rewrite decide_True; [cbn; f_equal; set_solver|].
      split; [by rewrite E|]. by apply Hs.
    + rewrite decide_False; [cbn; f_equal; set_solver|].
      intros [_ H]. apply Hs in H. by destruct H.
Qed.

Lemma matched_phrases_cons text p phrases :
  matched_phrases text (p :: phrases)
  = matched_phrases text [p] ∪ matched_phrases text phrases.
Proof.
  unfold matched_phrases. rewrite !filter_cons, filter_nil.
  destruct (decide _); cbn; set_solver.
Qed.

Lemma occurs_loop_spec text phrases : forall matched,
  occurs_loop text phrases matched
  = Some (matched_phrases text phrases ∪ matched).
Proof.
  induction phrases as [|p phrases IH]; intros matched.
  - cbn. f_equal. unfold matched_phrases. set_solver.
  - cbn [occurs_loop]. rewrite occurs_step_spec. cbn [mbind option_bind].
    rewrite IH, (matched_phrases_cons _ p phrases). f_equal. set_solver.
Qed.

Lemma occurs_any_spec text phrases :
  occurs_any text phrases = Some (matched_phrases text (default [] phrases)).
Proof.
  unfold occurs_any. rewrite occurs_loop_spec. f_equal. set_solver.
Qed.

Lemma filter_elements_size (X Y : gset pystr) :
  length (filter (fun k => k ∈ Y) (elements X)) = size (X ∩ Y).
Proof.
  unfold size, set_size. cbn. apply Permutation_length.
  apply NoDup_Permutation.
  - apply NoDup_filter, NoDup_elements.
  - apply NoDup_elements.
  - intros x. rewrite list_elem_of_filter, !elem_of_elements. set_solver.
Qed.

Lemma simple_score_formula (pr mr po mo : gset pystr) c w l :
  simple_score pr mr po mo c w l
  = clamp (py_round (simple_formula (size pr) (size mr) (size po) (size mo) c w l)).
Proof.
  unfold simple_score, simple_formula, clamp. do 2 f_equal.
  apply py_round_proper. apply Qplus_comp; [reflexivity|]. apply Qopp_comp.
  apply inject_Z_injective. lia.
Qed.


Lemma simple_score_no_terms w l :
  clamp (py_round (simple_formula 0 0 0 0 0 w l)) = 0%Z.
Proof.
  set (p := (2 * Z.max 0 (Z.of_nat w - 3) + Z.of_nat l)%Z).
  rewrite (py_round_proper _ (inject_Z (- p))).
  - rewrite py_round_integer. unfold clamp. lia.
  - unfold simple_formula.
    replace (5 * Z.of_nat 0 + 2 * Z.max 0 (Z.of_nat w - 3) + Z.of_nat l)%Z
      with p by (unfold p; lia).
    rewrite inject_Z_opp.
    change (Qnat 0 / Qnat (1 `max` (0 + 0)))%Q with 0%Q. ring.
Qed.

(** * Variants, their patterns and their occurrences *)

Section Languages.

Lemma lang_app ic a b : forall m,
  lang ic (a ++ b) m
  <-> exists m1 m2, m = m1 ++ m2 /\ lang ic a m1 /\ lang ic b m2.
Proof.
  induction a as [|it a IH]; intros m.
  - cbn. split.
    + intros H. by exists [], m.
    + intros (m1 & m2 & -> & -> & H). done.
  - destruct it as [cs|cs|cs| | |alts]; cbn [app lang].
    + split.
      * intros (c & m' & -> & Hc & H). apply IH in H as (m1 & m2 & -> & H1 & H2).
        exists (c :: m1), m2. split; [done|]. split; [|done]. by exists c, m1.
      * intros (m1 & m2 & -> & (c & m' & -> & Hc & H1) & H2).
        exists c, (m' ++ m2). split; [done|]. split; [done|].
        apply IH. by exists m', m2.
    + split.
      * intros (run & m' & -> & Hr & H). apply IH in H as (m1 & m2 & -> & H1 & H2).
        exists (run ++ m1), m2. split; [by rewrite List.app_assoc|].
        split; [|done]. by exists run, m1.
      * intros (m1 & m2 & -> & (run & m' & -> & Hr & H1) & H2).
        exists run, (m' ++ m2). split; [by rewrite List.app_assoc|].
        split; [done|]. apply IH. by exists m', m2.
    + split.
      * intros (run & m' & -> & Hne & Hr & H).
        apply IH in H as (m1 & m2 & -> & H1 & H2).
        exists (run ++ m1), m2. split; [by rewrite List.app_assoc|].
        split; [|done]. by exists run, m1.
      * intros (m1 & m2 & -> & (run & m' & -> & Hne & Hr & H1) & H2).
        exists run, (m' ++ m2). split; [by rewrite List.app_assoc|].
        split; [done|]. split; [done|]. apply IH. by exists m', m2.
    + split; [done|]. by intros (? & ? & _ & [] & _).
    + split; [done|]. by intros (? & ? & _ & [] & _).
    + split.
      * intros (al & run & m' & Ha & -> & Hr & H).
        apply IH in H as (m1 & m2 & -> & H1 & H2).
        exists (run ++ m1), m2. split; [by rewrite List.app_assoc|].
        split; [|done]. by exists al, run, m1.
      * intros (m1 & m2 & -> & (al & run & m' & Ha & -> & Hr & H1) & H2).
        exists al, run, (m' ++ m2). split; [done|].
        split; [by rewrite List.app_assoc|].
        split; [done|]. apply IH. by exists m', m2.
Qed.

Lemma lang_lits s : forall m, lang true (lits s) m <-> same_letters s m.
Proof.
  unfold same_letters, py_lower. induction s as [|c s IH]; intros m.
  - cbn. split; [by intros ->|]. by destruct m.
  - cbn [lits map lit lang]. fold lit. fold (lits s). split.
    + intros (d & m' & -> & Hd & H). apply IH in H. cbn [map].
      unfold cs_match in Hd. cbn in Hd. rewrite orb_false_r in Hd.
      apply Ascii.eqb_eq in Hd. by rewrite Hd, H.
    + destruct m as [|d m']; [done|]. cbn [map]. intros [= Hd H].
      exists d, m'. split; [done|]. split; [|by apply IH].
      unfold cs_match. cbn. rewrite orb_false_r. by apply Ascii.eqb_eq.
Qed.

Lemma sep_set_match c : cs_match true sep_set c = is_sep c.
Proof. each_char c. Qed.

Lemma space_set_match c : cs_match true [CSpace] c = is_space c.
Proof. unfold cs_match. cbn. apply orb_false_r. Qed.

Lemma lang_star_sep run : lang true [Star sep_set] run <-> separators run.
Proof.
  cbn [lang]. unfold separators. split.
  - intros (r & m' & -> & Hr & ->). rewrite app_nil_r.
    eapply Forall_impl; [exact Hr|]. intros c Hc. by rewrite <- sep_set_match.
  - intros H. exists run, []. rewrite app_nil_r. split; [done|]. split; [|done].
    eapply Forall_impl; [exact H|]. intros c Hc. cbn beta. by rewrite sep_set_match.
Qed.

Lemma lang_plus_space run : lang true [Plus [CSpace]] run <-> blanks run.
Proof.
  cbn [lang]. unfold blanks. split.
  - intros (r & m' & -> & Hne & Hr & ->). rewrite app_nil_r. split; [done|].
    eapply Forall_impl; [exact Hr|]. intros c Hc. by rewrite <- space_set_match.
  - intros [Hne H]. exists run, []. rewrite app_nil_r.
    split; [done|]. split; [done|]. split; [|done].
    eapply Forall_impl; [exact H|]. intros c Hc. cbn beta. by rewrite space_set_match.
Qed.

Lemma lang_joined sep gap tokens :
  (forall run, lang true [sep] run <-> gap run) ->
  forall m, lang true (joined_items sep tokens) m <-> joined gap tokens m.
Proof.
  intros Hsep. induction tokens as [|tok tokens IH]; intros m; [done|].
  destruct tokens as [|tok' tokens].
  - cbn [joined_items joined]. apply lang_lits.
  - change (joined_items sep (tok :: tok' :: tokens))
      with (lits tok ++ [sep] ++ joined_items sep (tok' :: tokens)).
    change (joined gap (tok :: tok' :: tokens) m)
      with (exists a run b, m = a ++ run ++ b /\ same_letters tok a /\ gap run
                            /\ joined gap (tok' :: tokens) b).
    rewrite lang_app. split.
    + intros (a & m2 & -> & Ha & H). apply lang_app in H as (run & b & -> & Hr & Hb).
      exists a, run, b. split; [done|]. split; [by apply lang_lits|].
      split; [by apply Hsep|by apply IH].
    + intros (a & run & b & -> & Ha & Hr & Hb).
      exists a, (run ++ b). split; [done|]. split; [by apply lang_lits|].
      apply lang_app. exists run, b. split; [done|].
      split; [by apply Hsep|by apply IH].
Qed.

Lemma lang_core_of v m : lang true (core_of v) m <-> surface_of v m.
Proof.
  destruct v as [s|tokens|tokens]; cbn [core_of surface_of].
  - apply lang_lits.
  - apply lang_joined, lang_star_sep.
  - apply lang_joined, lang_plus_space.
Qed.

Lemma pure_lits s : forallb pure (lits s) = true.
Proof. by induction s. Qed.

Lemma pure_joined_items sep tokens :
  pure sep = true -> forallb pure (joined_items sep tokens) = true.
Proof.
  intros Hsep. induction tokens as [|tok tokens IH]; [done|].
  destruct tokens as [|tok' tokens]; [apply pure_lits|].
  change (joined_items sep (tok :: tok' :: tokens))
    with (lits tok ++ sep :: joined_items sep (tok' :: tokens)).
  rewrite forallb_app, pure_lits. cbn [forallb andb]. by rewrite Hsep, IH.
Qed.

Lemma pure_core_of v : forallb pure (core_of v) = true.
Proof.
  destruct v; cbn [core_of]; [apply pure_lits|by apply pure_joined_items..].
Qed.

End Languages.

Section Occurrences.

Lemma prev_after_start pre : prev_after None pre = last pre.
Proof. rewrite prev_after_last. by destruct (last pre). Qed.

Lemma match_pattern_of_sound v prev s n :
  match_items true (items (pattern_of v)) prev s = Some n ->
  exists m s', s = m ++ s' /\ n = length m /\ surface_of v m
    /\ word_opt prev = false /\ word_opt (head s') = false.
Proof.
  cbn [pattern_of items match_items].
  destruct (word_opt prev) eqn:Hp; [done|]. intros H.
  apply match_items_sound in H as (m & s' & n' & -> & Hm & Hk & ->);
    [|apply pure_core_of].
  cbn [match_items] in Hk. destruct (word_opt (head s')) eqn:Hs; [done|].
  injection Hk as <-. exists m, s'. rewrite Nat.add_0_r.
  split; [done|]. split; [done|]. split; [by apply lang_core_of|done].
Qed.

Lemma match_pattern_of_complete v prev m s' :
  surface_of v m -> word_opt prev = false -> word_opt (head s') = false ->
  is_Some (match_items true (items (pattern_of v)) prev (m ++ s')).
Proof.
  intros Hm Hp Hs. cbn [pattern_of items match_items]. rewrite Hp.
  apply match_items_complete; [apply pure_core_of|by apply lang_core_of|].
  cbn [match_items]. by rewrite Hs.
Qed.

Lemma search_pattern_of_complete v text :
  occurs v text -> is_Some (re_search (pattern_of v) text).
Proof.
  intros (pre & m & post & -> & Hm & Hpre & Hpost). unfold re_search.
  apply search_from_complete. rewrite prev_after_start.
  by apply match_pattern_of_complete.
Qed.

Lemma search_pattern_of_sound v text hit :
  re_search (pattern_of v) text = Some hit ->
  exists pre post,
    occurs_at v text pre (group0 text hit) post
    /\ forall pre' m' post', occurs_at v text pre' m' post' ->
         length pre <= length pre'.
Proof.
  destruct hit as [i n]. unfold re_search. intros H.
  apply search_from_sound in H as (pre & s' & -> & -> & Hm & Hmin).
  rewrite prev_after_start in Hm.
  apply match_pattern_of_sound in Hm as (m & post & -> & -> & Hm & Hpre & Hpost).
  exists pre, post. split.
  - unfold occurs_at, group0. cbn [fst snd Nat.add].
    rewrite drop_app_length, take_app_length. done.
  - intros pre' m' post' (E & Hm' & Hpre' & Hpost').
    destruct (decide (length pre <= length pre')) as [|Hlt]; [done|].
    exfalso.
    assert (Hn : match_items true (items (pattern_of v))
                   (prev_after None pre') (m' ++ post') = None).
    { apply Hmin; [done|lia]. }
    rewrite prev_after_start in Hn.
    destruct (match_pattern_of_complete v (last pre') m' post') as [x Hx]; try done.
    congruence.
Qed.

(** The result of [any_match_with_surface]: the match of the first pattern
    that matches, or the empty string. *)
Lemma any_match_with_surface_cases text ps :
  (Forall (fun p => re_search p text = None) ps
   /\ any_match_with_surface text ps = [])
  \/ exists ps1 p ps2 hit,
       ps = ps1 ++ p :: ps2
       /\ Forall (fun p' => re_search p' text = None) ps1
       /\ re_search p text = Some hit
       /\ any_match_with_surface text ps = group0 text hit.
Proof.
  induction ps as [|p ps IH]; [by left|].
  cbn [any_match_with_surface].
  destruct (re_search p text) as [hit|] eqn:E.
  - right. exists [], p, ps, hit. by repeat split.
  - destruct IH as [[Hall Hnil]|(ps1 & p' & ps2 & hit & -> & Hall & Hp & Hs)].
    + left. split; [by constructor|done].
    + right. exists (p :: ps1), p', ps2, hit. repeat split; [by constructor|done..].
Qed.

End Occurrences.

Section Variants.

Lemma synonyms_plain t l :
  SYNONYMS !! t = Some l ->
  Forall (fun s => plain_term s = true /\ py_lower s = s) l.
Proof.
  intros H. apply elem_of_list_to_map_2 in H.
  assert (Hall : forallb (fun kv : pystr * list pystr =>
                   forallb (fun s => plain_term s && bool_decide (py_lower s = s)) kv.2)
                   SYNONYMS_items = true) by (vm_compute; reflexivity).
  rewrite forallb_forall in Hall. apply list_elem_of_In, Hall in H. cbn in H.
  rewrite forallb_forall in H. apply Forall_forall. intros s Hs.
  apply list_elem_of_In, H, andb_true_iff in Hs as [? ?].
  split; [done|]. by eapply bool_decide_eq_true_1.
Qed.

(** The bases of a term: the term and its synonyms. *)
Lemma bases_plain t :
  canonical t = t -> plain_term t = true ->
  Forall (fun s => plain_term s = true /\ py_lower s = s)
    (t :: default [] (SYNONYMS !! t)).
Proof.
  intros Hc Hp. constructor.
  - split; [done|]. rewrite <- Hc. unfold canonical. apply py_lower_idem.
  - destruct (SYNONYMS !! t) as [l|] eqn:E; [|by constructor].
    by eapply synonyms_plain.
Qed.

Lemma term_variants_declared t :
  canonical t = t ->
  term_variants t = dedup (map text_of (declared_variants t)) ∅.
Proof.
  intros Hc. unfold term_variants, declared_variants. rewrite Hc. cbv zeta.
  f_equal. set (bases := t :: default [] (SYNONYMS !! t)).
  rewrite map_app, map_map. cbn [text_of]. rewrite map_id. f_equal.
  induction bases as [|b bases IH]; [done|].
  cbn [flat_map]. rewrite map_app, <- IH. f_equal.
  unfold _token_sep_variant. by destruct (has_sep b).
Qed.

Lemma startswith_app p b : startswith p (p ++ b) = true.
Proof. induction p as [|c p IH]; [done|]. cbn. by rewrite Ascii.eqb_refl. Qed.

Lemma startswith_inv p : forall s,
  startswith p s = true -> exists b, s = p ++ b.
Proof.
  induction p as [|c p IH]; intros s; [by exists s|].
  destruct s as [|d s]; [done|]. cbn [startswith].
  intros H. apply andb_true_iff in H as [Hc Hp].
  apply Ascii.eqb_eq in Hc as ->. destruct (IH _ Hp) as [b ->]. by exists b.
Qed.

Lemma py_contains_app sub a b : py_contains sub (a ++ sub ++ b) = true.
Proof.
  induction a as [|c a IH].
  - cbn [app]. pose proof (startswith_app sub b) as H.
    destruct (sub ++ b); cbn [py_contains]; by rewrite H.
  - cbn [app py_contains]. rewrite IH. apply orb_true_r.
Qed.

Lemma py_contains_inv sub : forall s,
  py_contains sub s = true -> exists a b, s = a ++ sub ++ b.
Proof.
  induction s as [|c s IH]; cbn [py_contains]; intros H.
  - rewrite orb_false_r in H. apply startswith_inv in H as [b ->]. by exists [], b.
  - apply orb_true_iff in H as [H|H].
    + apply startswith_inv in H as [b ->]. by exists [], b.
    + destruct (IH H) as (a & b & ->). by exists (c :: a), b.
Qed.

Lemma split_from_cons s : forall cur in_run,
  exists tok rest, split_from s cur in_run = tok :: rest.
Proof.
  induction s as [|c s IH]; intros cur in_run; cbn [split_from]; [by eauto|].
  destruct (is_sep c); [destruct in_run|]; eauto.
Qed.

Lemma split_from_two s : forall cur,
  has_sep s = true ->
  exists tok tok' rest, split_from s cur false = tok :: tok' :: rest.
Proof.
  induction s as [|c s IH]; intros cur; [done|].
  unfold has_sep. cbn [existsb split_from]. destruct (is_sep c).
  - intros _. destruct (split_from_cons s [] true) as (tok' & rest & ->). eauto.
  - cbn [orb]. apply IH.
Qed.

Lemma looks_like_pattern_joined sep_text tokens :
  py_contains (str "\s") sep_text = true ->
  (exists tok tok' rest, tokens = tok :: tok' :: rest) ->
  looks_like_pattern (py_join sep_text (map re_escape tokens)) = true.
Proof.
  intros Hs (tok & tok' & rest & ->).
  change (py_join sep_text (map re_escape (tok :: tok' :: rest)))
    with (re_escape tok ++ sep_text ++ py_join sep_text (map re_escape (tok' :: rest))).
  set (tail := py_join _ _). clearbody tail. unfold looks_like_pattern.
  pose proof (py_contains_inv _ _ Hs) as H.
  destruct H as (a & b & ->).
  assert (H1 : py_contains (str "\s") (re_escape tok ++ (a ++ str "\s" ++ b) ++ tail) = true).
  { replace (re_escape tok ++ (a ++ str "\s" ++ b) ++ tail)
      with ((re_escape tok ++ a) ++ str "\s" ++ (b ++ tail))
      by (by rewrite <- !List.app_assoc).
    apply py_contains_app. }
  assert (H2 : py_contains [backslash] (re_escape tok ++ (a ++ str "\s" ++ b) ++ tail) = true).
  { replace (re_escape tok ++ (a ++ str "\s" ++ b) ++ tail)
      with ((re_escape tok ++ a) ++ [backslash] ++ ("s"%char :: b ++ tail))
      by (by rewrite <- !List.app_assoc).
    apply py_contains_app. }
  by rewrite H1, H2.
Qed.

(** Every declared variant of a plain term compiles to its pattern. *)
Lemma compile_declared t v :
  canonical t = t -> plain_term t = true -> v ∈ declared_variants t ->
  re_compile false (pattern_text (text_of v)) = Some (pattern_of v).
Proof.
  intros Hc Hp Hv. pose proof (bases_plain t Hc Hp) as Hb.
  unfold declared_variants in Hv. cbv zeta in Hv.
  set (bases := t :: default [] (SYNONYMS !! t)) in *. clearbody bases.
  apply elem_of_app in Hv as [Hv|Hv].
  - apply list_elem_of_fmap in Hv as (b & -> & Hin).
    rewrite Forall_forall in Hb. destruct (Hb b Hin) as [Hplain _].
    unfold plain_term in Hplain. apply andb_true_iff in Hplain as [Hl _].
    apply negb_true_iff in Hl. unfold pattern_text. cbn [text_of]. rewrite Hl.
    apply re_compile_guarded. intros rest Hrest. by apply parse_escaped.
  - apply list_elem_of_In, in_flat_map in Hv as (b & Hin & Hv).
    destruct (has_sep b) eqn:Hs; [|by destruct Hv].
    assert (H2 : exists tok tok' rest, split_seps b = tok :: tok' :: rest)
      by (by apply split_from_two).
    destruct Hv as [<-|[<-|[]]]; unfold pattern_text; cbn [text_of].
    + rewrite looks_like_pattern_joined by done.
      apply re_compile_guarded. intros rest Hrest.
      apply parse_joined; [done|done|apply atom_at_SEP|done].
    + rewrite looks_like_pattern_joined by done.
      apply re_compile_guarded. intros rest Hrest.
      apply parse_joined; [done|done|apply atom_at_spaces|done].
Qed.

Lemma escape_special_lower c : escape_special (lower_char c) = escape_special c.
Proof. each_char c. Qed.

Lemma re_escape_lower s : py_lower (re_escape s) = re_escape (py_lower s).
Proof.
  induction s as [|c s IH]; [done|].
  change (py_lower (c :: s)) with (lower_char c :: py_lower s).
  rewrite !re_escape_cons, <- IH. unfold py_lower at 1. rewrite map_app.
  f_equal. unfold escaped_char. rewrite escape_special_lower.
  by destruct (escape_special c).
Qed.

Lemma split_from_lower s : forall cur in_run,
  split_from (py_lower s) (py_lower cur) in_run
  = map py_lower (split_from s cur in_run).
Proof.
  induction s as [|c s IH]; intros cur in_run.
  - cbn. unfold py_lower. by rewrite map_rev.
  - change (py_lower (c :: s)) with (lower_char c :: py_lower s).
    cbn [split_from]. rewrite is_sep_lower.
    destruct (is_sep c); [destruct in_run|].
    + apply (IH [] true).
    + cbn [map]. f_equal; [unfold py_lower; by rewrite map_rev|apply (IH [] true)].
    + apply (IH (c :: cur) false).
Qed.

Lemma split_seps_lower b :
  py_lower b = b -> Forall (fun tok => py_lower tok = tok) (split_seps b).
Proof.
  intros H. unfold split_seps.
  pose proof (split_from_lower b [] false) as E. rewrite H in E.
  change (py_lower []) with (@nil ascii) in E.
  apply Forall_lookup. intros i tok Hi.
  assert (Hm : map py_lower (split_from b [] false) !! i = Some (py_lower tok))
    by (by rewrite list_lookup_fmap, Hi).
  rewrite <- E, Hi in Hm. by injection Hm.
Qed.

Lemma py_join_lower sep parts :
  py_lower (py_join sep parts) = py_join (py_lower sep) (map py_lower parts).
Proof.
  induction parts as [|p parts IH]; [done|].
  destruct parts as [|q parts]; [done|].
  change (py_join sep (p :: q :: parts)) with (p ++ sep ++ py_join sep (q :: parts)).
  change (py_join (py_lower sep) (map py_lower (p :: q :: parts)))
    with (py_lower p ++ py_lower sep
          ++ py_join (py_lower sep) (map py_lower (q :: parts))).
  rewrite <- IH. unfold py_lower. by rewrite !map_app.
Qed.

Lemma joined_text_lower sep tokens :
  py_lower sep = sep -> Forall (fun tok => py_lower tok = tok) tokens ->
  py_lower (py_join sep (map re_escape tokens)) = py_join sep (map re_escape tokens).
Proof.
  intros Hsep Htok. rewrite py_join_lower, Hsep. f_equal.
  rewrite map_map. apply map_ext_Forall.
  eapply Forall_impl; [exact Htok|]. intros tok E. cbn beta in *.
  by rewrite re_escape_lower, E.
Qed.

(** The variant texts of a plain term are in lower case. *)
Lemma text_of_lower t v :
  canonical t = t -> plain_term t = true -> v ∈ declared_variants t ->
  py_lower (text_of v) = text_of v.
Proof.
  intros Hc Hp Hv. pose proof (bases_plain t Hc Hp) as Hb.
  unfold declared_variants in Hv. cbv zeta in Hv.
  set (bases := t :: default [] (SYNONYMS !! t)) in *. clearbody bases.
  rewrite Forall_forall in Hb.
  apply elem_of_app in Hv as [Hv|Hv].
  - apply list_elem_of_fmap in Hv as (b & -> & Hin). by apply Hb.
  - apply list_elem_of_In, in_flat_map in Hv as (b & Hin & Hv).
    apply list_elem_of_In in Hin. destruct (Hb b Hin) as [_ Hl].
    destruct (has_sep b); [|by destruct Hv].
    destruct Hv as [<-|[<-|[]]]; cbn [text_of];
      apply joined_text_lower; by try apply split_seps_lower.
Qed.

Lemma same_letters_length a b : same_letters a b -> length a = length b.
Proof.
  unfold same_letters, py_lower. intros H.
  by rewrite <- (length_map lower_char a), H, length_map.
Qed.

Lemma joined_nonempty gap tokens : forall m,
  Exists (fun tok => tok <> []) tokens -> joined gap tokens m -> m <> [].
Proof.
  induction tokens as [|tok tokens IH]; intros m Hex; [by inversion Hex|].
  destruct tokens as [|tok' tokens].
  - cbn [joined]. intros H ->. apply same_letters_length in H.
    inversion Hex as [? ? Hne|? ? Hex']; subst; [|by inversion Hex'].
    by destruct tok.
  - intros (a & run & b & -> & Ha & _ & Hb) E.
    apply app_eq_nil in E as [-> E]. apply app_eq_nil in E as [_ ->].
    apply same_letters_length in Ha.
    inversion Hex as [? ? Hne|? ? Hex']; subst; [by destruct tok|].
    by apply (IH [] Hex').
Qed.

Lemma split_from_token s : forall cur in_run,
  (in_run = true -> cur = []) ->
  cur <> [] \/ existsb (fun c => negb (is_sep c)) s = true ->
  Exists (fun tok => tok <> []) (split_from s cur in_run).
Proof.
  induction s as [|c s IH]; intros cur in_run Hrun H.
  - cbn in *. destruct H as [H|H]; [|done]. left.
    intros E. apply H. destruct cur; [done|]. cbn in E.
    by apply app_eq_nil in E as [_ ?].
  - cbn [split_from existsb] in *. destruct (is_sep c) eqn:Ec; cbn [negb orb] in H.
    + destruct in_run.
      * apply IH; [done|]. right. destruct H as [H|H]; [|done]. by destruct H, Hrun.
      * destruct H as [H|H].
        -- left. intros E. apply H. destruct cur; [done|]. cbn in E.
           by apply app_eq_nil in E as [_ ?].
        -- right. apply IH; [done|by right].
    + apply IH; [done|by left].
Qed.

(** A surface form of a declared variant of a plain term is not empty. *)
Lemma surface_nonempty t v m :
  canonical t = t -> plain_term t = true -> v ∈ declared_variants t ->
  surface_of v m -> m <> [].
Proof.
  intros Hc Hp Hv. pose proof (bases_plain t Hc Hp) as Hb.
  unfold declared_variants in Hv. cbv zeta in Hv.
  set (bases := t :: default [] (SYNONYMS !! t)) in *. clearbody bases.
  rewrite Forall_forall in Hb.
  assert (Hplain : forall b, b ∈ bases ->
            existsb (fun c => negb (is_sep c)) b = true).
  { intros b Hin. destruct (Hb b Hin) as [Hpl _]. unfold plain_term in Hpl.
    by apply andb_true_iff in Hpl as [_ ?]. }
  apply elem_of_app in Hv as [Hv|Hv].
  - apply list_elem_of_fmap in Hv as (b & -> & Hin). cbn [surface_of].
    intros H ->. apply same_letters_length in H.
    specialize (Hplain b Hin). by destruct b.
  - apply list_elem_of_In, in_flat_map in Hv as (b & Hin & Hv).
    apply list_elem_of_In in Hin. specialize (Hplain b Hin).
    destruct (has_sep b); [|by destruct Hv].
    assert (Htok : Exists (fun tok => tok <> []) (split_seps b))
      by (apply split_from_token; [done|by right]).
    destruct Hv as [<-|[<-|[]]]; cbn [surface_of]; by apply joined_nonempty.
Qed.

Lemma dedup_subset l : forall seen s, s ∈ dedup l seen -> s ∈ l.
Proof.
  induction l as [|v l IH]; intros seen s; [done|]. cbn [dedup].
  destruct (bool_decide _).
  - intros H. right. by eapply IH.
  - intros H. apply elem_of_cons in H as [->|H]; [by left|]. right. by eapply IH.
Qed.

(** Dropping the repeated texts does not change the first match. *)
Lemma any_match_dedup text (f : pystr -> pattern) l : forall seen,
  Forall (fun s => py_lower s = s) l ->
  (forall s, s ∈ seen -> re_search (f s) text = None) ->
  any_match_with_surface text (map f (dedup l seen))
  = any_match_with_surface text (map f l).
Proof.
  induction l as [|v l IH]; intros seen Hl Hseen; [done|].
  inversion Hl as [|? ? Hv Hl']; subst. cbn [dedup map any_match_with_surface].
  rewrite Hv. destruct (bool_decide (v ∈ seen)) eqn:E.
  - apply bool_decide_eq_true_1 in E. rewrite (Hseen v E). by apply IH.
  - cbn [map any_match_with_surface].
    destruct (re_search (f v) text) eqn:Es; [done|].
    apply IH; [done|]. intros s Hs.
    apply elem_of_union in Hs as [Hs|Hs]; [|by apply Hseen].
    apply elem_of_singleton in Hs. by subst.
Qed.

(** The patterns of a plain term, one for each text that [term_variants]
    keeps, and the surface that they find. *)
Lemma compile_patterns_plain t :
  canonical t = t -> plain_term t = true ->
  compile_patterns_for_term t = Some (map pattern_for (term_variants t)).
Proof.
  intros Hc Hp. unfold compile_patterns_for_term. apply mapM_Some.
  rewrite term_variants_declared by done.
  apply Forall2_fmap_r, Forall_Forall2_diag, Forall_forall. intros s Hs.
  apply dedup_subset, list_elem_of_fmap in Hs as (v & -> & Hv).
  unfold pattern_for, compose. by rewrite !(compile_declared t v).
Qed.

Lemma surface_of_plain text t :
  canonical t = t -> plain_term t = true ->
  any_match_with_surface text (map pattern_for (term_variants t))
  = any_match_with_surface text (map pattern_of (declared_variants t)).
Proof.
  intros Hc Hp. rewrite term_variants_declared by done.
  rewrite any_match_dedup.
  - rewrite map_map. f_equal. apply map_ext_Forall, Forall_forall.
    intros v Hv. unfold pattern_for. by rewrite (compile_declared t v).
  - apply Forall_forall. intros s Hs.
    apply list_elem_of_fmap in Hs as (v & -> & Hv). by eapply text_of_lower.
  - intros s Hs. by apply elem_of_empty in Hs.
Qed.

End Variants.

(** * One plain term *)

Section SingleTerm.

Variable text : pystr.

(** What the loop does with one plain term. *)
Lemma pmws_plain_term raw syn :
  plain_term (canonical raw) = true ->
  present_missing_with_surface text [raw] syn
  = let t := canonical raw in
    let surface :=
      any_match_with_surface text (map pattern_of (declared_variants t)) in
    Some (if truthy surface
          then Presence {[ t ]} ∅ {[ t := surface ]}
          else Presence ∅ {[ t ]} ∅).
Proof.
  intros Hp. cbv zeta. set (t := canonical raw) in *.
  assert (Hc : canonical t = t) by apply canonical_idem.
  assert (Ht : truthy t = true).
  { unfold plain_term in Hp. apply andb_true_iff in Hp as [_ Hp]. by destruct t. }
  unfold present_missing_with_surface. cbn [pmws_loop]. unfold pmws_step.
  fold t. rewrite Ht, compile_patterns_plain by done.
  cbn [mbind option_bind present missing surfaces].
  rewrite surface_of_plain by done.
  destruct (truthy (any_match_with_surface text _));
    cbn [mbind option_bind pmws_loop].
  - by rewrite (right_id_L ∅ (∪)), insert_empty.
  - by rewrite (right_id_L ∅ (∪)).
Qed.

Lemma no_match_no_occurrence (vs : list variant) :
  Forall (fun p => re_search p text = None) (map pattern_of vs) ->
  forall v, v ∈ vs -> ~ occurs v text.
Proof.
  intros Hall v Hv Hocc. apply search_pattern_of_complete in Hocc as [hit Hhit].
  rewrite Forall_forall in Hall.
  rewrite (Hall (pattern_of v)) in Hhit; [done|].
  apply list_elem_of_fmap. by exists v.
Qed.

(** The surface found for a plain term: the empty string when no declared
    variant occurs, the first surface otherwise. *)
Lemma surface_cases t :
  canonical t = t -> plain_term t = true ->
  let surface :=
    any_match_with_surface text (map pattern_of (declared_variants t)) in
  (surface = [] /\ forall v, v ∈ declared_variants t -> ~ occurs v text)
  \/ (surface <> [] /\ first_surface t text surface).
Proof.
  intros Hc Hp. cbv zeta.
  destruct (any_match_with_surface_cases text
              (map pattern_of (declared_variants t)))
    as [[Hall ->]|(ps1 & p & ps2 & hit & E & Hall & Hp' & ->)].
  - left. split; [done|]. by apply no_match_no_occurrence.
  - right.
    apply fmap_app_inv in E as (before & rest & -> & E & Hdecl).
    symmetry in E. apply fmap_cons_inv in E as (v & after & -> & -> & ->).
    apply search_pattern_of_sound in Hp' as (pre & post & Hocc & Hleft).
    assert (Hv : v ∈ declared_variants t).
    { rewrite Hdecl. apply elem_of_app. right. by left. }
    split.
    + destruct Hocc as (_ & Hs & _). by eapply surface_nonempty.
    + exists before, v, after, pre, post. split; [done|].
      split; [by apply no_match_no_occurrence|]. by split.
Qed.

End SingleTerm.

(** * The pattern of a bucket of terms *)

Section CompileTerms.

Lemma plain_char_in_group c :
  escape_special c = false ->
  Ascii.eqb c ")" = false /\ Ascii.eqb c "|" = false.
Proof.
  each_char c.
Qed.

Lemma push_prepend c t alts : push [CLit c] (prepend t alts) = prepend (c :: t) alts.
Proof. by destruct alts. Qed.

Lemma group_at_alts s : forall esc alts n,
  group_at s esc = Some (alts, n) -> alts <> [].
Proof.
  induction s as [|c s IH]; intros esc alts n; [done|]. cbn [group_at].
  destruct esc.
  - destruct (escape_elt c); [|done]. cbn [mbind option_bind].
    destruct (group_at s false) as [[alts' n']|]; [|done].
    intros [= <- _]. by destruct alts'.
  - destruct (Ascii.eqb c ")"); [by intros [= <- _]|].
    destruct (Ascii.eqb c "|").
    { destruct (group_at s false) as [[alts' n']|]; [|done]. by intros [= <- _]. }
    destruct (Ascii.eqb c backslash).
    { destruct (group_at s true) as [[alts' n']|] eqn:E; [|done].
      intros [= <- _]. by eapply IH. }
    destruct (meta c); [done|].
    destruct (group_at s false) as [[alts' n']|]; [|done].
    intros [= <- _]. by destruct alts'.
Qed.

Lemma group_at_escaped t rest :
  group_at (re_escape t ++ rest) false
  = '(alts, n) ← group_at rest false;
    Some (prepend t alts, length (re_escape t) + n).
Proof.
  induction t as [|c t IH].
  - cbn. destruct (group_at rest false) as [[alts n]|] eqn:E; [|done].
    apply group_at_alts in E. cbn. by destruct alts.
  - rewrite re_escape_cons, <- List.app_assoc. unfold escaped_char.
    destruct (escape_special c) eqn:E.
    + cbn [app group_at].
      replace (Ascii.eqb backslash ")") with false by reflexivity.
      replace (Ascii.eqb backslash "|") with false by reflexivity.
      replace (Ascii.eqb backslash backslash) with true by reflexivity.
      rewrite (escape_elt_special _ E). cbn [mbind option_bind]. rewrite IH.
      destruct (group_at rest false) as [[alts n]|]; [|done].
      cbn. by rewrite push_prepend.
    + destruct (plain_char _ E) as (E1 & _ & _ & E4 & _).
      destruct (plain_char_in_group _ E) as (E5 & E6).
      cbn [app group_at]. rewrite E1, E4, E5, E6, IH.
      destruct (group_at rest false) as [[alts n]|]; [|done].
      cbn. by rewrite push_prepend.
Qed.

Lemma prepend_nil_alt t alts : prepend t ([] :: alts) = chars t :: alts.
Proof. cbn. by rewrite app_nil_r. Qed.

Lemma group_at_joined terms rest :
  terms <> [] ->
  group_at (py_join (str "|") (map re_escape terms) ++ str ")" ++ rest) false
  = Some (map chars terms,
          length (py_join (str "|") (map re_escape terms)) + 1).
Proof.
  intros Hne. induction terms as [|t terms IH]; [done|].
  destruct terms as [|t' terms].
  - cbn [map py_join]. rewrite group_at_escaped. cbn. by rewrite app_nil_r.
  - change (py_join (str "|") (map re_escape (t :: t' :: terms)))
      with (re_escape t ++ str "|"
            ++ py_join (str "|") (map re_escape (t' :: terms))).
    rewrite <- !List.app_assoc, group_at_escaped.
    change (str "|" ++ py_join (str "|") (map re_escape (t' :: terms))
            ++ str ")" ++ rest)
      with ("|"%char :: (py_join (str "|") (map re_escape (t' :: terms))
                         ++ str ")" ++ rest)).
    cbn [group_at]. replace (Ascii.eqb "|" ")") with false by reflexivity.
    replace (Ascii.eqb "|" "|") with true by reflexivity.
    rewrite IH by done. cbn [mbind option_bind].
    rewrite prepend_nil_alt. f_equal. f_equal.
    rewrite !length_app. cbn [length str list_ascii_of_string]. lia.
Qed.

Lemma atom_at_group terms rest :
  terms <> [] ->
  let body := py_join (str "|") (map re_escape terms) in
  atom_at (str "(?:" ++ body ++ str ")" ++ rest)
  = Some (Alt (map chars terms), length (str "(?:" ++ body ++ str ")")).
Proof.
  intros Hne body.
  change (str "(?:" ++ body ++ str ")" ++ rest)
    with ("("%char :: "?"%char :: ":"%char :: (body ++ str ")" ++ rest)).
  unfold atom_at.
  replace (Ascii.eqb "(" backslash) with false by reflexivity.
  replace (Ascii.eqb "(" "[") with false by reflexivity.
  replace (Ascii.eqb "(" "(") with true by reflexivity.
  replace (startswith (str "?<!\w)") ("?"%char :: ":"%char :: (body ++ str ")" ++ rest)))
    with false by reflexivity.
  replace (startswith (str "?!\w)") ("?"%char :: ":"%char :: (body ++ str ")" ++ rest)))
    with false by reflexivity.
  replace (startswith (str "?:") ("?"%char :: ":"%char :: (body ++ str ")" ++ rest)))
    with true by reflexivity.
  replace (drop 2 ("?"%char :: ":"%char :: (body ++ str ")" ++ rest)))
    with (body ++ str ")" ++ rest) by reflexivity.
  unfold body. rewrite group_at_joined by done.
  cbn [mbind option_bind]. f_equal. f_equal.
  rewrite !length_app. cbn [length str list_ascii_of_string]. lia.
Qed.

(** The compiled text of a non-empty list of terms. *)
Lemma re_compile_terms terms :
  terms <> [] ->
  re_compile false
    (str "(?i)(?<!\w)(?:" ++ py_join (str "|") (map re_escape terms) ++ str ")(?!\w)")
  = Some (Pattern true [NotBehindWord; Alt (map chars terms); NotAheadWord]).
Proof.
  intros Hne. set (body := py_join _ _).
  replace (str "(?i)(?<!\w)(?:" ++ body ++ str ")(?!\w)")
    with (str "(?i)(?<!\w)" ++ (str "(?:" ++ body ++ str ")") ++ str "(?!\w)").
  2: { change (str "(?i)(?<!\w)(?:") with (str "(?i)(?<!\w)" ++ str "(?:").
       change (str ")(?!\w)") with (str ")" ++ str "(?!\w)").
       by rewrite <- !List.app_assoc. }
  apply (re_compile_guarded _ [Alt (map chars terms)]).
  intros rest _.
  rewrite (parse_items_atom (str "(?:" ++ body ++ str ")") rest (Alt (map chars terms))).
  - by destruct (parse_items 0 rest).
  - done.
  - rewrite <- !List.app_assoc. by apply atom_at_group.
Qed.

Lemma insert_by_len_cons x l : exists y l', insert_by_len x l = y :: l'.
Proof. destruct l as [|z l]; cbn; [by eauto|]. destruct (_ <=? _)%nat; eauto. Qed.

Lemma sorted_by_len_desc_nonempty l : l <> [] -> sorted_by_len_desc l <> [].
Proof.
  destruct l as [|x l]; [done|]. intros _.
  change (sorted_by_len_desc (x :: l)) with (insert_by_len x (sorted_by_len_desc l)).
  by destruct (insert_by_len_cons x (sorted_by_len_desc l)) as (y & l' & ->).
Qed.

(** [_compile_terms] never raises: it returns [None] when no term is left
    and else the anchored, case-insensitive choice between the terms taken
    as literals, the longest first. *)
Lemma _compile_terms_shape (terms : option (list pystr)) :
  _compile_terms terms
  = Some (match filter (fun t => truthy t) (default [] terms) with
          | [] => None
          | kept =>
              Some (Pattern true
                      [ NotBehindWord;
                        Alt (map chars
                               (sorted_by_len_desc
                                  (elements (list_to_set kept : gset pystr))));
                        NotAheadWord ])
          end).
Proof.
  unfold _compile_terms.
  destruct (filter (fun t => truthy t) (default [] terms)) as [|t kept] eqn:E; [done|].
  rewrite re_compile_terms; [done|].
  apply sorted_by_len_desc_nonempty. intros Hnil.
  apply elements_empty_inv in Hnil.
  assert (t ∈ (list_to_set (t :: kept) : gset pystr)) by set_solver.
  set_solver.
Qed.

Lemma _highlight_total text good critical medium low :
  is_Some (_highlight text good critical medium low).
Proof. unfold _highlight. rewrite !_compile_terms_shape. by eexists. Qed.

(** ** The order in which a set is listed

    [sorted(set(terms), key=len, reverse=True)] keeps terms of the same
    length in the order in which the set lists them, which Python does not
    fix.  The matches do not depend on it. *)

Lemma match_chars_literal a (k : cont) : forall prev s,
  match_chars true (chars a) k prev s
  = if ci_prefix a s
    then (fun n => length a + n)
           <$> k (prev_after prev (take (length a) s)) (drop (length a) s)
    else None.
Proof.
  induction a as [|c a IH]; intros prev s.
  - cbn [chars map match_chars ci_prefix length]. rewrite take_0, drop_0.
    change (prev_after prev []) with prev. by destruct (k prev s).
  - destruct s as [|d s]; [done|].
    cbn [chars map match_chars ci_prefix length]. rewrite firstn_cons, skipn_cons.
    unfold cs_match. cbn [existsb celt_match]. rewrite orb_false_r.
    rewrite (Ascii.eqb_sym (lower_char d)).
    destruct (Ascii.eqb (lower_char c) (lower_char d)); [|done]. cbn [andb].
    fold (chars a). rewrite IH. destruct (ci_prefix a s); [|done].
    change (prev_after prev (d :: take (length a) s))
      with (prev_after (Some d) (take (length a) s)).
    by destruct (k _ _).
Qed.

Lemma first_alt_longest l (k : cont) prev s :
  longest_first l ->
  match first_alt true (map chars l) k prev s with
  | Some x =>
      exists a, a ∈ l /\ match_chars true (chars a) k prev s = Some x
        /\ forall b, b ∈ l -> is_Some (match_chars true (chars b) k prev s) ->
             length b <= length a
  | None => forall b, b ∈ l -> match_chars true (chars b) k prev s = None
  end.
Proof.
  induction 1 as [|a l Hs IH Hall]; cbn [map first_alt].
  - intros b Hb. by apply elem_of_nil in Hb.
  - destruct (match_chars true (chars a) k prev s) as [x|] eqn:E.
    + exists a. split; [by left|]. split; [done|].
      intros b Hb _. apply elem_of_cons in Hb as [->|Hb]; [done|].
      rewrite Forall_forall in Hall. by apply Hall.
    + destruct (first_alt true (map chars l) k prev s) as [x|].
      * destruct IH as (a' & Ha' & Hx & Hmax). exists a'.
        split; [by right|]. split; [done|].
        intros b Hb Hsome. apply elem_of_cons in Hb as [->|Hb].
        -- rewrite E in Hsome. by destruct Hsome.
        -- by apply Hmax.
      * intros b Hb. apply elem_of_cons in Hb as [->|Hb]; [done|by apply IH].
Qed.

Lemma first_alt_any_order l1 l2 (k : cont) prev s :
  l1 ≡ₚ l2 -> longest_first l1 -> longest_first l2 ->
  first_alt true (map chars l1) k prev s = first_alt true (map chars l2) k prev s.
Proof.
  intros Hperm H1 H2.
  pose proof (first_alt_longest l1 k prev s H1) as R1.
  pose proof (first_alt_longest l2 k prev s H2) as R2.
  destruct (first_alt true (map chars l1) k prev s) as [x|],
           (first_alt true (map chars l2) k prev s) as [y|]; [| | |done].
  - destruct R1 as (a & Ha & Hx & Hmaxa), R2 as (b & Hb & Hy & Hmaxb).
    assert (Hlen : length a = length b).
    { apply Nat.le_antisymm.
      - apply Hmaxb; [by rewrite <- Hperm|by rewrite Hx].
      - apply Hmaxa; [by rewrite Hperm|by rewrite Hy]. }
    rewrite match_chars_literal in Hx, Hy.
    destruct (ci_prefix a s); [|done]. destruct (ci_prefix b s); [|done].
    rewrite Hlen in Hx. congruence.
  - destruct R1 as (a & Ha & Hx & _). rewrite R2 in Hx; [done|by rewrite <- Hperm].
  - destruct R2 as (b & Hb & Hy & _). rewrite R1 in Hy; [done|by rewrite Hperm].
Qed.

Lemma insert_by_len_perm x l : insert_by_len x l ≡ₚ x :: l.
Proof.
  induction l as [|y l IH]; [done|]. cbn [insert_by_len].
  destruct (_ <=? _)%nat; [done|]. by rewrite IH, Permutation_swap.
Qed.

Lemma sorted_by_len_desc_perm l : sorted_by_len_desc l ≡ₚ l.
Proof.
  induction l as [|x l IH]; [done|].
  change (sorted_by_len_desc (x :: l)) with (insert_by_len x (sorted_by_len_desc l)).
  by rewrite insert_by_len_perm, IH.
Qed.

Lemma insert_by_len_sorted x l : longest_first l -> longest_first (insert_by_len x l).
Proof.
  unfold longest_first. induction 1 as [|y l Hs IH Hall]; cbn [insert_by_len].
  - by repeat constructor.
  - destruct (length y <=? length x)%nat eqn:E.
    + apply Nat.leb_le in E. constructor; [by constructor|].
      constructor; [done|]. eapply Forall_impl; [exact Hall|].
      intros z Hz. cbn beta in *. lia.
    + apply Nat.leb_gt in E. constructor; [done|].
      rewrite insert_by_len_perm. constructor; [lia|done].
Qed.

Lemma sorted_by_len_desc_sorted l : longest_first (sorted_by_len_desc l).
Proof.
  induction l as [|x l IH]; [constructor|]. by apply insert_by_len_sorted.
Qed.

(** Whatever the order [listed] in which the set of the terms comes, the
    pattern built from it matches as the pattern of [_compile_terms] does. *)
Lemma compile_terms_any_order (kept listed : list pystr) prev s :
  listed ≡ₚ elements (list_to_set kept : gset pystr) ->
  match_items true
    [NotBehindWord; Alt (map chars (sorted_by_len_desc listed)); NotAheadWord] prev s
  = match_items true
      [NotBehindWord;
       Alt (map chars (sorted_by_len_desc (elements (list_to_set kept : gset pystr))));
       NotAheadWord] prev s.
Proof.
  intros Hperm. cbn [match_items]. destruct (word_opt prev); [done|].
  apply first_alt_any_order; [|apply sorted_by_len_desc_sorted..].
  by rewrite !sorted_by_len_desc_perm.
Qed.

End CompileTerms.

(** * Escaping *)

Section Escaping.

Lemma replace_one_char c new s :
  py_replace [c] new s
  = flat_map (fun d => if Ascii.eqb c d then new else [d]) s.
Proof.
  unfold py_replace. induction s as [|d s IH]; [done|].
  cbn [replace_from startswith flat_map length Nat.sub].
  rewrite andb_true_r. destruct (Ascii.eqb c d); cbn [app]; by rewrite IH.
Qed.

(** The three replacements of [_escape] amount to one pass over the text. *)
Lemma _escape_chars text : _escape text = flat_map escape_char text.
Proof.
  unfold _escape.
  change (str ">") with [">"%char]. change (str "<") with ["<"%char].
  change (str "&") with ["&"%char]. rewrite !replace_one_char.
  induction text as [|c text IH]; [done|].
  cbn [flat_map]. rewrite !flat_map_app, IH. f_equal. each_char c.
Qed.

Lemma escaped_char_then c rest :
  escaped (escape_char c ++ rest) = escaped rest.
Proof. each_char c. Qed.

(** The text that [_escape] returns is escaped. *)
Lemma _escape_escaped text : escaped (_escape text) = true.
Proof.
  rewrite _escape_chars. induction text as [|c text IH]; [done|].
  cbn [flat_map]. by rewrite escaped_char_then.
Qed.

(** Without terms the highlighted text is the escaped text. *)
Lemma _highlight_no_terms text :
  _highlight text None None None None = Some (_escape text).
Proof. reflexivity. Qed.

End Escaping.

(** * Blank terms and the variants of a term *)

Lemma lstrip_nil_iff s : lstrip s = [] <-> forallb is_space s = true.
Proof.
  induction s as [|c s IH]; cbn; [done|].
  destruct (is_space c); cbn; [exact IH|]. split; discriminate.
Qed.

Lemma forallb_rev {A} (f : A -> bool) (s : list A) : forallb f (rev s) = forallb f s.
Proof.
  induction s as [|c s IH]; [done|]. cbn.
  rewrite forallb_app, IH. cbn. rewrite andb_true_r. apply andb_comm.
Qed.

Lemma py_strip_nil_iff s : py_strip s = [] <-> forallb is_space s = true.
Proof.
  unfold py_strip, rstrip. split.
  - intros H. apply (f_equal (@rev _)) in H. rewrite rev_involutive in H. cbn in H.
    apply lstrip_nil_iff in H. rewrite forallb_rev in H.
    destruct (lstrip s) as [|c u] eqn:E; [by apply lstrip_nil_iff|].
    pose proof (lstrip_head s c) as Hc. rewrite E in Hc. specialize (Hc eq_refl).
    cbn in H. rewrite Hc in H. discriminate.
  - intros H. apply lstrip_nil_iff in H. by rewrite H.
Qed.

Lemma canonical_nil_iff s : canonical s = [] <-> forallb is_space s = true.
Proof.
  rewrite <- py_strip_nil_iff. unfold canonical, py_lower. split.
  - apply map_eq_nil.
  - by intros ->.
Qed.

Lemma dedup_fresh l : forall seen v, v ∈ dedup l seen -> py_lower v ∉ seen.
Proof.
  induction l as [|x l IH]; intros seen v; cbn; [by intros ?%elem_of_nil|].
  destruct (bool_decide (py_lower x ∈ seen)) eqn:E.
  - apply IH.
  - apply bool_decide_eq_false in E. intros [->|H]%elem_of_cons; [done|].
    apply IH in H. set_solver.
Qed.

Lemma dedup_NoDup l : forall seen, NoDup (map py_lower (dedup l seen)).
Proof.
  induction l as [|x l IH]; intros seen; cbn; [constructor|].
  destruct (bool_decide (py_lower x ∈ seen)); [apply IH|]. cbn.
  apply NoDup_cons. split; [|apply IH].
  change (map py_lower ?l) with (py_lower <$> l).
  intros (w & Hw & Hin)%list_elem_of_fmap. apply dedup_fresh in Hin.
  rewrite <- Hw in Hin. set_solver.
Qed.

Lemma term_variants_head t : exists rest, term_variants t = canonical t :: rest.
Proof. unfold term_variants. cbn. eauto. Qed.

Lemma term_variants_canonical t : term_variants (canonical t) = term_variants t.
Proof. unfold term_variants. by rewrite canonical_idem. Qed.

(** * The flexible variant of a term *)

Lemma joined_text_starts sep_text tokens :
  startswith (str "(?i)") sep_text = false ->
  startswith (str "(?i)") (py_join sep_text (map re_escape tokens)) = false
  \/ (exists rest, tokens = [] :: rest).
Proof.
  intros Hsep. destruct tokens as [|tok tokens]; [by left|].
  destruct tok as [|c v]; [right; eauto|left].
  assert (H : forall rest, startswith (str "(?i)") (re_escape (c :: v) ++ rest) = false).
  { intros rest. rewrite re_escape_cons. unfold escaped_char.
    destruct (escape_special c) eqn:E; [done|].
    destruct (plain_char _ E) as (_ & _ & E3 & _).
    change (str "(?i)") with ("(" :: str "?i)"). cbn [app startswith].
    by rewrite Ascii.eqb_sym, E3. }
  destruct tokens as [|tok' tokens].
  - cbn [map py_join]. rewrite <- (app_nil_r (re_escape (c :: v))). apply H.
  - change (py_join sep_text (map re_escape ((c :: v) :: tok' :: tokens)))
      with (re_escape (c :: v) ++ sep_text
            ++ py_join sep_text (map re_escape (tok' :: tokens))).
    apply H.
Qed.

Lemma token_sep_variant_starts t :
  startswith (str "(?i)") (_token_sep_variant t) = false.
Proof.
  unfold _token_sep_variant.
  destruct (joined_text_starts SEP (split_seps t)) as [H|(rest & E)]; [done|done|].
  rewrite E. destruct rest as [|tok rest]; [done|].
  change (py_join SEP (map re_escape ([] :: tok :: rest)))
    with (SEP ++ py_join SEP (map re_escape (tok :: rest))).
  done.
Qed.

Lemma compile_token_sep_variant flag t :
  re_compile flag (_token_sep_variant t)
  = Some (Pattern flag (joined_items (Star sep_set) (split_seps t))).
Proof.
  unfold re_compile. rewrite token_sep_variant_starts.
  unfold _token_sep_variant.
  rewrite <- (app_nil_r (py_join _ _)).
  rewrite (parse_joined SEP (Star sep_set)); [| done | done | apply atom_at_SEP | done].
  cbn. by rewrite app_nil_r.
Qed.

(** * The surface is a part of the text *)

Lemma match_items_bound ic its : forall prev s n,
  match_items ic its prev s = Some n -> n <= length s.
Proof.
  induction its as [|it its IH]; intros prev s n; cbn.
  - intros [= <-]. lia.
  - destruct it as [cs|cs|cs| | |alts].
    + destruct s as [|c s]; [done|]. destruct (cs_match ic cs c); [|done].
      destruct (match_items ic its (Some c) s) as [m|] eqn:E; [|done].
      intros [= <-]. apply IH in E. cbn. lia.
    + intros H. apply greedy_sound in H as (run & s' & n' & -> & _ & H & ->).
      apply IH in H. rewrite length_app. lia.
    + destruct s as [|c s]; [done|]. destruct (cs_match ic cs c); [|done].
      destruct (greedy ic cs (match_items ic its) (Some c) s) as [m|] eqn:E; [|done].
      intros [= <-].
      apply greedy_sound in E as (run & s' & n' & -> & _ & H & ->).
      apply IH in H. cbn. rewrite length_app. lia.
    + destruct (word_opt prev); [done|apply IH].
    + destruct (word_opt (head s)); [done|apply IH].
    + intros H. apply first_alt_sound in H as (a & run & s' & n' & _ & -> & _ & H & ->).
      apply IH in H. rewrite length_app. lia.
Qed.

Lemma group0_part p text hit :
  re_search p text = Some hit ->
  exists pre post, text = pre ++ group0 text hit ++ post.
Proof.
  destruct hit as [j n]. unfold re_search. intros H.
  apply search_from_sound in H as (pre & s' & -> & -> & H & _).
  exists pre, (drop n s'). unfold group0. cbn.
  by rewrite drop_app_length, take_drop.
Qed.

Lemma any_match_part text ps :
  exists pre post, text = pre ++ any_match_with_surface text ps ++ post.
Proof.
  induction ps as [|p ps IH]; cbn.
  - by exists [], text.
  - destruct (re_search p text) as [hit|] eqn:E; [|exact IH].
    eapply group0_part, E.
Qed.

(** * Invariants of the loop over the terms *)

Lemma term_outcome_canon text raw :
  term_outcome text (canonical raw) = term_outcome text raw.
Proof. unfold term_outcome. by rewrite canonical_idem. Qed.

Lemma classified_empty text : classified text (Presence ∅ ∅ ∅).
Proof.
  intros k. cbn. rewrite lookup_empty. repeat split.
  - set_solver.
  - by intros [? ?].
  - done.
  - set_solver.
Qed.

Lemma classified_record text st raw o :
  classified text st -> term_outcome text raw = Some o ->
  classified text (record_outcome st o).
Proof.
  intros Hst Ho. pose proof (term_outcome_canonical _ _ _ Ho) as Hc.
  rewrite <- term_outcome_canon in Ho.
  destruct o as [|t s|t]; cbn; [done| |].
  - destruct Hc as (-> & _ & _). intros k. cbn.
    destruct (Hst k) as (H1 & H2 & H3).
    destruct (decide (k = canonical raw)) as [->|Hk].
    + rewrite lookup_insert_eq. repeat split; [by eauto|set_solver| |].
      * by intros s' [= <-].
      * intros Hm. apply H3 in Hm. congruence.
    + rewrite lookup_insert_ne by done. repeat split; [|set_solver|done|done].
      rewrite elem_of_union, elem_of_singleton. intros [?|?]; [done|by apply H1].
  - destruct Hc as (-> & _). intros k. cbn.
    destruct (Hst k) as (H1 & H2 & H3). repeat split; [by apply H1|by apply H1|done|].
    rewrite elem_of_union, elem_of_singleton. intros [->|?]; [done|by apply H3].
Qed.

Lemma classified_loop text terms : forall st st',
  classified text st -> pmws_loop text terms st = Some st' -> classified text st'.
Proof.
  induction terms as [|raw terms IH]; intros st st' Hst; cbn.
  - by intros [= <-].
  - rewrite pmws_step_outcome.
    destruct (term_outcome text raw) as [o|] eqn:Ho; [|done]. cbn.
    apply IH. eapply classified_record; eauto.
Qed.

Lemma classified_disjoint text r1 r2 :
  classified text r1 -> classified text r2 -> present r1 ## missing r2.
Proof.
  intros H1 H2 k Hp Hm.
  destruct (H1 k) as (Hs & Hf & _). apply Hs in Hp as [s Hp]. apply Hf in Hp.
  destruct (H2 k) as (_ & _ & Hn). apply Hn in Hm. congruence.
Qed.

Lemma classified_surface text r1 r2 k s1 s2 :
  classified text r1 -> classified text r2 ->
  surfaces r1 !! k = Some s1 -> surfaces r2 !! k = Some s2 -> s1 = s2.
Proof.
  intros H1 H2 E1 E2.
  destruct (H1 k) as (_ & Hf1 & _), (H2 k) as (_ & Hf2 & _).
  apply Hf1 in E1. apply Hf2 in E2. congruence.
Qed.

Lemma found_surface text k s :
  term_outcome text k = Some (Found k s) ->
  s <> [] /\ exists pre post, text = pre ++ s ++ post.
Proof.
  intros H. pose proof (term_outcome_canonical _ _ _ H) as (_ & _ & Hs).
  split; [done|]. unfold term_outcome in H.
  destruct (truthy (canonical k)); [|done].
  destruct (compile_patterns_for_term (canonical k)) as [ps|]; [|done]. cbn in H.
  destruct (truthy (any_match_with_surface text ps)); [|done].
  injection H as _ <-. apply any_match_part.
Qed.

(** The entries of the two sets are the canonical forms of the terms that
    are not blank. *)
Lemma pmws_loop_entries text terms : forall st st',
  pmws_loop text terms st = Some st' ->
  forall k, k ∈ present st' ∪ missing st'
            <-> (k <> [] /\ k ∈ map canonical terms) \/ k ∈ present st ∪ missing st.
Proof.
  induction terms as [|raw terms IH]; intros st st'; cbn.
  - intros [= <-] k. split; [by right|]. intros [[_ []%elem_of_nil]|]; done.
  - rewrite pmws_step_outcome.
    destruct (term_outcome text raw) as [o|] eqn:Ho; [|done]. cbn.
    intros H k. rewrite (IH _ _ H k). clear IH H.
    apply term_outcome_canonical in Ho. rewrite elem_of_cons.
    destruct o as [|t s|t]; cbn.
    + split; [tauto|]. intros [[Hk [->|Hin]]|]; [done|by left|by right].
    + destruct Ho as (-> & Hne & _). set_solver.
    + destruct Ho as (-> & Hne). set_solver.
Qed.

(** ** How two loops compose *)

Lemma merge_record st o r :
  merge (record_outcome st o) r = merge st (merge (record_outcome (Presence ∅ ∅ ∅) o) r).
Proof.
  unfold merge. destruct o as [|t s|t]; cbn.
  - f_equal; [set_solver|set_solver|].
    by rewrite (right_id_L ∅ (∪)).
  - f_equal; [set_solver|set_solver|].
    rewrite insert_union_singleton_l, insert_empty.
    by rewrite (assoc_L (∪)).
  - f_equal; [set_solver|set_solver|].
    by rewrite (right_id_L ∅ (∪)).
Qed.

Lemma pmws_loop_merge text terms : forall st,
  pmws_loop text terms st = merge st <$> pmws_loop text terms (Presence ∅ ∅ ∅).
Proof.
  induction terms as [|raw terms IH]; intros st; cbn.
  - unfold merge. cbn. destruct st as [p m s]. cbn. f_equal. f_equal.
    + set_solver.
    + set_solver.
    + by rewrite (left_id_L ∅ (∪)).
  - rewrite !pmws_step_outcome.
    destruct (term_outcome text raw) as [o|] eqn:Ho; [|done]. cbn.
    rewrite (IH (record_outcome st o)), (IH (record_outcome _ o)).
    destruct (pmws_loop text terms (Presence ∅ ∅ ∅)) as [r|]; [|done]. cbn.
    f_equal. apply merge_record.
Qed.

Lemma pmws_loop_app text l1 l2 : forall st,
  pmws_loop text (l1 ++ l2) st
  = (st1 ← pmws_loop text l1 st; pmws_loop text l2 st1).
Proof.
  induction l1 as [|raw l1 IH]; intros st; cbn; [done|].
  destruct (pmws_step text st raw) as [st1|]; cbn; [apply IH|done].
Qed.

(** ** The result depends on the set of the canonical terms only *)

Lemma pmws_loop_canonical text terms : forall st,
  pmws_loop text (map canonical terms) st = pmws_loop text terms st.
Proof.
  induction terms as [|raw terms IH]; intros st; cbn; [done|].
  rewrite !pmws_step_outcome, term_outcome_canon.
  destruct (term_outcome text raw); cbn; [apply IH|done].
Qed.

Lemma record_outcome_twice st o :
  record_outcome (record_outcome st o) o = record_outcome st o.
Proof.
  destruct o as [|t s|t]; cbn; [done| |].
  - f_equal; [set_solver|]. apply insert_insert_eq.
  - f_equal. set_solver.
Qed.

Lemma pmws_loop_twice text raw terms st :
  pmws_loop text (raw :: raw :: terms) st = pmws_loop text (raw :: terms) st.
Proof.
  cbn. rewrite pmws_step_outcome.
  destruct (term_outcome text raw) as [o|] eqn:Ho; [|done]. cbn.
  by rewrite pmws_step_outcome, Ho; cbn; rewrite record_outcome_twice.
Qed.

Lemma pmws_loop_remove_dups text terms : forall st,
  pmws_loop text (remove_dups terms) st = pmws_loop text terms st.
Proof.
  induction terms as [|raw terms IH]; intros st; [done|].
  cbn [remove_dups]. destruct (decide_rel elem_of raw terms) as [Hin|Hin].
  - rewrite IH. apply elem_of_Permutation in Hin as [rest Hrest].
    rewrite (pmws_loop_perm text (raw :: terms) (raw :: raw :: rest))
      by (by rewrite Hrest).
    rewrite pmws_loop_twice. by apply pmws_loop_perm.
  - cbn. destruct (pmws_step text st raw); cbn; [apply IH|done].
Qed.

Lemma pmws_loop_same_set text terms1 terms2 st :
  (list_to_set (map canonical terms1) : gset pystr) = list_to_set (map canonical terms2) ->
  pmws_loop text terms1 st = pmws_loop text terms2 st.
Proof.
  intros Hset.
  rewrite <- (pmws_loop_canonical text terms1), <- (pmws_loop_canonical text terms2).
  rewrite <- (pmws_loop_remove_dups text (map canonical terms1)),
          <- (pmws_loop_remove_dups text (map canonical terms2)).
  apply pmws_loop_perm. apply NoDup_Permutation; [apply NoDup_remove_dups..|].
  intros x. rewrite !elem_of_remove_dups.
  rewrite <- !(elem_of_list_to_set (C := gset pystr)). by rewrite Hset.
Qed.

(** * Letter case of the text *)

Lemma celt_match_lower c e : celt_match true (lower_char c) e = celt_match true c e.
Proof.
  destruct e as [d| |]; cbn.
  - by rewrite lower_char_idem.
  - apply is_space_lower.
  - apply is_word_lower.
Qed.

Lemma cs_match_lower cs c : cs_match true cs (lower_char c) = cs_match true cs c.
Proof.
  unfold cs_match. induction cs as [|e cs IH]; [done|]. cbn.
  by rewrite celt_match_lower, IH.
Qed.

Lemma word_opt_lower o : word_opt (lower_char <$> o) = word_opt o.
Proof. destruct o as [c|]; [apply is_word_lower|done]. Qed.

Ltac fold_lower c s :=
  change (Some (lower_char c)) with (lower_char <$> Some c);
  change (map lower_char s) with (py_lower s).

Lemma greedy_lower cs (k k' : cont) :
  (forall prev s, k' (lower_char <$> prev) (py_lower s) = k prev s) ->
  forall s prev,
    greedy true cs k' (lower_char <$> prev) (py_lower s) = greedy true cs k prev s.
Proof.
  intros Hk. induction s as [|c s IH]; intros prev; cbn.
  - apply (Hk prev []).
  - rewrite cs_match_lower. destruct (cs_match true cs c); [|apply (Hk prev (c :: s))].
    fold_lower c s. rewrite (IH (Some c)). destruct (greedy true cs k (Some c) s); [done|].
    apply (Hk prev (c :: s)).
Qed.

Lemma match_chars_lower a (k k' : cont) :
  (forall prev s, k' (lower_char <$> prev) (py_lower s) = k prev s) ->
  forall s prev,
    match_chars true a k' (lower_char <$> prev) (py_lower s)
    = match_chars true a k prev s.
Proof.
  intros Hk. induction a as [|cs a IH]; intros s prev; cbn; [apply Hk|].
  destruct s as [|c s]; [done|]. cbn. rewrite cs_match_lower.
  destruct (cs_match true cs c); [|done]. fold_lower c s. by rewrite (IH s (Some c)).
Qed.

Lemma first_alt_lower alts (k k' : cont) :
  (forall prev s, k' (lower_char <$> prev) (py_lower s) = k prev s) ->
  forall s prev,
    first_alt true alts k' (lower_char <$> prev) (py_lower s)
    = first_alt true alts k prev s.
Proof.
  intros Hk s prev. induction alts as [|a alts IH]; cbn; [done|].
  rewrite (match_chars_lower a k k' Hk). by rewrite IH.
Qed.

Lemma match_items_lower its : forall prev s,
  match_items true its (lower_char <$> prev) (py_lower s) = match_items true its prev s.
Proof.
  induction its as [|it its IH]; intros prev s; [done|].
  destruct it as [cs|cs|cs| | |alts]; cbn [match_items].
  - destruct s as [|c s]; [done|]. cbn. rewrite cs_match_lower.
    destruct (cs_match true cs c); [|done]. fold_lower c s. by rewrite (IH (Some c)).
  - by apply greedy_lower.
  - destruct s as [|c s]; [done|]. cbn. rewrite cs_match_lower.
    destruct (cs_match true cs c); [|done]. fold_lower c s.
    by rewrite (greedy_lower cs _ _ IH s (Some c)).
  - rewrite word_opt_lower. destruct (word_opt prev); [done|apply IH].
  - replace (word_opt (head (py_lower s))) with (word_opt (head s))
      by (destruct s; [done|symmetry; apply is_word_lower]).
    destruct (word_opt (head s)); [done|apply IH].
  - by apply first_alt_lower.
Qed.

Lemma search_from_lower its : forall s prev i,
  search_from true its (lower_char <$> prev) (py_lower s) i
  = search_from true its prev s i.
Proof.
  induction s as [|c s IH]; intros prev i.
  - cbn [search_from]. by rewrite <- (match_items_lower its prev []).
  - cbn [search_from py_lower map].
    change (lower_char c :: map lower_char s) with (py_lower (c :: s)).
    rewrite match_items_lower. destruct (match_items true its prev (c :: s)); [done|].
    apply (IH (Some c)).
Qed.

Lemma re_search_lower p text :
  ignorecase p = true -> re_search p (py_lower text) = re_search p text.
Proof.
  unfold re_search. intros ->. apply (search_from_lower (items p) text None).
Qed.

Lemma group0_lower text m : group0 (py_lower text) m = py_lower (group0 text m).
Proof.
  unfold group0, py_lower. change (map lower_char ?l) with (lower_char <$> l).
  by rewrite fmap_take, fmap_drop.
Qed.

Lemma any_match_lower text ps :
  Forall (fun p => ignorecase p = true) ps ->
  any_match_with_surface (py_lower text) ps
  = py_lower (any_match_with_surface text ps).
Proof.
  induction 1 as [|p ps Hp _ IH]; cbn; [done|].
  rewrite re_search_lower by done.
  destruct (re_search p text); [apply group0_lower|apply IH].
Qed.

Lemma pattern_text_compiled v p :
  re_compile false (pattern_text v) = Some p -> ignorecase p = true.
Proof.
  unfold pattern_text, re_compile.
  destruct (looks_like_pattern v).
  - change (startswith (str "(?i)") (str "(?i)(?<!\w)" ++ v ++ str "(?!\w)")) with true.
    cbn match. destruct (parse_items 0 _); [|done]. by intros [= <-].
  - change (startswith (str "(?i)") (str "(?i)(?<!\w)" ++ re_escape v ++ str "(?!\w)"))
      with true.
    cbn match. destruct (parse_items 0 _); [|done]. by intros [= <-].
Qed.

Lemma compile_patterns_ignorecase t ps :
  compile_patterns_for_term t = Some ps ->
  Forall (fun p => ignorecase p = true) ps.
Proof.
  unfold compile_patterns_for_term. intros H. apply mapM_Some in H.
  induction H as [|v p vs ps Hp _ IH]; constructor; [|done].
  eapply pattern_text_compiled, Hp.
Qed.

Lemma truthy_lower s : truthy (py_lower s) = truthy s.
Proof. by destruct s. Qed.

Lemma pmws_step_lower text st raw :
  pmws_step (py_lower text) (lower_surfaces st) raw
  = lower_surfaces <$> pmws_step text st raw.
Proof.
  unfold pmws_step. destruct (truthy (canonical raw)); [|done].
  destruct (compile_patterns_for_term (canonical raw)) as [ps|] eqn:E; [|done]. cbn.
  rewrite any_match_lower by (eapply compile_patterns_ignorecase, E).
  rewrite truthy_lower. destruct (truthy (any_match_with_surface text ps)); [|done].
  unfold lower_surfaces. cbn. by rewrite fmap_insert.
Qed.

Lemma pmws_loop_lower text terms : forall st,
  pmws_loop (py_lower text) terms (lower_surfaces st)
  = lower_surfaces <$> pmws_loop text terms st.
Proof.
  induction terms as [|raw terms IH]; intros st; cbn; [done|].
  rewrite pmws_step_lower. destruct (pmws_step text st raw) as [st1|]; cbn; [apply IH|done].
Qed.

Lemma pmws_lower text terms syn :
  present_missing_with_surface (py_lower text) terms syn
  = lower_surfaces <$> present_missing_with_surface text terms syn.
Proof.
  unfold present_missing_with_surface. rewrite <- pmws_loop_lower.
  unfold lower_surfaces. cbn. by rewrite fmap_empty.
Qed.

(** * Terms that compile *)

Lemma term_outcome_plain text raw :
  plain_term (canonical raw) = true \/ canonical raw = [] ->
  is_Some (term_outcome text raw).
Proof.
  unfold term_outcome. intros [H|H].
  - destruct (truthy (canonical raw)); [|done].
    rewrite compile_patterns_plain by (done || apply canonical_idem). by cbn.
  - by rewrite H.
Qed.

Lemma pmws_loop_plain text terms : forall st,
  Forall (fun raw => plain_term (canonical raw) = true \/ canonical raw = []) terms ->
  is_Some (pmws_loop text terms st).
Proof.
  induction terms as [|raw terms IH]; intros st Hall; cbn; [done|].
  apply Forall_cons in Hall as [H Hall].
  rewrite pmws_step_outcome.
  destruct (term_outcome_plain text raw H) as [o ->]. cbn. by apply IH.
Qed.

(** * Escaping is one to one *)

Lemma _escape_app a b : _escape (a ++ b) = _escape a ++ _escape b.
Proof. rewrite !_escape_chars. apply flat_map_app. Qed.

Lemma escape_char_cases c :
  (c = "&" /\ escape_char c = str "&amp;")
  \/ (c = "<" /\ escape_char c = str "&lt;")
  \/ (c = ">" /\ escape_char c = str "&gt;")
  \/ (c <> "&" /\ escape_char c = [c]).
Proof.
  unfold escape_char.
  destruct (Ascii.eqb_spec c "&") as [->|H1]; [by left|].
  destruct (Ascii.eqb_spec c "<") as [->|H2]; [by right; left|].
  destruct (Ascii.eqb_spec c ">") as [->|H3]; [by right; right; left|].
  by right; right; right.
Qed.

Lemma escape_char_inj c d r r' :
  escape_char c ++ r = escape_char d ++ r' -> c = d /\ r = r'.
Proof.
  destruct (escape_char_cases c) as [[-> ->]|[[-> ->]|[[-> ->]|[Hc ->]]]],
           (escape_char_cases d) as [[-> ->]|[[-> ->]|[[-> ->]|[Hd ->]]]];
    cbn; intros H; try discriminate H; try (by injection H); try (by injection H as <-);
    try (by injection H as ->).
Qed.

Lemma _escape_inj a : forall b, _escape a = _escape b -> a = b.
Proof.
  induction a as [|c a IH]; intros [|d b]; rewrite !_escape_chars; cbn [flat_map].
  - done.
  - destruct (escape_char_cases d) as [[_ ->]|[[_ ->]|[[_ ->]|[_ ->]]]]; discriminate.
  - destruct (escape_char_cases c) as [[_ ->]|[[_ ->]|[[_ ->]|[_ ->]]]]; discriminate.
  - intros H. apply escape_char_inj in H as [-> H]. f_equal. apply IH.
    by rewrite !_escape_chars.
Qed.

Lemma escaped_no_bracket s :
  escaped s = true -> Forall (fun c => c <> "<" /\ c <> ">") s.
Proof.
  induction s as [|c s IH]; [constructor|]. cbn [escaped].
  intros [[H1 _]%andb_prop H2]%andb_prop. constructor; [|by apply IH].
  clear -H1. split; intros ->; discriminate.
Qed.

(** * What the pattern of a bucket matches *)

(** A literal term stands at the head of the text, and no word character
    comes after it. *)
Lemma term_at a prev s x :
  match_chars true (chars a) (match_items true [NotAheadWord]) prev s = Some x
  <-> ci_prefix a s = true /\ word_opt (head (drop (length a) s)) = false
      /\ x = length a.
Proof.
  rewrite match_chars_literal. destruct (ci_prefix a s); [|by split; [|intros [? _]]].
  cbn [match_items]. destruct (word_opt (head (drop (length a) s))); cbn.
  - split; [done|]. by intros (_ & ? & _).
  - rewrite Nat.add_0_r. split; [by intros [= <-]|]. by intros (_ & _ & ->).
Qed.

Lemma guarded_alt_match l prev s n :
  longest_first l ->
  match_items true [NotBehindWord; Alt (map chars l); NotAheadWord] prev s = Some n
  <-> word_opt prev = false
      /\ (exists t, t ∈ l /\ length t = n /\ ci_prefix t s = true
                    /\ word_opt (head (drop n s)) = false)
      /\ (forall t, t ∈ l -> ci_prefix t s = true ->
            word_opt (head (drop (length t) s)) = false -> length t <= n).
Proof.
  intros Hl. cbn [match_items].
  destruct (word_opt prev); [by split; [|intros [? _]]|].
  pose proof (first_alt_longest l (match_items true [NotAheadWord]) prev s Hl) as H.
  destruct (first_alt true (map chars l) _ prev s) as [x|].
  - destruct H as (a & Ha & Hm & Hmax). apply term_at in Hm as (Hp & Hw & ->).
    split.
    + intros [= <-]. split; [done|]. split; [by exists a|].
      intros t Ht Hpt Hwt. apply Hmax; [done|].
      exists (length t). by apply term_at.
    + intros (_ & (t & Ht & <- & Hpt & Hwt) & Hmax'). f_equal.
      apply Nat.le_antisymm; [by apply Hmax'|].
      apply Hmax; [done|]. exists (length t). by apply term_at.
  - split; [done|]. intros (_ & (t & Ht & <- & Hpt & Hwt) & _).
    specialize (H t Ht).
    assert (E : match_chars true (chars t) (match_items true [NotAheadWord]) prev s
                = Some (length t)) by (by apply term_at).
    congruence.
Qed.

Lemma kept_terms (terms : list pystr) t :
  t ∈ sorted_by_len_desc
        (elements (list_to_set (filter (fun t => truthy t) terms) : gset pystr))
  <-> t ∈ terms /\ t <> [].
Proof.
  rewrite sorted_by_len_desc_perm, elem_of_elements, elem_of_list_to_set.
  rewrite list_elem_of_filter. split.
  - intros [H1 H2]. split; [done|]. by destruct t.
  - intros [H1 H2]. split; [by destruct t|done].
Qed.

Lemma compiled_terms_match terms p prev s n :
  _compile_terms terms = Some (Some p) ->
  match_items (ignorecase p) (items p) prev s = Some n
  <-> word_opt prev = false
      /\ (exists t, t ∈ default [] terms /\ t <> [] /\ length t = n
                    /\ ci_prefix t s = true /\ word_opt (head (drop n s)) = false)
      /\ (forall t, t ∈ default [] terms -> ci_prefix t s = true ->
            word_opt (head (drop (length t) s)) = false -> length t <= n).
Proof.
  rewrite _compile_terms_shape.
  destruct (filter (fun t => truthy t) (default [] terms)) as [|t0 kept] eqn:E; [done|].
  cbv beta iota. intros [= <-]. cbn [ignorecase items].
  change ({[t0]} ∪ list_to_set kept : gset pystr)
    with (list_to_set (t0 :: kept) : gset pystr).
  rewrite <- E.
  rewrite guarded_alt_match by apply sorted_by_len_desc_sorted.
  split; intros (Hprev & (t & Ht & Hrest) & Hmax); (split; [done|]); split.
  - apply kept_terms in Ht as [Ht Hne]. exists t. tauto.
  - intros t' Ht' Hp' Hw'. destruct t' as [|c t']; [cbn; lia|].
    apply Hmax; [|done..]. by apply kept_terms.
  - destruct Hrest as (Hne & Hrest). exists t. split; [by apply kept_terms|done].
  - intros t' Ht'%kept_terms Hp' Hw'. apply Hmax; tauto.
Qed.

(** ** The order in which the set is listed *)

Lemma search_from_ext ic its1 its2 :
  (forall prev s, match_items ic its1 prev s = match_items ic its2 prev s) ->
  forall s prev i, search_from ic its1 prev s i = search_from ic its2 prev s i.
Proof.
  intros H. induction s as [|c s IH]; intros prev i; cbn; rewrite H.
  - done.
  - destruct (match_items ic its2 prev (c :: s)); [done|apply IH].
Qed.

Lemma sub_from_ext {St} ic its1 its2 (f : pystr -> St -> pystr * St) :
  (forall prev s, match_items ic its1 prev s = match_items ic its2 prev s) ->
  forall s prev skip st,
    sub_from ic its1 f prev s skip st = sub_from ic its2 f prev s skip st.
Proof.
  intros H. induction s as [|c s IH]; intros prev skip st.
  - destruct skip; cbn; [by rewrite H|done].
  - destruct skip as [|k]; cbn; [|apply IH]. rewrite H.
    destruct (match_items ic its2 prev (c :: s)) as [[|n]|].
    + destruct (f _ st) as [r st1]. by rewrite IH.
    + destruct (f _ st) as [r st1]. by rewrite IH.
    + by rewrite IH.
Qed.

(** ** A text without matches *)

Lemma sub_from_no_match {St} ic its (f : pystr -> St -> pystr * St) : forall s prev st,
  (forall pre s', s = pre ++ s' -> match_items ic its (prev_after prev pre) s' = None) ->
  sub_from ic its f prev s 0 st = (s, st).
Proof.
  induction s as [|c s IH]; intros prev st H; cbn.
  - pose proof (H [] [] eq_refl) as H0. cbn in H0. by rewrite H0.
  - pose proof (H [] (c :: s) eq_refl) as H0. cbn in H0. rewrite H0.
    rewrite IH; [done|].
    intros pre s' ->. apply (H (c :: pre) s'). done.
Qed.

Lemma ci_contains_app t pre s :
  ci_prefix t s = true -> ci_contains t (pre ++ s) = true.
Proof.
  intros H. induction pre as [|c pre IH]; cbn [app].
  - destruct s; cbn; by rewrite H.
  - cbn [ci_contains]. rewrite IH. apply orb_true_r.
Qed.

Lemma wrap_no_occurrence terms cls html (repl : repl_list) rx :
  _compile_terms terms = Some rx ->
  (forall t, t ∈ default [] terms -> t <> [] -> ci_contains t html = false) ->
  wrap rx cls (html, repl) = (html, repl).
Proof.
  intros Hrx Hno. destruct rx as [p|]; [|done]. cbn [wrap fst snd].
  unfold re_sub. apply sub_from_no_match. intros pre s' ->.
  destruct (match_items _ _ _ s') as [n|] eqn:E; [|done].
  apply (compiled_terms_match _ _ _ _ _ Hrx) in E
    as (_ & (t & Ht & Hne & _ & Hp & _) & _).
  pose proof (Hno t Ht Hne) as Hc.
  by rewrite (ci_contains_app t pre s' Hp) in Hc.
Qed.

(** * Bounds on the scores *)

Lemma Qnat_le n m : n <= m -> (Qnat n <= Qnat m)%Q.
Proof. intros H. unfold Qnat. rewrite <- Zle_Qle. lia. Qed.

Lemma Qnat_pos n : 0 < n -> (0 < Qnat n)%Q.
Proof. intros H. unfold Qnat. change 0%Q with (inject_Z 0). rewrite <- Zlt_Qlt. lia. Qed.

(** A coverage is a ratio between 0 and 1. *)
Lemma coverage_unit n m : (0 <= Qnat n / Qnat (max 1 (n + m)) <= 1)%Q.
Proof.
  assert (Hd : (0 < Qnat (max 1 (n + m)))%Q) by (apply Qnat_pos; lia).
  split.
  - apply Qle_shift_div_l; [done|]. rewrite Qmult_0_l. apply Qnat_nonneg.
  - apply Qle_shift_div_r; [done|]. rewrite Qmult_1_l. apply Qnat_le. lia.
Qed.

Lemma coverage_none m : (Qnat 0 / Qnat (max 1 (0 + m)) == 0)%Q.
Proof. unfold Qdiv. apply Qmult_0_l. Qed.

Lemma coverage_full n m :
  (Qnat n / Qnat (max 1 (n + m)) == 1)%Q <-> 0 < n /\ m = 0.
Proof.
  assert (Hd : (0 < Qnat (max 1 (n + m)))%Q) by (apply Qnat_pos; lia).
  split.
  - intros H.
    assert (E : (Qnat n == Qnat (max 1 (n + m)))%Q).
    { rewrite <- (Qmult_1_l (Qnat (max 1 (n + m)))), <- H.
      unfold Qdiv. rewrite <- Qmult_assoc, (Qmult_comm (/ _)), Qmult_inv_r, Qmult_1_r;
        [reflexivity|]. intros E. rewrite E in Hd. by apply Qlt_irrefl in Hd. }
    unfold Qnat in E. apply (proj1 (inject_Z_injective _ _)) in E. lia.
  - intros [Hn ->]. replace (max 1 (n + 0)) with n by lia.
    unfold Qdiv. apply Qmult_inv_r. intros E.
    apply Qnat_pos in Hn. rewrite E in Hn. by apply Qlt_irrefl in Hn.
Qed.



Lemma py_int_mono x y : (x <= y)%Q -> (py_int x <= py_int y)%Z.
Proof.
  intros H. unfold py_int.
  destruct (Qle_bool 0 x) eqn:Hx, (Qle_bool 0 y) eqn:Hy.
  - by apply Qfloor_resp_le.
  - apply Qle_bool_iff in Hx. assert (Hy' : (0 <= y)%Q) by (eapply Qle_trans; eauto).
    apply Qle_bool_iff in Hy'. congruence.
  - apply Z.le_trans with 0%Z.
    + rewrite <- (Qceiling_Z 0). apply Qceiling_resp_le.
      apply Qlt_le_weak, Qnot_le_lt. intros Hc. change (inject_Z 0) with 0%Q in Hc.
      apply Qle_bool_iff in Hc. congruence.
    + rewrite <- (Qfloor_Z 0). apply Qfloor_resp_le. by apply Qle_bool_iff.
  - by apply Qceiling_resp_le.
Qed.

Lemma py_round_le x z : (x <= inject_Z z)%Q -> (py_round x <= z)%Z.
Proof.
  intros H. unfold py_round.
  assert (Hf : (Qfloor x <= z)%Z).
  { rewrite <- (Qfloor_Z z). by apply Qfloor_resp_le. }
  destruct (Z.eq_dec (Qfloor x) z) as [E|NE].
  - assert (L : (x - inject_Z (Qfloor x) ?= 1 # 2)%Q = Lt).
    { apply (proj1 (Qlt_alt _ _)). rewrite E. lra. }
    rewrite L. lia.
  - destruct (x - inject_Z (Qfloor x) ?= 1 # 2)%Q; [destruct (Z.even _)| |]; lia.
Qed.

Lemma clamp_mono x y : (x <= y)%Z -> (clamp x <= clamp y)%Z.
Proof. unfold clamp. lia. Qed.



Lemma weighted_formula_mono rp rm op om tp tm sp sm w l w' l' :
  w <= w' -> l <= l' ->
  (weighted_formula rp rm op om tp tm sp sm w' l'
   <= weighted_formula rp rm op om tp tm sp sm w l)%Q.
Proof.
  intros Hw Hl. unfold weighted_formula.
  set (b := (100 * _)%Q). clearbody b.
  assert (Hp : (Qnat (8 * rm + 3 * w + 2 * l) <= Qnat (8 * rm + 3 * w' + 2 * l'))%Q)
    by (apply Qnat_le; lia).
  assert (Hm : (Qmin (0.7 * b) (Qnat (8 * rm + 3 * w + 2 * l))
                <= Qmin (0.7 * b) (Qnat (8 * rm + 3 * w' + 2 * l')))%Q).
  { apply Q.min_le_compat_l. exact Hp. }
  clear Hp.
  remember (Qmin (0.7 * b) (Qnat (8 * rm + 3 * w + 2 * l))) as q eqn:Eq. clear Eq.
  remember (Qmin (0.7 * b) (Qnat (8 * rm + 3 * w' + 2 * l'))) as q' eqn:Eq. clear Eq.
  lra.
Qed.

Lemma simple_formula_bound rp rm op om c w l :
  (simple_formula rp rm op om c w l
   <= 65 * (Qnat rp / Qnat (max 1 (rp + rm))) + 25)%Q.
Proof.
  unfold simple_formula.
  pose proof (coverage_unit op om) as Ho.
  set (r := (Qnat rp / _)%Q). set (o := (Qnat op / _)%Q) in *. clearbody r o.
  assert (Hp : (0 <= inject_Z (5 * Z.of_nat c + 2 * Z.max 0 (Z.of_nat w - 3) + Z.of_nat l))%Q).
  { change 0%Q with (inject_Z 0). rewrite <- Zle_Qle. lia. }
  remember (inject_Z (5 * Z.of_nat c + 2 * Z.max 0 (Z.of_nat w - 3) + Z.of_nat l))
    as p eqn:Ep. clear Ep.
  lra.
Qed.

Lemma simple_formula_score rp rm op om c w l :
  (clamp (py_round (simple_formula rp rm op om c w l)) <= 90)%Z.
Proof.
  apply (clamp_mono _ 90), py_round_le.
  eapply Qle_trans; [apply simple_formula_bound|].
  pose proof (coverage_unit rp rm) as H.
  remember (Qnat rp / Qnat (max 1 (rp + rm)))%Q as r eqn:Er.
  clear Er. change (inject_Z 90) with 90%Q. lra.
Qed.

Lemma simple_formula_score_low rm op om c w l :
  (clamp (py_round (simple_formula 0 rm op om c w l)) <= 25)%Z.
Proof.
  apply (clamp_mono _ 25), py_round_le.
  eapply Qle_trans; [apply simple_formula_bound|].
  rewrite coverage_none. change (inject_Z 25) with 25%Q. lra.
Qed.

Lemma _ats_level_poor z : (z < 40)%Z -> _ats_level z = str "ats-poor".
Proof.
  intros H. unfold _ats_level.
  destruct (Z.leb_spec 80 z); [lia|]. destruct (Z.leb_spec 60 z); [lia|].
  destruct (Z.leb_spec 40 z); [lia|]. done.
Qed.

(** * Sorting *)

Lemma code_inj c d : code c = code d -> c = d.
Proof.
  unfold code. intros H.
  rewrite <- (ascii_N_embedding c), <- (ascii_N_embedding d). by rewrite H.
Qed.

Lemma str_le_total a : forall b, str_le a b = false -> str_le b a = true.
Proof.
  induction a as [|c a IH]; intros [|d b]; cbn; try done.
  destruct (N.ltb_spec (code c) (code d)) as [H1|H1]; [done|].
  destruct (N.ltb_spec (code d) (code c)) as [H2|H2]; [done|].
  apply IH.
Qed.

Lemma str_le_antisym a : forall b, str_le a b = true -> str_le b a = true -> a = b.
Proof.
  induction a as [|c a IH]; intros [|d b]; cbn; try done.
  destruct (N.ltb_spec (code c) (code d)) as [H1|H1],
           (N.ltb_spec (code d) (code c)) as [H2|H2]; try done; try lia.
  intros Ha Hb. f_equal; [apply code_inj; lia|by apply IH].
Qed.

Lemma str_le_trans a : forall b c,
  str_le a b = true -> str_le b c = true -> str_le a c = true.
Proof.
  induction a as [|x a IH]; intros [|y b] [|z c]; cbn; try done.
  destruct (N.ltb_spec (code x) (code y)) as [H1|H1],
           (N.ltb_spec (code y) (code x)) as [H2|H2],
           (N.ltb_spec (code y) (code z)) as [H3|H3],
           (N.ltb_spec (code z) (code y)) as [H4|H4],
           (N.ltb_spec (code x) (code z)) as [H5|H5],
           (N.ltb_spec (code z) (code x)) as [H6|H6];
    try done; try lia.
  apply IH.
Qed.

Lemma insert_sorted_perm x l : insert_sorted x l ≡ₚ x :: l.
Proof.
  induction l as [|y l IH]; cbn; [done|].
  destruct (str_le x y); [done|]. rewrite IH. apply Permutation_swap.
Qed.

Lemma py_sorted_perm l : py_sorted l ≡ₚ l.
Proof.
  induction l as [|x l IH]; cbn; [done|].
  by rewrite insert_sorted_perm, IH.
Qed.

Lemma insert_sorted_sorted x l :
  StronglySorted (fun a b => str_le a b = true) l ->
  StronglySorted (fun a b => str_le a b = true) (insert_sorted x l).
Proof.
  induction 1 as [|y l Hl IH Hy]; cbn; [repeat constructor|].
  destruct (str_le x y) eqn:E.
  - constructor; [by constructor|]. constructor; [done|].
    eapply Forall_impl; [exact Hy|]. intros z Hz. cbn in Hz. by eapply str_le_trans.
  - constructor; [done|]. rewrite insert_sorted_perm. constructor; [|done].
    by apply str_le_total.
Qed.

Lemma py_sorted_sorted l : StronglySorted (fun a b => str_le a b = true) (py_sorted l).
Proof.
  induction l as [|x l IH]; cbn; [constructor|]. by apply insert_sorted_sorted.
Qed.

Lemma py_sorted_elem x l : x ∈ py_sorted l <-> x ∈ l.
Proof. by rewrite py_sorted_perm. Qed.

Lemma py_sorted_length l : length (py_sorted l) = length l.
Proof. by rewrite py_sorted_perm. Qed.

Lemma py_sorted_NoDup l : NoDup l -> NoDup (py_sorted l).
Proof. by rewrite py_sorted_perm. Qed.

Lemma py_sorted_nil : py_sorted [] = [].
Proof. done. Qed.

(** * The report of [process_jd_route] *)

Lemma process_jd_report_inv resume jd a rep :
  process_jd_report resume jd a = Some rep ->
  exists r o t s h1 h2,
    present_missing_with_surface resume (default [] (jd_required_keywords a)) None = Some r
    /\ present_missing_with_surface resume (default [] (jd_optional_keywords a)) None = Some o
    /\ present_missing_with_surface resume (default [] (technical_skills a)) None = Some t
    /\ present_missing_with_surface resume (default [] (soft_skills a)) None = Some s
    /\ rep = JdReport h1 h2
          (py_sorted (elements (present r))) (py_sorted (elements (missing r)))
          (py_sorted (elements (present o))) (py_sorted (elements (missing o)))
          (py_sorted (elements (present t))) (py_sorted (elements (missing t)))
          (py_sorted (elements (present s))) (py_sorted (elements (missing s)))
          (py_sorted (elements (present r ∪ present o)))
          (py_sorted (elements (missing r ∪ missing o)))
          (py_sorted (elements (missing r ∩ HIGH_PRIORITY_SKILLS)))
          (py_sorted (elements (missing r ∖ HIGH_PRIORITY_SKILLS)))
          (size (missing r ∩ HIGH_PRIORITY_SKILLS))
          (size (matched_phrases resume (default [] (weak_language_phrases a))))
          (size (missing r ∪ missing o))
          (size (present r ∪ present o))
          (clamp (py_round
             (simple_formula (size (present r)) (size (missing r))
                (size (present o)) (size (missing o))
                (size (missing r ∩ HIGH_PRIORITY_SKILLS))
                (size (matched_phrases resume (default [] (weak_language_phrases a))))
                (size (matched_phrases resume (default [] (low_context_phrases a)))))))
          (_ats_level (clamp (py_round
             (simple_formula (size (present r)) (size (missing r))
                (size (present o)) (size (missing o))
                (size (missing r ∩ HIGH_PRIORITY_SKILLS))
                (size (matched_phrases resume (default [] (weak_language_phrases a))))
                (size (matched_phrases resume (default [] (low_context_phrases a))))))))
       .
Proof.
  unfold process_jd_report.
  destruct (present_missing_with_surface resume (default [] (jd_required_keywords a)) None)
    as [r|]; [|done].
  destruct (present_missing_with_surface resume (default [] (jd_optional_keywords a)) None)
    as [o|]; [|done].
  destruct (present_missing_with_surface resume (default [] (technical_skills a)) None)
    as [t|]; [|done].
  destruct (present_missing_with_surface resume (default [] (soft_skills a)) None)
    as [s|]; [|done].
  cbn [mbind option_bind].
  destruct (_highlight jd _ _ _ _) as [h1|]; [|done].
  cbn [mbind option_bind].
  destruct (_highlight resume _ _ _ _) as [h2|]; [|done].
  cbn [mbind option_bind].
  rewrite !occurs_any_spec. cbn [mbind option_bind].
  rewrite simple_score_formula, filter_elements_size.
  rewrite !py_sorted_length. unfold get_priority_skills.
  intros [= <-]. exists r, o, t, s, h1, h2. repeat split; try done.
Qed.

(** * The lists that the analysis returns *)

Lemma fromkeys_fresh l : forall seen x, x ∈ fromkeys l seen -> (x ∉ seen) /\ x ∈ l.
Proof.
  induction l as [|y l IH]; intros seen x; cbn; [by intros ?%elem_of_nil|].
  destruct (bool_decide (y ∈ seen)) eqn:E.
  - intros H. apply IH in H as [H1 H2]. split; [done|by right].
  - apply bool_decide_eq_false in E. intros [->|H]%elem_of_cons.
    + split; [done|by left].
    + apply IH in H as [H1 H2]. split; [set_solver|by right].
Qed.

Lemma fromkeys_NoDup l : forall seen, NoDup (fromkeys l seen).
Proof.
  induction l as [|y l IH]; intros seen; cbn; [constructor|].
  destruct (bool_decide (y ∈ seen)); [apply IH|].
  apply NoDup_cons. split; [|apply IH].
  intros H. apply fromkeys_fresh in H as [H _]. set_solver.
Qed.

Lemma fromkeys_elem l : forall seen x, x ∈ fromkeys l seen <-> x ∈ l /\ (x ∉ seen).
Proof.
  induction l as [|y l IH]; intros seen x; cbn.
  - split; [by intros ?%elem_of_nil|by intros [?%elem_of_nil _]].
  - destruct (bool_decide (y ∈ seen)) eqn:E.
    + apply bool_decide_eq_true in E. rewrite IH, elem_of_cons. split; [tauto|].
      intros [[->|H] Hs]; [done|tauto].
    + apply bool_decide_eq_false in E. rewrite !elem_of_cons, IH.
      destruct (decide (x = y)) as [->|Hxy]; [tauto|]. set_solver.
Qed.

Lemma normalize_keywords_elem arr k :
  k ∈ normalize_keywords arr <-> k <> [] /\ k ∈ map canonical arr.
Proof.
  unfold normalize_keywords.
  rewrite py_sorted_elem, elem_of_elements, elem_of_list_to_set.
  change (map ?f ?l) with (f <$> l). rewrite !list_elem_of_fmap. split.
  - intros (x & -> & Hx). apply list_elem_of_filter in Hx as [Ht Hx].
    split; [|by exists x].
    intros E. apply (f_equal (@length _)) in E. unfold py_lower in E.
    rewrite length_map in E. destruct (py_strip x); done.
  - intros (Hne & x & -> & Hx). exists x. split; [done|].
    apply list_elem_of_filter. split; [|done].
    unfold canonical, py_lower in Hne. destruct (py_strip x); done.
Qed.

Lemma normalize_keywords_NoDup arr : NoDup (normalize_keywords arr).
Proof. apply py_sorted_NoDup, NoDup_elements. Qed.

Lemma normalize_keywords_fixed arr k :
  k ∈ normalize_keywords arr -> k <> [] /\ canonical k = k.
Proof.
  intros [Hne Hk]%normalize_keywords_elem. split; [done|].
  change (map ?f ?l) with (f <$> l) in Hk.
  apply list_elem_of_fmap in Hk as (x & -> & _). apply canonical_idem.
Qed.

Lemma normalize_keywords_idem arr :
  normalize_keywords (normalize_keywords arr) = normalize_keywords arr.
Proof.
  unfold normalize_keywords at 1 3. f_equal. f_equal.
  apply set_eq. intros k. rewrite !elem_of_list_to_set.
  change (map ?f ?l) with (f <$> l). rewrite !list_elem_of_fmap. split.
  - intros (x & -> & Hx). apply list_elem_of_filter in Hx as [_ Hx].
    pose proof (normalize_keywords_fixed _ _ Hx) as [_ Hc]. unfold canonical in Hc.
    rewrite Hc. apply normalize_keywords_elem in Hx as [Hne Hx].
    change (map ?f ?l) with (f <$> l) in Hx.
    apply list_elem_of_fmap in Hx as (y & -> & Hy). exists y. split; [done|].
    apply list_elem_of_filter. split; [|done].
    unfold canonical, py_lower in Hne. destruct (py_strip y); done.
  - intros (x & -> & Hx). apply list_elem_of_filter in Hx as [Ht Hx].
    assert (Hin : canonical x ∈ normalize_keywords arr).
    { apply normalize_keywords_elem. split.
      - unfold canonical, py_lower. destruct (py_strip x); done.
      - change (map ?f ?l) with (f <$> l). apply list_elem_of_fmap. by exists x. }
    exists (canonical x). pose proof (normalize_keywords_fixed _ _ Hin) as [Hne Hc].
    split; [symmetry; apply canonical_idem|].
    apply list_elem_of_filter. split; [|done].
    unfold canonical in Hc. fold (canonical x) in *.
    assert (E : py_strip (canonical x) = canonical x).
    { unfold canonical at 1 2. by rewrite py_strip_lower, py_strip_idem. }
    rewrite E. by destruct (canonical x).
Qed.

Lemma pmws_fixed_terms text terms syn r :
  Forall (fun k => k <> [] /\ canonical k = k) terms -> NoDup terms ->
  present_missing_with_surface text terms syn = Some r ->
  size (present r) + size (missing r) = length terms
  /\ forall k, k ∈ terms <-> k ∈ present r \/ k ∈ missing r.
Proof.
  intros Hfix Hnd Hr. unfold present_missing_with_surface in Hr.
  pose proof (classified_loop _ _ _ _ (classified_empty text) Hr) as Hcl.
  pose proof (classified_disjoint _ _ _ Hcl Hcl) as Hdis.
  pose proof (pmws_loop_entries _ _ _ _ Hr) as Hent. cbn in Hent.
  assert (Hiff : forall k, k ∈ terms <-> k ∈ present r ∪ missing r).
  { intros k. rewrite Hent. rewrite Forall_forall in Hfix. split.
    - intros Hk. left. destruct (Hfix k Hk) as [Hne Hc]. split; [done|].
      change (map ?f ?l) with (f <$> l). apply list_elem_of_fmap. by exists k.
    - intros [[Hne Hk]|Hk]; [|set_solver].
      change (map ?f ?l) with (f <$> l) in Hk.
      apply list_elem_of_fmap in Hk as (x & -> & Hx).
      destruct (Hfix x Hx) as [_ ->]. done. }
  split; [|intros k; rewrite Hiff; set_solver].
  rewrite <- size_union by done.
  assert (E : present r ∪ missing r = list_to_set terms).
  { apply set_eq. intros k. rewrite elem_of_list_to_set. symmetry. apply Hiff. }
  rewrite E. by apply size_list_to_set.
Qed.

Lemma fromkeys_fixed l : forall seen,
  NoDup l -> (forall x, x ∈ l -> x ∉ seen) -> fromkeys l seen = l.
Proof.
  induction l as [|y l IH]; intros seen Hnd Hseen; cbn; [done|].
  apply NoDup_cons in Hnd as [Hy Hnd].
  rewrite bool_decide_eq_false_2 by (apply Hseen; by left).
  f_equal. apply IH; [done|]. intros x Hx.
  rewrite elem_of_union, elem_of_singleton. intros [->|Hs]; [done|].
  by apply (Hseen x); [right|].
Qed.

Lemma normalize_phrases_elem arr p :
  p ∈ normalize_phrases arr <-> p <> [] /\ p ∈ map py_strip arr.
Proof.
  unfold normalize_phrases. rewrite fromkeys_elem.
  change (map ?f ?l) with (f <$> l). rewrite !list_elem_of_fmap. split.
  - intros [(x & -> & Hx) _]. apply list_elem_of_filter in Hx as [Ht Hx].
    split; [by destruct (py_strip x)|by exists x].
  - intros (Hne & x & -> & Hx). split; [|set_solver]. exists x. split; [done|].
    apply list_elem_of_filter. split; [by destruct (py_strip x)|done].
Qed.

Lemma normalize_phrases_idem arr :
  normalize_phrases (normalize_phrases arr) = normalize_phrases arr.
Proof.
  assert (Hfix : forall p, p ∈ normalize_phrases arr -> p <> [] /\ py_strip p = p).
  { intros p [Hne Hp]%normalize_phrases_elem. split; [done|].
    change (map ?f ?l) with (f <$> l) in Hp.
    apply list_elem_of_fmap in Hp as (x & -> & _). apply py_strip_idem. }
  unfold normalize_phrases at 1.
  assert (E : map py_strip (filter (fun x => truthy (py_strip x)) (normalize_phrases arr))
              = normalize_phrases arr).
  { induction (normalize_phrases arr) as [|p l IH]; [done|].
    destruct (Hfix p) as [Hne Hp]; [by left|].
    rewrite filter_cons_True by (rewrite Hp; by destruct p).
    cbn [map]. rewrite Hp. f_equal. apply IH. intros q Hq. apply Hfix. by right. }
  rewrite E. apply fromkeys_fixed; [apply fromkeys_NoDup|set_solver].
Qed.

Lemma pmws_empty text syn :
  present_missing_with_surface text [] syn = Some (Presence ∅ ∅ ∅).
Proof. done. Qed.

Lemma _highlight_empty text :
  _highlight text (Some []) (Some []) None (Some []) = Some (_escape text)
  /\ _highlight text (Some []) None (Some []) (Some []) = Some (_escape text).
Proof. done. Qed.

Lemma size_list_to_set_le (l : list pystr) :
  size (list_to_set l : gset pystr) <= length l.
Proof.
  induction l as [|x l IH]; cbn; [by rewrite size_empty|].
  rewrite size_union_alt, size_singleton.
  assert (size (list_to_set l ∖ {[x]} : gset pystr) <= size (list_to_set l : gset pystr))
    by (apply subseteq_size; set_solver).
  lia.
Qed.

Lemma ci_prefix_lower p : forall s, ci_prefix (py_lower p) s = ci_prefix p s.
Proof.
  induction p as [|c p IH]; intros [|d s]; cbn; try done.
  by rewrite lower_char_idem, IH.
Qed.

Lemma ci_contains_lower p s : ci_contains (py_lower p) s = ci_contains p s.
Proof.
  induction s as [|d s IH]; cbn.
  - by rewrite ci_prefix_lower.
  - by rewrite ci_prefix_lower, IH.
Qed.

(** * The passes of [normalize_display] *)

Lemma blank_match c : cs_match false [CLit " "; CLit TAB] c = blank c.
Proof. unfold cs_match, blank. cbn. by rewrite orb_false_r. Qed.

Lemma line_feed_match c : cs_match false [CLit LF] c = line_feed c.
Proof. unfold cs_match, line_feed. cbn. by rewrite orb_false_r. Qed.

Lemma greedy_run cs prev s :
  greedy false cs (match_items false []) prev s = Some (run (cs_match false cs) s).
Proof.
  revert prev. induction s as [|c s IH]; intros prev; cbn; [done|].
  destruct (cs_match false cs c); [|done]. by rewrite IH.
Qed.

Lemma run_ext p q s : (forall c, p c = q c) -> run p s = run q s.
Proof. intros H. induction s as [|c s IH]; cbn; [done|]. by rewrite H, IH. Qed.

(** ** Runs of blanks *)

Lemma match_blanks cs prev s :
  match_items false [Plus cs] prev s
  = match s with
    | c :: s' => if cs_match false cs c
                 then Some (S (run (cs_match false cs) s')) else None
    | [] => None
    end.
Proof.
  destruct s as [|c s]; [done|]. cbn [match_items].
  destruct (cs_match false cs c); [|done]. by rewrite greedy_run.
Qed.

Lemma sub_blanks s :
  (forall prev,
     sub_from false [Plus [CLit " "; CLit TAB]] (fun _ (st : unit) => (str " ", st))
       prev s 0 tt = (squeeze s false, tt))
  /\ (forall prev,
        sub_from false [Plus [CLit " "; CLit TAB]] (fun _ (st : unit) => (str " ", st))
          prev s (run blank s) tt = (squeeze s true, tt)).
Proof.
  induction s as [|c s [IH1 IH2]].
  - split; intros prev; reflexivity.
  - assert (H1 : forall prev,
      sub_from false [Plus [CLit " "; CLit TAB]] (fun _ (st : unit) => (str " ", st))
        prev (c :: s) 0 tt = (squeeze (c :: s) false, tt)).
    { intros prev. cbn [sub_from squeeze]. rewrite match_blanks, blank_match.
      destruct (blank c).
      - rewrite (run_ext _ blank) by apply blank_match.
        by rewrite IH2.
      - by rewrite IH1. }
    split; [exact H1|]. intros prev. cbn [run squeeze].
    destruct (blank c) eqn:E.
    + cbn [sub_from]. apply IH2.
    + rewrite H1. cbn [squeeze]. by rewrite E.
Qed.

(** ** Runs of line feeds *)

Lemma match_line_feeds cs prev s :
  match_items false [Chr cs; Chr cs; Chr cs; Star cs] prev s
  = if (3 <=? run (cs_match false cs) s)%nat
    then Some (run (cs_match false cs) s) else None.
Proof.
  destruct s as [|c1 s]; [done|]. cbn [match_items run].
  destruct (cs_match false cs c1); [|done].
  destruct s as [|c2 s]; [done|]. cbn [run].
  destruct (cs_match false cs c2); [|done].
  destruct s as [|c3 s]; [done|]. cbn [run].
  destruct (cs_match false cs c3); [|done].
  by rewrite greedy_run.
Qed.

Lemma limit_sat s : forall k, 2 <= k -> limit s k = limit s 2.
Proof.
  induction s as [|c s IH]; intros k Hk; cbn [limit]; [done|].
  destruct (line_feed c); [|done].
  destruct (Nat.ltb_spec k 2); [lia|]. change (2 <? 2)%nat with false. cbv iota.
  rewrite (IH (S k)), (IH 3); [done|lia..].
Qed.

Lemma sub_line_feeds s :
  (forall prev seen, seen = 0 \/ seen + run line_feed s <= 2 ->
     sub_from false [Chr [CLit LF]; Chr [CLit LF]; Chr [CLit LF]; Star [CLit LF]]
       (fun _ (st : unit) => ([LF; LF], st)) prev s 0 tt = (limit s seen, tt))
  /\ (forall prev,
        sub_from false [Chr [CLit LF]; Chr [CLit LF]; Chr [CLit LF]; Star [CLit LF]]
          (fun _ (st : unit) => ([LF; LF], st)) prev s (run line_feed s) tt
        = (limit s 2, tt)).
Proof.
  induction s as [|c s [IH1 IH2]].
  - split; intros; reflexivity.
  - assert (H1 : forall prev seen, seen = 0 \/ seen + run line_feed (c :: s) <= 2 ->
      sub_from false [Chr [CLit LF]; Chr [CLit LF]; Chr [CLit LF]; Star [CLit LF]]
        (fun _ (st : unit) => ([LF; LF], st)) prev (c :: s) 0 tt
      = (limit (c :: s) seen, tt)).
    { intros prev seen Hseen. cbn [sub_from].
      rewrite match_line_feeds, (run_ext _ line_feed) by apply line_feed_match.
      cbn [run limit] in *. destruct (line_feed c) eqn:E.
      - destruct (Nat.leb_spec 3 (S (run line_feed s))) as [H3|H3].
        + destruct Hseen as [->|Hseen]; [|lia]. rewrite IH2.
          apply Ascii.eqb_eq in E. subst c. change (0 <? 2)%nat with true.
          cbv iota. cbn [app].
          clear IH1 IH2.
          destruct s as [|c2 s2]; [cbn in H3; lia|]. cbn [run limit] in *.
          destruct (line_feed c2) eqn:E2; [|lia].
          apply Ascii.eqb_eq in E2. subst c2.
          change (1 <? 2)%nat with true. change (2 <? 2)%nat with false. cbv iota.
          by rewrite (limit_sat s2 3) by lia.
        + rewrite (IH1 (Some c) (S seen)) by lia.
          destruct (Nat.ltb_spec seen 2); [done|lia].
      - by rewrite (IH1 (Some c) 0) by (by left). }
    split; [exact H1|]. intros prev. cbn [run limit].
    destruct (line_feed c) eqn:E.
    + cbn [sub_from]. rewrite IH2. change (2 <? 2)%nat with false. cbv iota.
      by rewrite (limit_sat s 3) by lia.
    + rewrite (H1 prev 0) by (by left). cbn [limit]. by rewrite E.
Qed.

Lemma replace_char_map c x s :
  py_replace [c] [x] s = map (fun d => if Ascii.eqb c d then x else d) s.
Proof.
  rewrite replace_one_char. induction s as [|d s IH]; cbn; [done|].
  rewrite IH. by destruct (Ascii.eqb c d).
Qed.

(** The function as a composition of passes over the text. *)
Lemma normalize_display_eq text :
  normalize_display text
  = py_strip
      (limit
         (squeeze
            (map (fun c => if Ascii.eqb NBSP c then " "%char else c)
               (map (fun c => if Ascii.eqb CR c then LF else c)
                  (py_replace [CR; LF] [LF] text))) false) 0).
Proof.
  unfold normalize_display, re_sub_text, re_sub, blanks_run, line_feeds_run.
  cbn [ignorecase items].
  rewrite (proj1 (sub_line_feeds _) None 0) by (by left).
  rewrite (proj1 (sub_blanks _) None). cbn [fst].
  change (str " ") with [" "%char]. by rewrite !replace_char_map.
Qed.

(** ** The shape of the result *)

Lemma line_feed_eq c : line_feed c = true -> c = LF.
Proof. apply Ascii.eqb_eq. Qed.


Lemma squeeze_single s : forall b, single_blanks (squeeze s b) b = true.
Proof.
  induction s as [|c s IH]; intros b; cbn [squeeze]; [done|].
  destruct (blank c) eqn:E.
  - destruct b; [apply IH|]. cbn. apply IH.
  - cbn [single_blanks].
    destruct (Ascii.eqb_spec c " ") as [->|_]; [done|apply IH].
Qed.

Lemma squeeze_chars s : forall b,
  Forall (fun c => blank c = true -> c = " "%char) (squeeze s b).
Proof.
  induction s as [|c s IH]; intros b; cbn [squeeze]; [constructor|].
  destruct (blank c) eqn:E.
  - destruct b; [apply IH|]. constructor; [done|apply IH].
  - constructor; [|apply IH]. intros E'. congruence.
Qed.

Lemma Forall_squeeze (P : ascii -> Prop) s : forall b,
  P " "%char -> Forall P s -> Forall P (squeeze s b).
Proof.
  intros b Hb H. revert b. induction H as [|c s Hc _ IH]; intros b; cbn [squeeze];
    [constructor|].
  destruct (blank c); [destruct b|]; auto.
Qed.

Lemma Forall_limit (P : ascii -> Prop) s : forall k,
  Forall P s -> Forall P (limit s k).
Proof.
  intros k H. revert k. induction H as [|c s Hc _ IH]; intros k; cbn [limit];
    [constructor|].
  destruct (line_feed c); [destruct (k <? 2)%nat|]; auto.
Qed.

Lemma limit_single s : forall k b,
  (1 <= k -> b = false) -> single_blanks s b = true ->
  single_blanks (limit s k) b = true.
Proof.
  induction s as [|c s IH]; intros k b Hk; cbn [limit single_blanks]; [done|].
  destruct (line_feed c) eqn:E.
  - apply line_feed_eq in E. subst c. change (Ascii.eqb LF " ") with false. cbv iota.
    intros H. destruct (Nat.ltb_spec k 2).
    + cbn [single_blanks]. change (Ascii.eqb LF " ") with false. cbv iota.
      by apply IH.
    + rewrite Hk by lia. by apply IH.
  - cbn [single_blanks]. destruct (Ascii.eqb c " ").
    + intros [H1 H2]%andb_prop. rewrite H1. cbn. apply IH; [lia|done].
    + apply IH. lia.
Qed.

Lemma short_runs_weaken s : forall k k',
  k <= k' -> short_runs s k' = true -> short_runs s k = true.
Proof.
  induction s as [|c s IH]; intros k k' Hk; cbn [short_runs]; [done|].
  destruct (line_feed c); [|done].
  intros [H1 H2]%andb_prop. apply Nat.ltb_lt in H1.
  apply andb_true_intro. split; [apply Nat.ltb_lt; lia|].
  apply (IH _ (S k')); [lia|done].
Qed.

Lemma limit_short s : forall k, short_runs (limit s k) k = true.
Proof.
  induction s as [|c s IH]; intros k; cbn [limit]; [done|].
  destruct (line_feed c) eqn:E.
  - destruct (Nat.ltb_spec k 2) as [H|H].
    + cbn [short_runs]. rewrite E. apply andb_true_intro.
      split; [by apply Nat.ltb_lt|apply IH].
    + apply (short_runs_weaken _ k (S k)); [lia|apply IH].
  - cbn [short_runs]. rewrite E. apply IH.
Qed.

(** ** Trimming keeps a part of the text *)

Lemma lstrip_suffix s :
  exists t, s = t ++ lstrip s /\ Forall (fun c => is_space c = true) t.
Proof.
  induction s as [|c s (t & Ht & Hs)]; cbn; [by exists []|].
  destruct (is_space c) eqn:E.
  - exists (c :: t). split; [cbn; by f_equal|by constructor].
  - by exists [].
Qed.

Lemma py_strip_infix s :
  exists a b, s = a ++ py_strip s ++ b
    /\ Forall (fun c => is_space c = true) a /\ Forall (fun c => is_space c = true) b.
Proof.
  unfold py_strip, rstrip.
  destruct (lstrip_suffix s) as (a & Ha & Hsa).
  destruct (lstrip_suffix (rev (lstrip s))) as (t & Ht & Hst).
  exists a, (rev t). repeat split; [|done|by apply Forall_rev].
  rewrite Ha at 1. f_equal.
  rewrite <- (rev_involutive (lstrip s)), Ht at 1. by rewrite rev_app_distr.
Qed.

Lemma single_blanks_weaken s : single_blanks s true = true -> single_blanks s false = true.
Proof.
  destruct s as [|c s]; [done|]. cbn. by destruct (Ascii.eqb c " ").
Qed.

Lemma single_blanks_suffix t : forall s b,
  single_blanks (t ++ s) b = true -> single_blanks s false = true.
Proof.
  induction t as [|c t IH]; intros s b; cbn [app single_blanks].
  - destruct b; [apply single_blanks_weaken|done].
  - destruct (Ascii.eqb c " "); [intros [_ H]%andb_prop|intros H]; by eapply IH.
Qed.

Lemma single_blanks_prefix a : forall t b,
  single_blanks (a ++ t) b = true -> single_blanks a b = true.
Proof.
  induction a as [|c a IH]; intros t b; cbn [app single_blanks]; [done|].
  destruct (Ascii.eqb c " ").
  - intros [H1 H2]%andb_prop. rewrite H1. cbn. by eapply IH.
  - apply IH.
Qed.

Lemma short_runs_suffix t : forall s k,
  short_runs (t ++ s) k = true -> short_runs s 0 = true.
Proof.
  induction t as [|c t IH]; intros s k; cbn [app short_runs].
  - apply short_runs_weaken. lia.
  - destruct (line_feed c); [intros [_ H]%andb_prop|intros H]; by eapply IH.
Qed.

Lemma short_runs_prefix a : forall t k,
  short_runs (a ++ t) k = true -> short_runs a k = true.
Proof.
  induction a as [|c a IH]; intros t k; cbn [app short_runs]; [done|].
  destruct (line_feed c).
  - intros [H1 H2]%andb_prop. rewrite H1. cbn. by eapply IH.
  - apply IH.
Qed.

Lemma single_blanks_strip s :
  single_blanks s false = true -> single_blanks (py_strip s) false = true.
Proof.
  destruct (py_strip_infix s) as (a & b & E & _). intros H. rewrite E in H.
  apply single_blanks_suffix in H. by apply single_blanks_prefix in H.
Qed.

Lemma short_runs_strip s :
  short_runs s 0 = true -> short_runs (py_strip s) 0 = true.
Proof.
  destruct (py_strip_infix s) as (a & b & E & _). intros H. rewrite E in H.
  apply short_runs_suffix in H. by apply short_runs_prefix in H.
Qed.

Lemma Forall_strip (P : ascii -> Prop) s : Forall P s -> Forall P (py_strip s).
Proof.
  destruct (py_strip_infix s) as (a & b & E & _). intros H. rewrite E in H.
  apply Forall_app in H as [_ H]. by apply Forall_app in H as [H _].
Qed.

Lemma single_blanks_contains s b :
  single_blanks s b = true -> py_contains (str "  ") s = false.
Proof.
  intros H. destruct (py_contains (str "  ") s) eqn:E; [|done].
  apply py_contains_inv in E as (a & t & ->).
  by apply single_blanks_suffix in H.
Qed.

Lemma short_runs_contains s k :
  short_runs s k = true -> py_contains [LF; LF; LF] s = false.
Proof.
  intros H. destruct (py_contains [LF; LF; LF] s) eqn:E; [|done].
  apply py_contains_inv in E as (a & t & ->).
  by apply short_runs_suffix in H.
Qed.

Lemma py_strip_ends s :
  (forall c, head (py_strip s) = Some c -> is_space c = false)
  /\ (forall c, last (py_strip s) = Some c -> is_space c = false).
Proof.
  split.
  - apply rstrip_head, lstrip_head.
  - intros c. unfold py_strip, rstrip.
    assert (E : forall l : pystr, last (rev l) = head l).
    { intros [|d l]; [done|]. cbn [rev]. by rewrite last_snoc. }
    rewrite E. apply lstrip_head.
Qed.

(** The text before trimming. *)
Lemma normalize_display_passes text :
  exists u,
    normalize_display text = py_strip u
    /\ Forall (fun c => c <> TAB /\ c <> CR /\ c <> NBSP) u
    /\ single_blanks u false = true
    /\ short_runs u 0 = true.
Proof.
  rewrite normalize_display_eq. eexists. split; [reflexivity|].
  split; [|split].
  - set (u := map _ (map _ _)).
    assert (Hu : Forall (fun c => c <> CR /\ c <> NBSP) u).
    { unfold u. apply Forall_forall. intros c Hc.
      change (map ?f ?l) with (f <$> l) in Hc.
      apply list_elem_of_fmap in Hc as (d & -> & Hd).
      apply list_elem_of_fmap in Hd as (e & -> & _).
      destruct (Ascii.eqb_spec CR e) as [<-|H1]; [by split|].
      destruct (Ascii.eqb_spec NBSP e) as [<-|H2]; [by split|].
      split; congruence. }
    apply Forall_limit.
    pose proof (squeeze_chars u false) as H1.
    assert (H2 : Forall (fun c => c <> CR /\ c <> NBSP) (squeeze u false))
      by (by apply Forall_squeeze).
    rewrite Forall_forall in H1, H2. apply Forall_forall. intros c Hc.
    destruct (H2 c Hc) as [? ?]. split; [|done].
    intros ->. by specialize (H1 TAB Hc eq_refl).
  - apply limit_single; [lia|apply squeeze_single].
  - apply limit_short.
Qed.

(** ** A normalized text is left as it is *)






(** ** The characters that are not white space *)










(** * The claims *)

(** ** Highlighting *)

(** C1 fails on the code.  The text [A & B] is escaped to [A &amp; B]; the
    good term [amp] then matches inside the entity, so that the ampersand of
    the text is followed by the markup of a span and no longer by [amp;]:
    outside the span the result reads [A &; B], with a bare ampersand. *)
Theorem highlight_splits_entity :
  _highlight (str "A & B") (Some [str "amp"]) None None None
  = Some (str "A &" ++ span (str "hl-good") (str "amp") ++ str "; B")
  /\ (outside_spans <$> _highlight (str "A & B") (Some [str "amp"]) None None None)
     = Some (str "A &; B")
  /\ (escaped <$>
        (outside_spans <$> _highlight (str "A & B") (Some [str "amp"]) None None None))
     = Some false.
Proof. vm_compute. repeat split; reflexivity. Qed.

(** C6 fails on the code.  The term [h0] is both critical and good.  The
    critical pass replaces the text [h0] by the placeholder [@@H0@@]; the
    good pass matches [H0] inside that placeholder, so the only span of the
    result has class [hl-good].  In the second input the critical word
    [Python] is lost in the same way. *)
Theorem highlight_placeholder_rematched :
  _highlight (str "h0") (Some [str "h0"]) (Some [str "h0"]) None None
  = Some (str "@@" ++ span (str "hl-good") (str "H0") ++ str "@@")
  /\ _highlight (str "Python and H0") (Some [str "h0"]) (Some [str "python"]) None None
     = Some (str "@@" ++ span (str "hl-good") (str "H0") ++ str "@@ and "
             ++ span (str "hl-good") (str "H0")).
Proof. vm_compute. split; reflexivity. Qed.

(** C10.  In [C++ is great] with the critical term [c++], the text [C++] is
    wrapped in a span of class [hl-critical] and nothing else is; a [++]
    that does not follow a [c] is left alone, and a term in a longer word is
    not matched.  The pattern of a bucket is, for any terms, the choice
    between the terms as literals, letter case apart, between the two guards
    that refuse a word character just before and just after: so a term that
    ends in punctuation matches at the ends of the text and next to
    punctuation. *)
Theorem highlight_cpp_scenario :
  _highlight (str "C++ is great") None (Some [str "c++"]) None None
  = Some (span (str "hl-critical") (str "C++") ++ str " is great")
  /\ _highlight (str "i++ and ++ and C++") None (Some [str "c++"]) None None
     = Some (str "i++ and ++ and " ++ span (str "hl-critical") (str "C++"))
  /\ _highlight (str "(c++)/C++, abc++") None (Some [str "c++"]) None None
     = Some (str "(" ++ span (str "hl-critical") (str "c++") ++ str ")/"
             ++ span (str "hl-critical") (str "C++") ++ str ", abc++")
  /\ forall terms : option (list pystr),
       _compile_terms terms
       = Some (match filter (fun t => truthy t) (default [] terms) with
               | [] => None
               | kept =>
                   Some (Pattern true
                           [ NotBehindWord;
                             Alt (map chars
                                    (sorted_by_len_desc
                                       (elements (list_to_set kept : gset pystr))));
                             NotAheadWord ])
               end).
Proof.
  split; [by vm_compute|]. split; [by vm_compute|]. split; [by vm_compute|].
  apply _compile_terms_shape.
Qed.

(** ** Scores *)

(** C2.  Whatever the eight sets and the penalty inputs are, the score of
    [compute_metrics] and the score of [process_jd_route] are integers
    between 0 and 100. *)
Theorem ats_scores_within_0_100 :
  (forall (pr mr po mo pt mt ps ms : gset pystr) (weak low : list pystr),
     (0 <= ats_score (weighted_metrics pr mr po mo pt mt ps ms weak low) <= 100)%Z)
  /\ (forall (pr mr po mo : gset pystr) critical_count improvements_count low_count,
        (0 <= simple_score pr mr po mo critical_count improvements_count low_count
           <= 100)%Z).
Proof.
  split; intros.
  - unfold weighted_metrics. cbn [ats_score]. lia.
  - unfold simple_score. lia.
Qed.




(** ** Presence of terms *)

(** C5, as the code has it.  For a term whose canonical form has a character
    other than a separator and is not taken for a ready pattern, the term is
    reported present exactly when one of its declared variants occurs in the
    text, letter case apart, with no word character just before and none just
    after; it is reported missing otherwise.  When present, the canonical
    form is the entry of the present set, and the surface is a substring of
    the text as it stands there: the leftmost occurrence of the first
    declared variant that occurs.  So [power bi] is found in a text that
    has [PowerBI], with that surface. *)
Theorem presence_iff_variant_occurs :
  present_missing_with_surface (str "Built dashboards in PowerBI") [str "power bi"] None
  = Some (Presence {[ str "power bi" ]} ∅ {[ str "power bi" := str "PowerBI" ]})
  /\ forall (text raw : pystr) (syn : option (gmap pystr (list pystr))),
       plain_term (canonical raw) = true ->
       exists r,
         present_missing_with_surface text [raw] syn = Some r
         /\ (canonical raw ∈ present r
             <-> exists v, v ∈ declared_variants (canonical raw) /\ occurs v text)
         /\ (canonical raw ∈ missing r
             <-> ~ exists v, v ∈ declared_variants (canonical raw) /\ occurs v text)
         /\ ((exists v, v ∈ declared_variants (canonical raw) /\ occurs v text) ->
             present r = {[ canonical raw ]} /\ missing r = ∅
             /\ exists s, surfaces r = {[ canonical raw := s ]}
                          /\ first_surface (canonical raw) text s)
         /\ ((~ exists v, v ∈ declared_variants (canonical raw) /\ occurs v text) ->
             r = Presence ∅ {[ canonical raw ]} ∅).
Proof.
  split; [by vm_compute|].
  intros text raw syn Hp. rewrite pmws_plain_term by done. cbv zeta.
  destruct (surface_cases text (canonical raw) (canonical_idem raw) Hp)
    as [[E Hnone]|[Hne Hfirst]].
  - rewrite E. cbn [truthy]. eexists. split; [done|]. cbn [present missing surfaces].
    assert (Hno : ~ exists v, v ∈ declared_variants (canonical raw) /\ occurs v text).
    { intros (v & Hv & Hocc). by apply (Hnone v). }
    split; [|split; [|split]].
    + split; [by intros ?%elem_of_empty|done].
    + split; [done|]. intros _. by apply elem_of_singleton.
    + done.
    + done.
  - destruct (any_match_with_surface text _) as [|c s] eqn:E; [done|].
    cbn [truthy]. eexists. split; [done|]. cbn [present missing surfaces].
    assert (Hyes : exists v, v ∈ declared_variants (canonical raw) /\ occurs v text).
    { destruct Hfirst as (before & v & after & pre & post & Hd & _ & Hocc & _).
      exists v. split; [rewrite Hd; apply elem_of_app; right; by left|].
      by exists pre, (c :: s), post. }
    split; [|split; [|split]].
    + split; [done|]. intros _. by apply elem_of_singleton.
    + split; [by intros ?%elem_of_empty|done].
    + intros _. split; [done|]. split; [done|]. by exists (c :: s).
    + done.
Qed.

(** The theorem at work: [ Node.js ], trimmed and in lower case, against a
    text that has [Node JS]. *)
Lemma presence_iff_variant_occurs_witness :
  exists r,
    present_missing_with_surface (str "We use Node JS daily") [str " Node.js "] None
    = Some r
    /\ (str "node.js" ∈ present r
        <-> exists v, v ∈ declared_variants (str "node.js")
                      /\ occurs v (str "We use Node JS daily")).
Proof.
  destruct (proj2 presence_iff_variant_occurs
              (str "We use Node JS daily") (str " Node.js ") None)
    as (r & Hr & Hpresent & _).
  - reflexivity.
  - exists r. split; [exact Hr|exact Hpresent].
Defined.

(** C5 as stated fails on two kinds of terms.  The term [a\sb] is taken for
    a ready pattern: it is reported present in [a b], where neither it nor a
    variant of it occurs.  The term [--] has separators only: its variant of
    tokens joined by blanks occurs in [( - )], between the parenthesis and the
    hyphen, and yet the term is reported missing, because the variant before
    it matches the empty string at the start of the text. *)
Lemma presence_not_iff_variant_occurs :
  (present_missing_with_surface (str "a b") [str "a\sb"] None
   = Some (Presence {[ str "a\sb" ]} ∅ {[ str "a\sb" := str "a b" ]})
   /\ forall v, v ∈ declared_variants (canonical (str "a\sb")) ->
                ~ occurs v (str "a b"))
  /\ (present_missing_with_surface (str "( - )") [str "--"] None
      = Some (Presence ∅ {[ str "--" ]} ∅)
      /\ Spaced [[]; []] ∈ declared_variants (canonical (str "--"))
      /\ occurs (Spaced [[]; []]) (str "( - )")).
Proof.
  split; [split|split; [|split]].
  - by vm_compute.
  - intros v Hv.
    replace (declared_variants (canonical (str "a\sb")))
      with [Literal (str "a\sb")] in Hv by (by vm_compute).
    apply list_elem_of_singleton in Hv as ->.
    intros (pre & m & post & E & Hm & _). cbn [surface_of] in Hm.
    apply same_letters_length in Hm. apply (f_equal length) in E.
    rewrite !length_app in E. cbn in E, Hm. lia.
  - by vm_compute.
  - replace (declared_variants (canonical (str "--")))
      with [Literal (str "--"); Flexible [[]; []]; Spaced [[]; []]]
      by (by vm_compute).
    do 2 right. left.
  - exists (str "("), (str " "), (str "- )").
    split; [done|]. split; [|by split].
    exists [], (str " "), []. split; [done|]. split; [done|].
    split; [|done]. split; [done|]. by repeat constructor.
Qed.

(** C7.  [present_missing_with_surface] never reads its [synonyms] argument:
    any two values give the same three results, and the aliases that
    [compute_metrics] passes have no effect on what it computes. *)
Theorem synonyms_argument_unused (text : pystr) (terms : list pystr)
    (syn1 syn2 : option (gmap pystr (list pystr))) :
  present_missing_with_surface text terms syn1
  = present_missing_with_surface text terms syn2
  /\ forall a roles1 roles2,
       compute_metrics text a roles1 = compute_metrics text a roles2.
Proof. split; reflexivity. Qed.

(** C8.  Two runs on the same text and the same terms give the same present
    set, the same missing set and the same surfaces; the results depend
    neither on the order in which the terms are listed nor on the synonyms
    argument. *)
Theorem presence_deterministic (text : pystr) (terms1 terms2 : list pystr)
    (syn1 syn2 : option (gmap pystr (list pystr))) :
  terms1 ≡ₚ terms2 ->
  present_missing_with_surface text terms1 syn1
  = present_missing_with_surface text terms2 syn2.
Proof. intros H. unfold present_missing_with_surface. by apply pmws_loop_perm. Qed.

(** The theorem at work: the same terms again, and the same terms in
    another order with a synonyms argument. *)
Lemma presence_deterministic_witness :
  present_missing_with_surface (str "Python and SQL") [str "sql"; str "go"; str "python"] None
  = present_missing_with_surface (str "Python and SQL") [str "sql"; str "go"; str "python"] None
  /\ present_missing_with_surface (str "Python and SQL") [str "sql"; str "go"; str "python"] None
     = present_missing_with_surface (str "Python and SQL") [str "python"; str "sql"; str "go"]
         (Some SYNONYMS).
Proof.
  split.
  - apply presence_deterministic. reflexivity.
  - apply presence_deterministic.
    symmetry. apply (Permutation_cons_append [str "sql"; str "go"] (str "python")).
Defined.



(** * Further properties of the code *)

(** ** src/utils/keyword_matcher.py *)

(** X1.  [canonical] gives a normal form: applying it again changes
    nothing, the result is in lower case and has no white space at either
    end; and the result is empty exactly for the terms made of white space
    only, which are the terms that the loop over the terms skips. *)
Theorem canonical_normal_form (term : pystr) :
  canonical (canonical term) = canonical term
  /\ py_lower (canonical term) = canonical term
  /\ py_strip (canonical term) = canonical term
  /\ (canonical term = [] <-> forallb is_space term = true).
Proof.
  split; [apply canonical_idem|]. split; [apply py_lower_idem|].
  split; [|apply canonical_nil_iff].
  unfold canonical. by rewrite py_strip_lower, py_strip_idem.
Qed.

(** X2.  The first variant of a term is its canonical form, no two variants
    are equal up to letter case, and the variants depend on the canonical
    form of the term only. *)
Theorem term_variants_first_and_distinct (term : pystr) :
  (exists rest, term_variants term = canonical term :: rest)
  /\ NoDup (map py_lower (term_variants term))
  /\ term_variants (canonical term) = term_variants term.
Proof.
  split; [apply term_variants_head|]. split; [|apply term_variants_canonical].
  apply dedup_NoDup.
Qed.

(** X3.  The text that [_token_sep_variant] builds is a pattern for every
    term: it compiles, and what it matches are the tokens of the term, each
    up to letter case, with any run of separators, the empty run included,
    between two neighbours. *)
Theorem token_sep_variant_compiles (t : pystr) :
  re_compile true (_token_sep_variant t)
  = Some (Pattern true (joined_items (Star sep_set) (split_seps t)))
  /\ forall m, lang true (joined_items (Star sep_set) (split_seps t)) m
               <-> joined separators (split_seps t) m.
Proof.
  split; [apply compile_token_sep_variant|].
  apply lang_joined. apply lang_star_sep.
Qed.

(** X4.  What [any_match_with_surface] returns is a part of the text, taken
    as it stands there, whatever the patterns are. *)
Theorem surface_is_part_of_text (text : pystr) (patterns : list pattern) :
  exists pre post, text = pre ++ any_match_with_surface text patterns ++ post.
Proof. apply any_match_part. Qed.

(** X5.  On plain terms the matcher never fails: when every term is blank
    or, in canonical form, plain (it has a character that is not a separator
    and is not taken for a ready pattern), every pattern compiles and
    [present_missing_with_surface] returns its three results. *)
Theorem plain_terms_never_raise (text : pystr) (terms : list pystr)
    (syn : option (gmap pystr (list pystr))) :
  Forall (fun raw => plain_term (canonical raw) = true \/ canonical raw = []) terms ->
  is_Some (present_missing_with_surface text terms syn).
Proof. apply pmws_loop_plain. Qed.

Lemma plain_terms_never_raise_witness :
  is_Some (present_missing_with_surface (str "Power-BI and C++")
             [str " Power BI "; str "  "; str "c++"; str "node.js"] None).
Proof.
  apply (plain_terms_never_raise (str "Power-BI and C++")
           [str " Power BI "; str "  "; str "c++"; str "node.js"] None).
  repeat (constructor; [vm_compute; auto|]). constructor.
Defined.

(** X6.  The two sets of [present_missing] split the terms: no term is in
    both, and together they hold the canonical forms of the terms that are
    not blank, and nothing else. *)
Theorem present_missing_partition (text : pystr) (terms : list pystr)
    (p m : gset pystr) :
  present_missing text terms = Some (p, m) ->
  p ## m /\ forall k, k ∈ p ∪ m <-> k <> [] /\ k ∈ map canonical terms.
Proof.
  unfold present_missing, present_missing_with_surface.
  destruct (pmws_loop text terms (Presence ∅ ∅ ∅)) as [r|] eqn:Hr; [|done].
  intros [= <- <-].
  pose proof (classified_loop _ _ _ _ (classified_empty text) Hr) as Hcl.
  split; [by eapply classified_disjoint|].
  intros k. rewrite (pmws_loop_entries _ _ _ _ Hr k). cbn. set_solver.
Qed.

Lemma present_missing_partition_witness :
  ({[ str "sql" ]} : gset pystr) ## {[ str "go" ]}.
Proof.
  refine (proj1 (present_missing_partition (str "Python and SQL")
                   [str "sql"; str " Go "; str " "; str "SQL"] _ _ _)).
  vm_compute. reflexivity.
Defined.

(** X7.  The surfaces are recorded for the present terms and for no other
    term, and each surface is a part of the text that is not empty. *)
Theorem surfaces_of_present_terms (text : pystr) (terms : list pystr)
    (syn : option (gmap pystr (list pystr))) (r : presence) :
  present_missing_with_surface text terms syn = Some r ->
  dom (surfaces r) = present r
  /\ forall k s, surfaces r !! k = Some s ->
       s <> [] /\ exists pre post, text = pre ++ s ++ post.
Proof.
  unfold present_missing_with_surface. intros Hr.
  pose proof (classified_loop _ _ _ _ (classified_empty text) Hr) as Hcl.
  split.
  - apply set_eq. intros k. rewrite elem_of_dom. symmetry. apply Hcl.
  - intros k s Hs. destruct (Hcl k) as (_ & Hf & _). eapply found_surface, Hf, Hs.
Qed.

Lemma surfaces_of_present_terms_witness :
  dom ({[ str "power bi" := str "PowerBI" ]} : gmap pystr pystr)
  = ({[ str "power bi" ]} : gset pystr).
Proof.
  refine (proj1 (surfaces_of_present_terms (str "Built dashboards in PowerBI")
                   [str "power bi"; str "go"] None
                   (Presence {[ str "power bi" ]} {[ str "go" ]}
                      {[ str "power bi" := str "PowerBI" ]}) _)).
  vm_compute. reflexivity.
Defined.

(** X8.  The results for two lists of terms that are put together are the
    results for each list, united; where both lists have a surface for a
    term, the two surfaces are the same. *)
Theorem presence_of_concatenation (text : pystr) (terms1 terms2 : list pystr)
    (syn : option (gmap pystr (list pystr))) :
  present_missing_with_surface text (terms1 ++ terms2) syn
  = (r1 ← present_missing_with_surface text terms1 syn;
     r2 ← present_missing_with_surface text terms2 syn;
     Some (Presence (present r1 ∪ present r2) (missing r1 ∪ missing r2)
             (surfaces r2 ∪ surfaces r1))).
Proof.
  unfold present_missing_with_surface. rewrite pmws_loop_app.
  destruct (pmws_loop text terms1 (Presence ∅ ∅ ∅)) as [r1|]; [|done]. cbn.
  rewrite pmws_loop_merge.
  by destruct (pmws_loop text terms2 (Presence ∅ ∅ ∅)).
Qed.

(** X9.  The buckets agree: for one text, a term that one call reports as
    present is not reported as missing by another call, and two calls
    record the same surface for a term. *)
Theorem presence_consistent_across_buckets (text : pystr)
    (terms1 terms2 : list pystr) (syn1 syn2 : option (gmap pystr (list pystr)))
    (r1 r2 : presence) :
  present_missing_with_surface text terms1 syn1 = Some r1 ->
  present_missing_with_surface text terms2 syn2 = Some r2 ->
  present r1 ## missing r2
  /\ forall k s1 s2,
       surfaces r1 !! k = Some s1 -> surfaces r2 !! k = Some s2 -> s1 = s2.
Proof.
  unfold present_missing_with_surface. intros H1 H2.
  pose proof (classified_loop _ _ _ _ (classified_empty text) H1) as C1.
  pose proof (classified_loop _ _ _ _ (classified_empty text) H2) as C2.
  split; [by eapply classified_disjoint|].
  intros k s1 s2. by eapply classified_surface.
Qed.

Lemma presence_consistent_across_buckets_witness :
  ({[ str "python" ]} : gset pystr) ## {[ str "go" ]}.
Proof.
  refine (proj1 (presence_consistent_across_buckets (str "Python and SQL")
                   [str "python"; str "rust"] [str "Python"; str "go"] None None
                   (Presence {[ str "python" ]} {[ str "rust" ]}
                      {[ str "python" := str "Python" ]})
                   (Presence {[ str "python" ]} {[ str "go" ]}
                      {[ str "python" := str "Python" ]}) _ _)).
  - vm_compute. reflexivity.
  - vm_compute. reflexivity.
Defined.

(** X10.  The results depend on the set of the canonical forms of the terms
    only: the order of the terms, repetitions, letter case and white space
    around a term make no difference, and neither does the third
    argument. *)
Theorem presence_depends_on_term_set (text : pystr) (terms1 terms2 : list pystr)
    (syn1 syn2 : option (gmap pystr (list pystr))) :
  (list_to_set (map canonical terms1) : gset pystr)
  = list_to_set (map canonical terms2) ->
  present_missing_with_surface text terms1 syn1
  = present_missing_with_surface text terms2 syn2.
Proof. apply pmws_loop_same_set. Qed.

Lemma presence_depends_on_term_set_witness :
  present_missing_with_surface (str "Python and SQL")
    [str "sql"; str " Go "; str "SQL"; str "go"] None
  = present_missing_with_surface (str "Python and SQL")
      [str "GO"; str "sql "] (Some SYNONYMS).
Proof.
  apply (presence_depends_on_term_set (str "Python and SQL")
           [str "sql"; str " Go "; str "SQL"; str "go"] [str "GO"; str "sql "]).
  vm_compute. reflexivity.
Defined.

(** X11.  Matching does not look at the letter case of the text: on the
    text in lower case the present and the missing terms are the same, and
    the surfaces are those of the text, in lower case. *)
Theorem presence_ignores_case_of_text (text : pystr) (terms : list pystr)
    (syn : option (gmap pystr (list pystr))) :
  present_missing_with_surface (py_lower text) terms syn
  = (fun r => Presence (present r) (missing r) (py_lower <$> surfaces r))
      <$> present_missing_with_surface text terms syn
  /\ present_missing (py_lower text) terms = present_missing text terms.
Proof.
  split; [apply pmws_lower|].
  unfold present_missing. rewrite pmws_lower.
  by destruct (present_missing_with_surface text terms None).
Qed.

(** ** app.py *)

(** X12.  The text that [_escape] returns holds no angle bracket, and each
    of its ampersands starts one of the entities [&amp;], [&lt;] and
    [&gt;]. *)
Theorem escape_output_safe (text : pystr) :
  Forall (fun c => c <> "<" /\ c <> ">") (_escape text)
  /\ escaped (_escape text) = true.
Proof.
  split; [|apply _escape_escaped]. apply escaped_no_bracket, _escape_escaped.
Qed.

(** X13.  [_escape] loses nothing: it works character by character, so the
    escape of two texts put together is the two escapes put together, and
    two texts with the same escape are the same text. *)
Theorem escape_one_to_one (a b : pystr) :
  _escape (a ++ b) = _escape a ++ _escape b
  /\ (_escape a = _escape b -> a = b).
Proof. split; [apply _escape_app|apply _escape_inj]. Qed.

Lemma escape_one_to_one_witness : str "a<b & c" = str "a<b & c".
Proof.
  refine (proj2 (escape_one_to_one (str "a<b & c") (str "a<b & c")) _).
  vm_compute. reflexivity.
Defined.

(** X14.  The pattern of a bucket matches, at a place that does not follow
    a word character, the longest term of the bucket that stands there, up
    to letter case, with no word character after it: the length of the
    match is the length of that term. *)
Theorem compiled_terms_longest_match (terms : option (list pystr)) (p : pattern)
    (prev : option ascii) (s : pystr) (n : nat) :
  _compile_terms terms = Some (Some p) ->
  match_items (ignorecase p) (items p) prev s = Some n
  <-> word_opt prev = false
      /\ (exists t, t ∈ default [] terms /\ t <> [] /\ length t = n
                    /\ ci_prefix t s = true /\ word_opt (head (drop n s)) = false)
      /\ (forall t, t ∈ default [] terms -> ci_prefix t s = true ->
            word_opt (head (drop (length t) s)) = false -> length t <= n).
Proof. apply compiled_terms_match. Qed.

Lemma compiled_terms_longest_match_witness :
  match_items true
    [NotBehindWord; Alt [chars (str "node.js"); chars (str "node")]; NotAheadWord]
    (Some " "%char) (str "Node.js, Go") = Some 7
  <-> word_opt (Some " "%char) = false
      /\ (exists t, t ∈ [str "node"; str "node.js"] /\ t <> [] /\ length t = 7
                    /\ ci_prefix t (str "Node.js, Go") = true
                    /\ word_opt (head (drop 7 (str "Node.js, Go"))) = false)
      /\ (forall t, t ∈ [str "node"; str "node.js"] ->
            ci_prefix t (str "Node.js, Go") = true ->
            word_opt (head (drop (length t) (str "Node.js, Go"))) = false ->
            length t <= 7).
Proof.
  apply (compiled_terms_longest_match (Some [str "node"; str "node.js"])
           (Pattern true
              [NotBehindWord; Alt [chars (str "node.js"); chars (str "node")];
               NotAheadWord])
           (Some " "%char) (str "Node.js, Go") 7).
  vm_compute. reflexivity.
Defined.

(** X15.  The order in which Python lists the set of the terms does not
    matter: whatever the order, the text of the pattern compiles, and the
    pattern finds and replaces the same matches as the pattern of
    [_compile_terms]. *)
Theorem compile_terms_listing_order (terms listed : list pystr) (p : pattern) :
  _compile_terms (Some terms) = Some (Some p) ->
  listed ≡ₚ elements (list_to_set (filter (fun t => truthy t) terms) : gset pystr) ->
  exists p',
    re_compile false
      (str "(?i)(?<!\w)(?:"
       ++ py_join (str "|") (map re_escape (sorted_by_len_desc listed))
       ++ str ")(?!\w)") = Some p'
    /\ (forall text, re_search p' text = re_search p text)
    /\ (forall (St : Type) (f : pystr -> St -> pystr * St) text st,
          re_sub p' f text st = re_sub p f text st).
Proof.
  rewrite _compile_terms_shape. change (default [] (Some terms)) with terms.
  destruct (filter (fun t => truthy t) terms) as [|t0 kept] eqn:E; [done|].
  cbv beta iota. intros [= <-] Hperm.
  assert (Hne : sorted_by_len_desc listed <> []).
  { apply sorted_by_len_desc_nonempty. intros ->.
    apply Permutation_nil_l in Hperm. symmetry in Hperm.
    apply elements_empty_inv in Hperm.
    assert (t0 ∈ (list_to_set (t0 :: kept) : gset pystr)) by set_solver.
    set_solver. }
  eexists. split; [by apply re_compile_terms|].
  pose proof (compile_terms_any_order (t0 :: kept) listed) as Hsame.
  split.
  - intros text. unfold re_search. cbn [ignorecase items].
    apply search_from_ext. intros prev s. by apply Hsame.
  - intros St f text st. unfold re_sub. cbn [ignorecase items].
    apply sub_from_ext. intros prev s. by apply Hsame.
Qed.

Lemma compile_terms_listing_order_witness :
  exists p',
    re_compile false
      (str "(?i)(?<!\w)(?:"
       ++ py_join (str "|")
            (map re_escape (sorted_by_len_desc [str "go"; str "c++"; str "Go"]))
       ++ str ")(?!\w)") = Some p'
    /\ (forall text,
          re_search p' text
          = re_search
              (Pattern true
                 [NotBehindWord;
                  Alt (map chars
                         (sorted_by_len_desc
                            (elements (list_to_set [str "Go"; str "c++"; str "go"]
                                         : gset pystr))));
                  NotAheadWord]) text)
    /\ (forall (St : Type) (f : pystr -> St -> pystr * St) text st,
          re_sub p' f text st
          = re_sub
              (Pattern true
                 [NotBehindWord;
                  Alt (map chars
                         (sorted_by_len_desc
                            (elements (list_to_set [str "Go"; str "c++"; str "go"]
                                         : gset pystr))));
                  NotAheadWord]) f text st).
Proof.
  apply (compile_terms_listing_order [str "Go"; str "c++"; str "go"]
           [str "go"; str "c++"; str "Go"]).
  - vm_compute. reflexivity.
  - apply NoDup_Permutation.
    + repeat (constructor; [vm_compute; set_solver|]). constructor.
    + apply NoDup_elements.
    + intros x. rewrite elem_of_elements. vm_compute (filter _ _). set_solver.
Defined.

(** X16.  [_highlight] never fails: whatever characters the terms hold,
    the patterns of the four buckets compile. *)
Theorem highlight_never_raises (text : pystr)
    (good critical medium low : option (list pystr)) :
  is_Some (_highlight text good critical medium low).
Proof. apply _highlight_total. Qed.

(** X17.  When no term occurs in the escaped text, letter case apart, the
    highlighted text is the escaped text: no markup is added and no
    placeholder is left. *)
Theorem highlight_without_occurrence (text : pystr)
    (good critical medium low : option (list pystr)) :
  (forall t, t ∈ default [] good ++ default [] critical
                 ++ default [] medium ++ default [] low ->
             t <> [] -> ci_contains t (_escape text) = false) ->
  _highlight text good critical medium low = Some (_escape text).
Proof.
  intros Hno. unfold _highlight.
  destruct (_compile_terms critical) as [rc|] eqn:Ec;
    [|by rewrite _compile_terms_shape in Ec].
  destruct (_compile_terms medium) as [rm|] eqn:Em;
    [|by rewrite _compile_terms_shape in Em].
  destruct (_compile_terms low) as [rl|] eqn:El;
    [|by rewrite _compile_terms_shape in El].
  destruct (_compile_terms good) as [rg|] eqn:Eg;
    [|by rewrite _compile_terms_shape in Eg].
  cbn [mbind option_bind].
  rewrite (wrap_no_occurrence critical _ _ _ rc Ec)
    by (intros t Ht; apply Hno; rewrite !elem_of_app; tauto).
  rewrite (wrap_no_occurrence medium _ _ _ rm Em)
    by (intros t Ht; apply Hno; rewrite !elem_of_app; tauto).
  rewrite (wrap_no_occurrence low _ _ _ rl El)
    by (intros t Ht; apply Hno; rewrite !elem_of_app; tauto).
  rewrite (wrap_no_occurrence good _ _ _ rg Eg)
    by (intros t Ht; apply Hno; rewrite !elem_of_app; tauto).
  done.
Qed.

Lemma highlight_without_occurrence_witness :
  _highlight (str "R&D <lab>") (Some [str "python"]) None None (Some [str ""])
  = Some (_escape (str "R&D <lab>")).
Proof.
  apply (highlight_without_occurrence (str "R&D <lab>")
           (Some [str "python"]) None None (Some [str ""])).
  intros t Ht Hne. cbn in Ht.
  apply elem_of_cons in Ht as [->|Ht]; [vm_compute; reflexivity|].
  apply elem_of_cons in Ht as [->|Ht]; [done|]. by apply elem_of_nil in Ht.
Defined.

(** X18.  Each coverage of [compute_metrics] is a ratio between 0 and 1;
    the coverage of the required keywords is 1 exactly when a required
    keyword is present and none is missing. *)
Theorem coverage_ratios (pr mr po mo pt mt ps ms : gset pystr)
    (weak low : list pystr) :
  let m := weighted_metrics pr mr po mo pt mt ps ms weak low in
  (0 <= req_coverage m <= 1)%Q
  /\ (0 <= opt_coverage m <= 1)%Q
  /\ (0 <= tech_coverage m <= 1)%Q
  /\ ((req_coverage m == 1)%Q <-> pr <> ∅ /\ mr = ∅).
Proof.
  cbn [weighted_metrics req_coverage opt_coverage tech_coverage].
  split; [apply coverage_unit|]. split; [apply coverage_unit|].
  split; [apply coverage_unit|]. rewrite coverage_full. split.
  - intros [H1 H2]. split.
    + intros ->. rewrite size_empty in H1. lia.
    + by apply size_empty_inv, leibniz_equiv in H2.
  - intros [H1 ->]. rewrite size_empty. split; [|done].
    destruct (size pr) eqn:E; [|lia]. by apply size_empty_inv, leibniz_equiv in E.
Qed.


(** X20.  More weak or low-context phrases never raise the weighted
    score. *)
Theorem weighted_score_monotone (pr mr po mo pt mt ps ms : gset pystr)
    (weak low weak' low' : list pystr) :
  length weak <= length weak' -> length low <= length low' ->
  (ats_score (weighted_metrics pr mr po mo pt mt ps ms weak' low')
   <= ats_score (weighted_metrics pr mr po mo pt mt ps ms weak low))%Z.
Proof.
  intros Hw Hl. rewrite !weighted_score_eq.
  apply clamp_mono, py_int_mono. by apply weighted_formula_mono.
Qed.

Lemma weighted_score_monotone_witness :
  (ats_score (weighted_metrics {[ str "python" ]} ∅ ∅ ∅ ∅ ∅ ∅ ∅
                [str "helped"; str "worked on"] [])
   <= ats_score (weighted_metrics {[ str "python" ]} ∅ ∅ ∅ ∅ ∅ ∅ ∅
                   [str "helped"] []))%Z.
Proof.
  apply (weighted_score_monotone {[ str "python" ]} ∅ ∅ ∅ ∅ ∅ ∅ ∅
           [str "helped"] [] [str "helped"; str "worked on"] []).
  - simpl. lia.
  - simpl. lia.
Defined.

(** X21.  The score of [process_jd_route] is at most 90, and at most 25
    when no required keyword is present: the two coverages weigh 65 and 25
    and the penalty is never negative. *)
Theorem simple_score_at_most_90 (pr mr po mo : gset pystr)
    (critical_count improvements_count low_count : nat) :
  (simple_score pr mr po mo critical_count improvements_count low_count <= 90)%Z
  /\ (simple_score ∅ mr po mo critical_count improvements_count low_count <= 25)%Z.
Proof.
  rewrite !simple_score_formula, size_empty. split.
  - apply simple_formula_score.
  - apply simple_formula_score_low.
Qed.

(** X22.  In the report of [process_jd_route] the missing required
    keywords are split in two: the critical ones, which are the high
    priority skills, and the others; and the number of critical issues is
    the number of the critical ones. *)
Theorem report_critical_split (resume jd : pystr) (a : analysis) (rep : jd_report) :
  process_jd_report resume jd a = Some rep ->
  critical_missing_required rep ++ non_critical_missing_required rep
    ≡ₚ missing_required rep
  /\ Forall (fun k => k ∈ HIGH_PRIORITY_SKILLS) (critical_missing_required rep)
  /\ Forall (fun k => k ∉ HIGH_PRIORITY_SKILLS) (non_critical_missing_required rep)
  /\ critical_issues rep = length (critical_missing_required rep).
Proof.
  intros H. apply process_jd_report_inv in H
    as (r & o & t & s & h1 & h2 & _ & _ & _ & _ & ->).
  cbn [critical_missing_required non_critical_missing_required missing_required
       critical_issues].
  repeat split.
  - rewrite !py_sorted_perm.
    rewrite <- elements_disj_union by (intros k; rewrite elem_of_intersection, elem_of_difference; tauto).
    assert (E : missing r ∩ HIGH_PRIORITY_SKILLS ∪ missing r ∖ HIGH_PRIORITY_SKILLS
                = missing r).
    { apply set_eq. intros k.
      rewrite elem_of_union, elem_of_intersection, elem_of_difference.
      destruct (decide (k ∈ HIGH_PRIORITY_SKILLS)); tauto. }
    by rewrite E.
  - apply Forall_forall. intros k Hk.
    apply py_sorted_elem, elem_of_elements, elem_of_intersection in Hk. tauto.
  - apply Forall_forall. intros k Hk.
    apply py_sorted_elem, elem_of_elements, elem_of_difference in Hk. tauto.
  - by rewrite py_sorted_length.
Qed.

Lemma report_critical_split_witness :
  [str "python"] ++ [str "excel skills"] ≡ₚ [str "excel skills"; str "python"].
Proof.
  refine (proj1 (report_critical_split (str "I know SQL") (str "Python, SQL")
                   (Analysis (Some [str "python"; str "sql"; str "excel skills"])
                      None None None None None)
                   (JdReport
                      (span (str "hl-critical") (str "Python") ++ str ", "
                       ++ span (str "hl-good") (str "SQL"))
                      (str "I know " ++ span (str "hl-good") (str "SQL"))
                      [str "sql"] [str "excel skills"; str "python"] [] [] [] [] [] []
                      [str "sql"] [str "excel skills"; str "python"]
                      [str "python"] [str "excel skills"]
                      1 0 2 1 17 (str "ats-poor")) _)).
  vm_compute. reflexivity.
Defined.

(** X23.  In the report the keywords found and the missing skills have no
    keyword in common and no repetition, and they are the canonical forms
    of the required and optional keywords that are not blank; the two
    counts are the lengths of the two lists. *)
Theorem report_found_and_missing (resume jd : pystr) (a : analysis) (rep : jd_report) :
  process_jd_report resume jd a = Some rep ->
  NoDup (keywords_found_all rep ++ missing_skills_all rep)
  /\ (forall k, k ∈ keywords_found_all rep ++ missing_skills_all rep
                <-> k <> [] /\ k ∈ map canonical
                                     (default [] (jd_required_keywords a)
                                      ++ default [] (jd_optional_keywords a)))
  /\ keywords_found rep = length (keywords_found_all rep)
  /\ missing_skills rep = length (missing_skills_all rep).
Proof.
  intros H. apply process_jd_report_inv in H
    as (r & o & t & s & h1 & h2 & Hr & Ho & _ & _ & ->).
  cbn [keywords_found_all missing_skills_all keywords_found missing_skills].
  unfold present_missing_with_surface in Hr, Ho.
  pose proof (classified_loop _ _ _ _ (classified_empty resume) Hr) as Cr.
  pose proof (classified_loop _ _ _ _ (classified_empty resume) Ho) as Co.
  pose proof (classified_disjoint _ _ _ Cr Cr) as Drr.
  pose proof (classified_disjoint _ _ _ Cr Co) as Dro.
  pose proof (classified_disjoint _ _ _ Co Cr) as Dor.
  pose proof (classified_disjoint _ _ _ Co Co) as Doo.
  pose proof (pmws_loop_entries _ _ _ _ Hr) as Er.
  pose proof (pmws_loop_entries _ _ _ _ Ho) as Eo.
  split; [|split; [|by rewrite !py_sorted_length]].
  - apply NoDup_app. repeat split.
    + apply py_sorted_NoDup, NoDup_elements.
    + intros k Hk Hk'. apply py_sorted_elem, elem_of_elements in Hk, Hk'. set_solver.
    + apply py_sorted_NoDup, NoDup_elements.
  - intros k. rewrite elem_of_app, !py_sorted_elem, !elem_of_elements.
    rewrite map_app, elem_of_app. specialize (Er k). specialize (Eo k).
    cbn in Er, Eo. set_solver.
Qed.

Lemma report_found_and_missing_witness :
  NoDup ([str "sql"] ++ [str "excel skills"; str "python"]).
Proof.
  refine (proj1 (report_found_and_missing (str "I know SQL") (str "Python, SQL")
                   (Analysis (Some [str "python"; str "sql"; str "excel skills"])
                      None None None None None)
                   (JdReport
                      (span (str "hl-critical") (str "Python") ++ str ", "
                       ++ span (str "hl-good") (str "SQL"))
                      (str "I know " ++ span (str "hl-good") (str "SQL"))
                      [str "sql"] [str "excel skills"; str "python"] [] [] [] [] [] []
                      [str "sql"] [str "excel skills"; str "python"]
                      [str "python"] [str "excel skills"]
                      1 0 2 1 17 (str "ats-poor")) _)).
  vm_compute. reflexivity.
Defined.

(** X24.  Without a required keyword that is not blank the score of the
    report is at most 25 and its level is [ats-poor], whatever the resume
    holds. *)
Theorem report_without_required_is_poor (resume jd : pystr) (a : analysis)
    (rep : jd_report) :
  process_jd_report resume jd a = Some rep ->
  Forall (fun raw => canonical raw = []) (default [] (jd_required_keywords a)) ->
  (jd_ats_score rep <= 25)%Z /\ ats_level rep = str "ats-poor".
Proof.
  intros H Hblank. apply process_jd_report_inv in H
    as (r & o & t & s & h1 & h2 & Hr & _ & _ & _ & ->).
  cbn [jd_ats_score ats_level].
  assert (Hp : present r = ∅).
  { unfold present_missing_with_surface in Hr.
    pose proof (pmws_loop_entries _ _ _ _ Hr) as Er. cbn in Er.
    apply set_eq. intros k. split; [|set_solver]. intros Hk.
    assert (Hk' : k ∈ present r ∪ missing r) by set_solver.
    apply Er in Hk' as [[Hne Hin]|Hin]; [|set_solver].
    change (map ?f ?l) with (f <$> l) in Hin.
    apply list_elem_of_fmap in Hin as (raw & -> & Hraw).
    rewrite Forall_forall in Hblank. by rewrite (Hblank raw Hraw) in Hne. }
  rewrite Hp.
  pose proof (simple_formula_score_low (size (missing r)) (size (present o))
                (size (missing o)) (size (missing r ∩ HIGH_PRIORITY_SKILLS))
                (size (matched_phrases resume (default [] (weak_language_phrases a))))
                (size (matched_phrases resume (default [] (low_context_phrases a)))))
    as Hle.
  rewrite size_empty. split; [exact Hle|].
  apply _ats_level_poor. lia.
Qed.

Lemma report_without_required_is_poor_witness :
  (25 <= 25)%Z /\ str "ats-poor" = str "ats-poor".
Proof.
  apply (report_without_required_is_poor (str "I know SQL") (str "Python, SQL")
           (Analysis (Some [str "  "]) (Some [str "sql"]) None None None None)
           (JdReport
              (str "Python, " ++ span (str "hl-good") (str "SQL"))
              (str "I know " ++ span (str "hl-good") (str "SQL"))
              [] [] [str "sql"] [] [] [] [] []
              [str "sql"] [] [] []
              0 0 0 1 25 (str "ats-poor"))).
  - vm_compute. reflexivity.
  - repeat constructor.
Defined.

(** X25.  [occurs_any] never fails; the phrases that it returns are
    trimmed, in lower case and not empty, each occurs in the text, letter
    case apart, and there are at most as many as phrases were given. *)
Theorem occurs_any_sound (resume_text : pystr) (phrases : option (list pystr)) :
  exists matched,
    occurs_any resume_text phrases = Some matched
    /\ size matched <= length (default [] phrases)
    /\ forall p, p ∈ matched ->
         p <> [] /\ py_strip p = p /\ py_lower p = p
         /\ ci_contains p resume_text = true.
Proof.
  rewrite occurs_any_spec. eexists. split; [done|]. split.
  - unfold matched_phrases.
    etrans; [apply size_list_to_set_le|]. rewrite length_map.
    apply length_filter.
  - intros p Hp. unfold matched_phrases in Hp.
    apply elem_of_list_to_set in Hp. change (map ?f ?l) with (f <$> l) in Hp.
    apply list_elem_of_fmap in Hp as (x & -> & Hx).
    apply list_elem_of_filter in Hx as [[Hne Hc] _].
    repeat split.
    + intros E. apply Hne. unfold py_lower in E. by apply map_eq_nil in E.
    + by rewrite <- py_strip_lower, py_strip_idem.
    + apply py_lower_idem.
    + by rewrite ci_contains_lower.
Qed.

(** ** src/analysis/gemini_analysis.py *)

(** X26.  The four keyword lists that [analyze_with_gemini] returns are
    sorted and without repetition, and their entries are canonical and not
    empty; the lists of an analysis that went through the function once
    are left as they are when they go through it again. *)
Theorem analysis_keywords_normal (data : analysis) :
  let a := analyze_with_gemini (Some data) in
  Forall (fun key : analysis -> option (list pystr) =>
            exists l, key a = Some l
              /\ NoDup l
              /\ StronglySorted (fun x y => str_le x y = true) l
              /\ Forall (fun k => k <> [] /\ canonical k = k) l)
    [jd_required_keywords; jd_optional_keywords; technical_skills; soft_skills]
  /\ analyze_with_gemini (Some a) = a.
Proof.
  cbv zeta. split.
  - repeat (constructor;
      [eexists; split; [reflexivity|]; split; [apply normalize_keywords_NoDup|];
       split; [apply py_sorted_sorted|];
       apply Forall_forall; intros k Hk; by apply normalize_keywords_fixed in Hk|]).
    constructor.
  - unfold analyze_with_gemini. cbn [jd_required_keywords jd_optional_keywords
      technical_skills soft_skills weak_language_phrases low_context_phrases default
      from_option id].
    by rewrite !normalize_keywords_idem, !normalize_phrases_idem.
Qed.

(** X27.  For a keyword list as [analyze_with_gemini] returns it, every
    keyword is either present or missing and no two are merged: the sizes
    of the two sets add up to the length of the list. *)
Theorem analysed_keywords_all_classified (text : pystr) (arr : list pystr)
    (syn : option (gmap pystr (list pystr))) (r : presence) :
  present_missing_with_surface text (normalize_keywords arr) syn = Some r ->
  size (present r) + size (missing r) = length (normalize_keywords arr)
  /\ forall k, k ∈ normalize_keywords arr <-> k ∈ present r \/ k ∈ missing r.
Proof.
  apply pmws_fixed_terms; [|apply normalize_keywords_NoDup].
  apply Forall_forall. intros k Hk. by apply normalize_keywords_fixed in Hk.
Qed.

Lemma analysed_keywords_all_classified_witness :
  size ({[ str "sql" ]} : gset pystr) + size ({[ str "go" ]} : gset pystr)
  = length (normalize_keywords [str " SQL"; str "Go "; str "sql"; str " "]).
Proof.
  refine (proj1 (analysed_keywords_all_classified (str "Python and SQL")
                   [str " SQL"; str "Go "; str "sql"; str " "] None
                   (Presence {[ str "sql" ]} {[ str "go" ]}
                      {[ str "sql" := str "SQL" ]}) _)).
  vm_compute. reflexivity.
Defined.

(** X28.  When no model is available [analyze_with_gemini] returns the
    default analysis, and the report of [process_jd_route] is then empty
    whatever the two texts are: both texts are escaped and nothing is
    highlighted, the lists are empty, the counts and the score are 0 and
    the level is [ats-poor]. *)
Theorem report_without_model (resume jd : pystr) :
  process_jd_report resume jd (analyze_with_gemini None)
  = Some (JdReport (_escape jd) (_escape resume)
            [] [] [] [] [] [] [] [] [] [] [] [] 0 0 0 0 0 (str "ats-poor")).
Proof.
  unfold process_jd_report, analyze_with_gemini, DEFAULT.
  cbn [jd_required_keywords jd_optional_keywords technical_skills soft_skills
       weak_language_phrases low_context_phrases default from_option id].
  rewrite pmws_empty. cbn [mbind option_bind present missing surfaces].
  assert (E1 : (∅ : gset pystr) ∩ get_priority_skills = ∅) by set_solver.
  assert (E2 : (∅ : gset pystr) ∖ get_priority_skills = ∅) by set_solver.
  rewrite !(left_id_L ∅ (∪)), E1, E2.
  rewrite !elements_empty. cbn [py_sorted foldr].
  rewrite (proj1 (_highlight_empty jd)). cbn [mbind option_bind].
  replace (values ∅) with (@nil pystr) by (unfold values; by rewrite map_to_list_empty).
  cbn [app map]. rewrite (proj2 (_highlight_empty resume)). cbn [mbind option_bind].
  rewrite !occurs_any_spec. cbn [mbind option_bind].
  rewrite simple_score_formula. cbn [filter length]. unfold matched_phrases.
  rewrite !size_empty.
  rewrite simple_score_no_terms. done.
Qed.

(** ** src/processing/resume_processor.py *)

(** X29.  The text that [normalize_display] returns holds no tab, no
    carriage return and no non-breaking space, no two blanks in a row and no
    three line feeds in a row, and it neither starts nor ends with white
    space. *)
Theorem normalize_display_shape (text : pystr) :
  Forall (fun c => c <> TAB /\ c <> CR /\ c <> NBSP) (normalize_display text)
  /\ py_contains (str "  ") (normalize_display text) = false
  /\ py_contains [LF; LF; LF] (normalize_display text) = false
  /\ (forall c, head (normalize_display text) = Some c -> is_space c = false)
  /\ (forall c, last (normalize_display text) = Some c -> is_space c = false).
Proof.
  destruct (normalize_display_passes text) as (u & -> & Hc & Hb & Hl).
  split; [by apply Forall_strip|].
  split; [eapply single_blanks_contains; by apply single_blanks_strip|].
  split; [eapply short_runs_contains; by apply short_runs_strip|].
  apply py_strip_ends.
Qed.

